(** * HSuite DEX provider: the authenticated duplex client

    A shallow embedding of the provider demo (the rewritten entry point with
    the [swapTransactionRequest] / [swapTransactionExecute] correlators and the
    older [index.js]): the static Smart Node catalog, random node selection,
    the [SmartNodeSocket] lazy socket, the authentication handshake and the
    request/response correlation over the socket's event emitter.

    JavaScript objects that are shared and mutated (sockets, [SmartNodeSocket]
    instances, the closures of one call) live in a store and are referred to
    by their allocation index; the event loop is a function from an event to a
    store transformer. *)

From Stdlib Require Import QArith Qround.
From stdpp Require Import base decidable option list sets strings numbers pretty.

Set Warnings "-register-all".

Open Scope string_scope.
Open Scope Z_scope.
Open Scope list_scope.

(** ** JavaScript values *)

(** The values that reach the code: JSON-like data delivered by the transport,
    [Uint8Array]s, [Error] objects and objects carrying a nullary method
    (the signed transaction's [toBytes]).  Numbers are the integral ones and
    [NaN]; a method takes no argument and returns or throws a fixed value. *)
Inductive JsVal : Type :=
| JUndefined
| JNull
| JBool (b : bool)
| JNum (n : Z)
| JNaN
| JStr (s : string)
| JArr (xs : list JsVal)
| JObj (fields : list (string * JsVal))
| JBytes (bs : list Z)
| JError (name message : string) (fields : list (string * JsVal))
| JFun (src : string) (throws : bool) (result : JsVal).

(** Completion of an expression that may throw. *)
Inductive Completion (A : Type) : Type :=
| Normal (a : A)
| Throw (e : JsVal).
Arguments Normal {A} a.
Arguments Throw {A} e.

(** [!!v] *)
Definition truthy (v : JsVal) : bool :=
  match v with
  | JUndefined | JNull | JNaN => false
  | JBool b => b
  | JNum n => negb (n =? 0)
  | JStr s => match s with EmptyString => false | _ => true end
  | _ => true
  end.

(** [typeof v] *)
Definition typeof (v : JsVal) : string :=
  match v with
  | JUndefined => "undefined"
  | JBool _ => "boolean"
  | JNum _ | JNaN => "number"
  | JStr _ => "string"
  | JFun _ _ _ => "function"
  | JNull | JArr _ | JObj _ | JBytes _ | JError _ _ _ => "object"
  end.

(** [a || b] *)
Definition js_or (a b : JsVal) : JsVal := if truthy a then a else b.

(** [v === 'lit'] *)
Definition is_str (lit : string) (v : JsVal) : bool :=
  match v with JStr s => bool_decide (s = lit) | _ => false end.

Fixpoint assoc (k : string) (fields : list (string * JsVal)) : JsVal :=
  match fields with
  | [] => JUndefined
  | (k', v) :: rest => if decide (k' = k) then v else assoc k rest
  end.

Definition TypeError (message : string) : JsVal := JError "TypeError" message [].
Definition Error (message : string) : JsVal := JError "Error" message [].

(** [e.k = v] on a freshly built [Error]. *)
Definition set_field (k : string) (v : JsVal) (e : JsVal) : JsVal :=
  match e with
  | JError n m fs => JError n m (fs ++ [(k, v)])
  | JObj fs => JObj (fs ++ [(k, v)])
  | _ => e
  end.

(** [v.k], for the property names the code reads (none of them an array
    index or a member of a built-in prototype).  Reading a property of
    [undefined] or [null] throws. *)
Definition get_prop (v : JsVal) (k : string) : Completion JsVal :=
  match v with
  | JUndefined =>
      Throw (TypeError ("Cannot read properties of undefined (reading '" +:+ k +:+ "')"))
  | JNull =>
      Throw (TypeError ("Cannot read properties of null (reading '" +:+ k +:+ "')"))
  | JObj fs => Normal (assoc k fs)
  | JError n m fs =>
      Normal (if decide (k = "message") then JStr m
              else if decide (k = "name") then JStr n else assoc k fs)
  | _ => Normal JUndefined
  end.

(** [v.k] where [v] is already known to be an object. *)
Definition field (v : JsVal) (k : string) : JsVal :=
  match get_prop v k with Normal x => x | Throw _ => JUndefined end.

Definition join (sep : string) (parts : list string) : string :=
  match parts with
  | [] => EmptyString
  | p :: ps => fold_left (fun acc q => acc +:+ sep +:+ q) ps p
  end.

(** *** Numbers as strings *)

(** A number is a double.  [JNum n] stands for the double nearest to the
    integer [n], which is [n] itself up to [2 ^ 53]. *)

(** The double nearest to the natural number [m], ties to the even
    significand; [None] when that is [Infinity]. *)
Definition nearest_double (m : Z) : option Z :=
  if m <? 2 ^ 53 then Some m
  else
    let e := Z.log2 m - 52 in
    let q := m / 2 ^ e in
    let r := m mod 2 ^ e in
    let half := 2 ^ (e - 1) in
    let q := if (half <? r) || ((r =? half) && Z.odd q) then q + 1 else q in
    if 2 ^ 1024 <=? q * 2 ^ e then None else Some (q * 2 ^ e).

(** The two multiples of [10 ^ j] around [x], the nearer one first and, of
    two equally near, the one with the even last digit first. *)
Definition neighbours (x j : Z) : list Z :=
  let p := 10 ^ j in
  let lo := x / p * p in
  let hi := lo + p in
  if x - lo <? hi - x then [lo; hi]
  else if hi - x <? x - lo then [hi; lo]
  else if Z.even (x / p) then [lo; hi] else [hi; lo].

(** The decimal with the fewest significant digits that reads back as the
    double [x]: digits are kept from the left, one more at a time, until one
    of the two neighbours has [x] as its nearest double. *)
Fixpoint shortest_from (fuel : nat) (x j : Z) : Z :=
  match fuel with
  | O => x
  | S fuel =>
      match filter (fun v => nearest_double v = Some x) (neighbours x j) with
      | v :: _ => v
      | [] => shortest_from fuel x (j - 1)
      end
  end.

Definition shortest (x : Z) : Z :=
  let n := String.length (pretty x) in shortest_from n x (Z.of_nat n - 1).

Fixpoint strip_zeros (s : string) : string :=
  match s with
  | EmptyString => EmptyString
  | String ch rest =>
      match strip_zeros rest with
      | EmptyString =>
          if bool_decide (String ch EmptyString = "0") then EmptyString
          else String ch EmptyString
      | rest' => String ch rest'
      end
  end.

(** A positive integer given by its shortest decimal: written in full up to
    21 digits, in exponent form beyond. *)
Definition decimal_string (v : Z) : string :=
  let digits := pretty v in
  let n := String.length digits in
  if (n <=? 21)%nat then digits
  else
    match strip_zeros digits with
    | EmptyString => digits
    | String d EmptyString => String d ("e+" +:+ pretty (n - 1)%nat)
    | String d rest => String d ("." +:+ rest +:+ "e+" +:+ pretty (n - 1)%nat)
    end.

(** [Number::toString] *)
Definition Number_toString (n : Z) : string :=
  if n =? 0 then "0"
  else
    let sign := if n <? 0 then "-" else EmptyString in
    match nearest_double (Z.abs n) with
    | None => sign +:+ "Infinity"
    | Some x => sign +:+ decimal_string (shortest x)
    end.

(** *** Objects as strings *)

(** An own property, if there is one. *)
Fixpoint own_property (k : string) (fields : list (string * JsVal)) : option JsVal :=
  match fields with
  | [] => None
  | (k', v) :: rest => if decide (k' = k) then Some v else own_property k rest
  end.

(** [ToString] of a value that is not an object. *)
Definition primitive_string (v : JsVal) : option string :=
  match v with
  | JUndefined => Some "undefined"
  | JNull => Some "null"
  | JBool true => Some "true"
  | JBool false => Some "false"
  | JNum n => Some (Number_toString n)
  | JNaN => Some "NaN"
  | JStr s => Some s
  | _ => None
  end.

Definition cannot_convert : JsVal := TypeError "Cannot convert object to primitive value".

(** [OrdinaryToPrimitive] with hint string, then [ToString], for an object
    with the own properties [fields] whose prototype's [toString] gives
    [inherited]: [toString] is tried first and [valueOf] next, each only if
    it is callable, and the first result that is not an object is taken.
    [Object.prototype.valueOf] returns the object itself. *)
Definition object_string (fields : list (string * JsVal)) (inherited : string)
  : Completion string :=
  let from_valueOf :=
    match own_property "valueOf" fields with
    | Some (JFun _ true exn) => Throw exn
    | Some (JFun _ false result) =>
        match primitive_string result with
        | Some s => Normal s
        | None => Throw cannot_convert
        end
    | _ => Throw cannot_convert
    end in
  match own_property "toString" fields with
  | None => Normal inherited
  | Some (JFun _ true exn) => Throw exn
  | Some (JFun _ false result) =>
      match primitive_string result with
      | Some s => Normal s
      | None => from_valueOf
      end
  | Some _ => from_valueOf
  end.

(** [Error.prototype.toString] *)
Definition error_string (name message : string) : string :=
  match name, message with
  | EmptyString, _ => message
  | _, EmptyString => name
  | _, _ => name +:+ ": " +:+ message
  end.

(** String conversion as done by template literals and by [new Error(v)].
    It throws when an object cannot be converted. *)
Fixpoint ToString (v : JsVal) : Completion string :=
  match v with
  | JUndefined => Normal "undefined"
  | JNull => Normal "null"
  | JBool true => Normal "true"
  | JBool false => Normal "false"
  | JNum n => Normal (Number_toString n)
  | JNaN => Normal "NaN"
  | JStr s => Normal s
  | JArr xs =>
      match (fix elements (xs : list JsVal) : Completion (list string) :=
               match xs with
               | [] => Normal []
               | x :: rest =>
                   match match x with
                         | JUndefined | JNull => Normal EmptyString
                         | _ => ToString x
                         end with
                   | Throw e => Throw e
                   | Normal s =>
                       match elements rest with
                       | Throw e => Throw e
                       | Normal ss => Normal (s :: ss)
                       end
                   end
               end) xs with
      | Throw e => Throw e
      | Normal parts => Normal (join "," parts)
      end
  | JObj fields => object_string fields "[object Object]"
  | JBytes bs => Normal (join "," (map pretty bs))
  | JError n m fields => object_string fields (error_string n m)
  | JFun src _ _ => Normal src
  end.

(** [new Uint8Array(v)] for an array of numbers: each element modulo 256. *)
Definition Uint8Array (v : JsVal) : option (list Z) :=
  match v with
  | JArr xs =>
      mapM (fun x => match x with
                     | JNum n =>
                         Some (match nearest_double (Z.abs n) with
                               | Some x => (Z.sgn n * x) mod 256
                               | None => 0
                               end)
                     | _ => None
                     end) xs
  | JBytes bs => Some bs
  | _ => None
  end.

(** ** The Smart Node catalog *)

Record Node := mkNode { operator : string; publicKey : string; url : string }.

#[global] Instance Node_eq_dec : EqDecision Node.
Proof. solve_decision. Defined.

(** A catalog is an object whose own keys are network names. *)
Definition Catalog := list (string * list Node).

Definition mainnet_nodes : list Node :=
  [ mkNode "0.0.1786597"
      "302a300506032b65700321003f54816030c29221e4f228c76415cba0db1ab4c49827d9dbf580abc2f2b29c24"
      "https://mainnet-sn1.hsuite.network";
    mkNode "0.0.1786598"
      "302a300506032b6570032100233b043e21d5e148f48e2c2da6607a1f5e6fc381781bd0561967743a8291785e"
      "https://mainnet-sn2.hsuite.network";
    mkNode "0.0.1786599"
      "302a300506032b6570032100c236c88b0aadccf86cc09c57734401409e301d45018ab179f8463801f486c89a"
      "https://mainnet-sn3.hsuite.network";
    mkNode "0.0.1786344"
      "302a300506032b65700321004e3c29113c911ce6dba13669fda53ed1ab3d89547e23c0b7ab2275fd5dc05766"
      "https://mainnet-sn4.hsuite.network";
    mkNode "0.0.1786344"
      "302a300506032b65700321004e3c29113c911ce6dba13669fda53ed1ab3d89547e23c0b7ab2275fd5dc05766"
      "https://mainnet-sn5.hsuite.network";
    mkNode "0.0.1786345"
      "302a300506032b6570032100077bfba9f0fb180026f0de51d4e1083d616eff34a8fe62a1c0e34dd975b7f8cf"
      "https://mainnet-sn6.hsuite.network";
    mkNode "0.0.1786347"
      "302a300506032b6570032100ff792317f5a24278f1a2dddfc9a23670e158ccb9ecd42cdd0ab36e5ad8bc40a6"
      "https://mainnet-sn7.hsuite.network";
    mkNode "0.0.1786365"
      "302a300506032b6570032100485e23e18834571e466f96de9f96f228a1f5da860b319f0f0cb2890f938f298d"
      "https://mainnet-sn8.hsuite.network" ].

Definition testnet_nodes : list Node :=
  [ mkNode "0.0.467726"
      "302a300506032b6570032100ae51a8b5d22e40d68fec62e20488132182f304cddbf5cd494d62cb18a06b71c1"
      "https://testnet-sn1.hsuite.network";
    mkNode "0.0.467732"
      "302a300506032b657003210014e45f62427a777c8a5c168115793969c5fa04979b6a40a34c3bff7d20a3b745"
      "https://testnet-sn2.hsuite.network";
    mkNode "0.0.467734"
      "302a300506032b65700321002caf57f6153afb61ed70545516886b1621aa93dd22ae79412f5af0cbfcd2b5ab"
      "https://testnet-sn3.hsuite.network";
    mkNode "0.0.467737"
      "302a300506032b6570032100452e3d988c2f0e40b6194c7543ec880daaefa29b6c48e590b367bbe22de429d3"
      "https://testnet-sn4.hsuite.network" ].

Definition nodes : Catalog :=
  [ ("mainnet", mainnet_nodes); ("testnet", testnet_nodes) ].

(** Names every object literal inherits from [Object.prototype]. *)
Definition Object_prototype_keys : list string :=
  [ "constructor"; "__proto__"; "hasOwnProperty"; "isPrototypeOf";
    "propertyIsEnumerable"; "toLocaleString"; "toString"; "valueOf";
    "__defineGetter__"; "__defineSetter__"; "__lookupGetter__"; "__lookupSetter__" ].

(** What [catalog[network]] evaluates to. *)
Inductive CatalogEntry : Type :=
| OwnEntry (candidates : list Node)
| InheritedEntry
| NoEntry.

Fixpoint own_entry (cat : Catalog) (network : string) : option (list Node) :=
  match cat with
  | [] => None
  | (k, l) :: rest => if decide (k = network) then Some l else own_entry rest network
  end.

Definition catalog_get (cat : Catalog) (network : string) : CatalogEntry :=
  match own_entry cat network with
  | Some l => OwnEntry l
  | None => if bool_decide (network ∈ Object_prototype_keys) then InheritedEntry else NoEntry
  end.

(** [Math.floor(random * len)] for [0 <= random < 1], computed exactly.  The
    product of doubles is exact when [len] is a power of two, as the lengths
    8 and 4 of the two lists are. *)
Definition random_index (random : Q) (len : nat) : Z :=
  Qfloor (random * inject_Z (Z.of_nat len)).

(** [catalog[network][Math.floor(Math.random() * catalog[network].length)]]:
    the selected node, [None] for [undefined]; a missing entry throws on
    [.length].  An inherited entry is a built-in function or the prototype
    object, which has no element at any index. *)
Definition selectNode (cat : Catalog) (network : string) (random : Q)
  : Completion (option Node) :=
  match catalog_get cat network with
  | OwnEntry l => Normal (l !! Z.to_nat (random_index random (length l)))
  | InheritedEntry => Normal None
  | NoEntry => Throw (TypeError "Cannot read properties of undefined (reading 'length')")
  end.

(** ** Strings *)

(** [s.replace(pat, rep)] with a string pattern: the first occurrence only. *)
Fixpoint replace (pat rep s : string) : string :=
  if String.prefix pat s then rep +:+ String.substring (String.length pat) (String.length s) s
  else match s with
       | EmptyString => EmptyString
       | String ch rest => String ch (replace pat rep rest)
       end.

(** [Buffer.from(s)]: the bytes of the (already encoded) string. *)
Definition Buffer_from (s : string) : list Z :=
  map (fun ch => Z.of_N (Ascii.N_of_ascii ch)) (String.list_ascii_of_string s).

(** ** The platform: ledger SDK, JSON and the operator configuration *)

(** [operator[network]] *)
Record Operator := mkOperator { id : string; private_key : string }.

Class Platform := {
  PrivateKey : Type;
  (** [PrivateKey.fromString(s)], which throws on a malformed key *)
  PrivateKey_fromString : JsVal -> Completion PrivateKey;
  (** [privateKey.sign(bytes)] *)
  PrivateKey_sign : PrivateKey -> list Z -> list Z;
  JSON_stringify : JsVal -> string;
  operator_mainnet : Operator;
  operator_testnet : Operator
}.

(** ** The store *)

(** The closures registered as listeners: five per [smartNodeSocket]
    invocation [a], three per correlated call [c]. *)
Inductive Handler : Type :=
| connectLogger (a : nat)
| disconnectLogger (a : nat)
| errorsLogger (a : nat)
| verdictHandler (a : nat)
| challengeHandler (a : nat)
| responseHandler (c : nat)
| errorHandler (c : nat)
| disconnectHandler (c : nat).

#[global] Instance Handler_eq_dec : EqDecision Handler.
Proof. solve_decision. Defined.

(** A socket.io client socket: its event emitter and what was sent on it.
    [connected] is the transport's own flag. *)
Record Socket := mkSocket {
  s_url : string;
  s_wallet : JsVal;
  listeners : list (string * Handler);
  emitted : list (string * JsVal);
  connected : bool
}.

Record SmartNodeSocket := mkSmartNodeSocket {
  node : option Node;
  wallet : JsVal;
  socket : option nat
}.

Inductive AuthPromise : Type :=
| AuthPending
| AuthResolved (message : string) (nodeSocket : nat)
| AuthRejected (e : JsVal).

(** One invocation of [smartNodeSocket]: its arguments, the [nodeSocket]
    local and the promise it returned. *)
Record Auth := mkAuth {
  a_network : string;
  a_nodeSocket : option nat;
  a_promise : AuthPromise
}.

Inductive Promise : Type :=
| Pending
| Fulfilled (v : JsVal)
| Rejected (e : JsVal).

Inductive Op : Type := SwapRequest | SwapExecute.

#[global] Instance Op_eq_dec : EqDecision Op.
Proof. solve_decision. Defined.

(** One invocation of [swapTransactionRequest] / [swapTransactionExecute]:
    the variables its closures share.  [wrapped] records that [resolve] and
    [reject] have been reassigned to the versions that call [cleanup] first;
    [settle_calls] counts the calls of [originalResolve] / [originalReject]. *)
Record Call := mkCall {
  c_op : Op;
  c_socket : option nat;
  hasResolved : bool;
  timeout : option nat;
  wrapped : bool;
  promise : Promise;
  settle_calls : nat
}.

(** A pending [setTimeout]: its handle, when it is due, and the call whose
    timeout callback it runs. *)
Record Timer := mkTimer { t_id : nat; t_due : N; t_call : nat }.

(** The resolved value of [smartNodeSocket]. *)
Record Connection := mkConnection { message : string; c_nodeSocket : nat }.

Record World := mkWorld {
  sockets : list Socket;
  nodeSockets : list SmartNodeSocket;
  auths : list Auth;
  calls : list Call;
  timers : list Timer;
  now : N;
  next_timer : nat;
  socketConnection : option Connection;
  uncaught : list JsVal
}.

Definition empty_world : World := mkWorld [] [] [] [] [] 0%N 0%nat None [].

Definition with_sockets (f : list Socket -> list Socket) (w : World) : World :=
  mkWorld (f (sockets w)) (nodeSockets w) (auths w) (calls w) (timers w) (now w)
          (next_timer w) (socketConnection w) (uncaught w).
Definition with_nodeSockets (f : list SmartNodeSocket -> list SmartNodeSocket) (w : World) : World :=
  mkWorld (sockets w) (f (nodeSockets w)) (auths w) (calls w) (timers w) (now w)
          (next_timer w) (socketConnection w) (uncaught w).
Definition with_auths (f : list Auth -> list Auth) (w : World) : World :=
  mkWorld (sockets w) (nodeSockets w) (f (auths w)) (calls w) (timers w) (now w)
          (next_timer w) (socketConnection w) (uncaught w).
Definition with_calls (f : list Call -> list Call) (w : World) : World :=
  mkWorld (sockets w) (nodeSockets w) (auths w) (f (calls w)) (timers w) (now w)
          (next_timer w) (socketConnection w) (uncaught w).
Definition with_timers (f : list Timer -> list Timer) (w : World) : World :=
  mkWorld (sockets w) (nodeSockets w) (auths w) (calls w) (f (timers w)) (now w)
          (next_timer w) (socketConnection w) (uncaught w).
Definition with_now (t : N) (w : World) : World :=
  mkWorld (sockets w) (nodeSockets w) (auths w) (calls w) (timers w) t
          (next_timer w) (socketConnection w) (uncaught w).
Definition with_next_timer (n : nat) (w : World) : World :=
  mkWorld (sockets w) (nodeSockets w) (auths w) (calls w) (timers w) (now w)
          n (socketConnection w) (uncaught w).
Definition with_socketConnection (c : option Connection) (w : World) : World :=
  mkWorld (sockets w) (nodeSockets w) (auths w) (calls w) (timers w) (now w)
          (next_timer w) c (uncaught w).
Definition report_uncaught (e : JsVal) (w : World) : World :=
  mkWorld (sockets w) (nodeSockets w) (auths w) (calls w) (timers w) (now w)
          (next_timer w) (socketConnection w) (uncaught w ++ [e]).

(** *** Socket primitives *)

(** [socket.on(event, h)] *)
Definition socket_on (sid : nat) (event : string) (h : Handler) (w : World) : World :=
  with_sockets (alter (fun s => mkSocket (s_url s) (s_wallet s) (listeners s ++ [(event, h)])
                                         (emitted s) (connected s)) sid) w.

Fixpoint remove_first (x : string * Handler) (l : list (string * Handler)) :=
  match l with
  | [] => []
  | y :: rest => if decide (y = x) then rest else y :: remove_first x rest
  end.

(** [socket.off(event, h)]: removes the first registration of [h] under
    [event], if any. *)
Definition socket_off (sid : nat) (event : string) (h : Handler) (w : World) : World :=
  with_sockets (alter (fun s => mkSocket (s_url s) (s_wallet s) (remove_first (event, h) (listeners s))
                                         (emitted s) (connected s)) sid) w.

(** [socket.emit(event, payload)] *)
Definition socket_emit (sid : nat) (event : string) (payload : JsVal) (w : World) : World :=
  with_sockets (alter (fun s => mkSocket (s_url s) (s_wallet s) (listeners s)
                                         (emitted s ++ [(event, payload)]) (connected s)) sid) w.

Definition set_connected (sid : nat) (b : bool) (w : World) : World :=
  with_sockets (alter (fun s => mkSocket (s_url s) (s_wallet s) (listeners s) (emitted s) b) sid) w.

(** [io(url, { query: { wallet } })]: a new socket. *)
Definition io (url : string) (wallet : JsVal) (w : World) : nat * World :=
  (length (sockets w), with_sockets (fun l => l ++ [mkSocket url wallet [] [] false]) w).

(** *** class SmartNodeSocket *)

(** [new SmartNodeSocket(node, wallet)] *)
Definition new_SmartNodeSocket (n : option Node) (wal : JsVal) (w : World) : nat * World :=
  (length (nodeSockets w), with_nodeSockets (fun l => l ++ [mkSmartNodeSocket n wal None]) w).

(** [this.getNode()] *)
Definition getNode (this : nat) (w : World) : option Node :=
  ns ← nodeSockets w !! this; node ns.

(** [this.init(path)] *)
Definition init (this : nat) (path : string) (w : World) : Completion nat * World :=
  match nodeSockets w !! this with
  | None => (Throw (TypeError "Cannot read properties of undefined (reading 'node')"), w)
  | Some ns =>
      match node ns with
      | None => (Throw (TypeError "Cannot read properties of undefined (reading 'url')"), w)
      | Some n =>
          let url := replace "http://" "ws://" (replace "https://" "wss://" (url n)) in
          let '(sid, w) := io (url +:+ "/" +:+ path) (wallet ns) w in
          (Normal sid,
           with_nodeSockets (alter (fun ns => mkSmartNodeSocket (node ns) (wallet ns) (Some sid)) this) w)
      end
  end.

(** [this.getSocket(path)] *)
Definition getSocket (this : nat) (path : string) (w : World) : Completion nat * World :=
  match nodeSockets w !! this with
  | None => (Throw (TypeError "Cannot read properties of undefined (reading 'getSocket')"), w)
  | Some ns =>
      match socket ns with
      | None => init this path w
      | Some sid => (Normal sid, w)
      end
  end.

(** *** Promises, closures and timers of a correlated call *)

Definition op_event (o : Op) : string :=
  match o with SwapRequest => "swapPoolRequest" | SwapExecute => "swapPoolExecute" end.

Definition op_what (o : Op) : string :=
  match o with SwapRequest => "swap request" | SwapExecute => "swap execution" end.

Definition timeout_message (o : Op) : string :=
  match o with
  | SwapRequest => "Swap transaction request timed out after 30 seconds"
  | SwapExecute => "Swap transaction execution timed out after 30 seconds"
  end.

Definition default_code (o : Op) : string :=
  match o with SwapRequest => "SWAP_REQUEST_ERROR" | SwapExecute => "SWAP_EXECUTION_ERROR" end.

(** [originalResolve] / [originalReject]: only the first call settles. *)
Definition settle (c : nat) (outcome : Promise) (w : World) : World :=
  with_calls (alter (fun cl =>
    mkCall (c_op cl) (c_socket cl) (hasResolved cl) (timeout cl) (wrapped cl)
           (match promise cl with Pending => outcome | p => p end)
           (S (settle_calls cl))) c) w.

(** [hasResolved = true] *)
Definition set_hasResolved (c : nat) (w : World) : World :=
  with_calls (alter (fun cl =>
    mkCall (c_op cl) (c_socket cl) true (timeout cl) (wrapped cl) (promise cl) (settle_calls cl)) c) w.

Definition set_timeout (c tid : nat) (w : World) : World :=
  with_calls (alter (fun cl =>
    mkCall (c_op cl) (c_socket cl) (hasResolved cl) (Some tid) (wrapped cl) (promise cl)
           (settle_calls cl)) c) w.

Definition set_c_socket (c sid : nat) (w : World) : World :=
  with_calls (alter (fun cl =>
    mkCall (c_op cl) (Some sid) (hasResolved cl) (timeout cl) (wrapped cl) (promise cl)
           (settle_calls cl)) c) w.

(** [resolve = ...; reject = ...]: from here on both run [cleanup] first. *)
Definition set_wrapped (c : nat) (w : World) : World :=
  with_calls (alter (fun cl =>
    mkCall (c_op cl) (c_socket cl) (hasResolved cl) (timeout cl) true (promise cl)
           (settle_calls cl)) c) w.

(** [setTimeout(callback of call c, delay)] *)
Definition setTimeout (delay : N) (c : nat) (w : World) : nat * World :=
  let tid := next_timer w in
  (tid, with_next_timer (S tid)
          (with_timers (fun l => l ++ [mkTimer tid (now w + delay) c]) w)).

(** [clearTimeout(handle)]; [clearTimeout(undefined)] does nothing. *)
Definition clearTimeout (handle : option nat) (w : World) : World :=
  match handle with
  | None => w
  | Some tid => with_timers (filter (fun t => t_id t ≠ tid)) w
  end.

(** The [cleanup] closure of call [c]. *)
Definition cleanup (c : nat) (w : World) : World :=
  match calls w !! c with
  | Some cl =>
      match c_socket cl with
      | Some sid =>
          socket_off sid "disconnect" (disconnectHandler c)
            (socket_off sid "error" (errorHandler c)
               (socket_off sid (op_event (c_op cl)) (responseHandler c) w))
      | None => w
      end
  | None => w
  end.

(** A call of the variable [resolve] or [reject] of call [c], whatever it is
    bound to at that moment. *)
Definition call_settle (c : nat) (outcome : Promise) (w : World) : World :=
  match calls w !! c with
  | Some cl => settle c outcome (if wrapped cl then cleanup c w else w)
  | None => w
  end.

Definition resolve (c : nat) (v : JsVal) : World -> World := call_settle c (Fulfilled v).
Definition reject (c : nat) (e : JsVal) : World -> World := call_settle c (Rejected e).

(** The [catch (parseError)] of [responseHandler]: what [reject] is called
    with, unless building that error throws in turn. *)
Definition parse_failure (parseError : JsVal) : Completion Promise :=
  match get_prop parseError "message" with
  | Throw exn => Throw exn
  | Normal m =>
      match ToString m with
      | Throw exn => Throw exn
      | Normal s => Normal (Rejected (Error ("Error parsing server response: " +:+ s)))
      end
  end.

(** The [try] / [catch] of [responseHandler]: which of [resolve] / [reject]
    is called and with what.  In the [try] only [new Error(errorMessage)] can
    throw, when [errorMessage] has no string form; [Throw] is an exception
    that leaves the handler, with neither [resolve] nor [reject] called. *)
Definition response_outcome (o : Op) (response : JsVal) : Completion Promise :=
  if negb (truthy response) || negb (bool_decide (typeof response = "object")) then
    Normal (Rejected (Error "Invalid response format received from server"))
  else if is_str "success" (field response "status") then
    match o with
    | SwapRequest =>
        if negb (truthy (field response "payload")) then
          Normal (Rejected (Error "Server response missing transaction payload"))
        else Normal (Fulfilled (field response "payload"))
    | SwapExecute => Normal (Fulfilled response)
    end
  else
    let errorMessage :=
      js_or (field response "error")
        (js_or (field response "message")
           (JStr ("Unknown error occurred during " +:+ op_what o))) in
    let errorCode :=
      js_or (field response "errorCode")
        (js_or (field response "code") (JStr (default_code o))) in
    match ToString errorMessage with
    | Normal s =>
        Normal (Rejected (set_field "response" response
                            (set_field "code" errorCode (Error s))))
    | Throw parseError => parse_failure parseError
    end.

(** [responseHandler] of call [c]; the result carries the exception that
    left it, if any. *)
Definition on_response (c : nat) (response : JsVal) (w : World) : World * option JsVal :=
  match calls w !! c with
  | Some cl =>
      if hasResolved cl then (w, None)
      else
        let w := set_hasResolved c w in
        let w := clearTimeout (timeout cl) w in
        match response_outcome (c_op cl) response with
        | Normal outcome => (call_settle c outcome w, None)
        | Throw exn => (w, Some exn)
        end
  | None => (w, None)
  end.

(** [errorHandler] of call [c]; evaluating [error.message] throws when the
    event carries [undefined] or [null], the template literal throws when
    [error.message || error] has no string form, and the exception leaves
    the handler. *)
Definition on_error (c : nat) (error : JsVal) (w : World) : World * option JsVal :=
  match calls w !! c with
  | Some cl =>
      if hasResolved cl then (w, None)
      else
        let w := set_hasResolved c w in
        let w := clearTimeout (timeout cl) w in
        match get_prop error "message" with
        | Throw exn => (w, Some exn)
        | Normal m =>
            match ToString (js_or m error) with
            | Throw exn => (w, Some exn)
            | Normal text =>
                let socketError :=
                  set_field "originalError" error
                    (set_field "code" (JStr "SOCKET_ERROR")
                       (Error ("Socket error during " +:+ op_what (c_op cl) +:+ ": "
                               +:+ text))) in
                (reject c socketError w, None)
            end
        end
  | None => (w, None)
  end.

(** [disconnectHandler] of call [c]; the template literal throws when
    [reason] has no string form. *)
Definition on_disconnect (c : nat) (reason : JsVal) (w : World) : World * option JsVal :=
  match calls w !! c with
  | Some cl =>
      if hasResolved cl then (w, None)
      else
        let w := set_hasResolved c w in
        let w := clearTimeout (timeout cl) w in
        match ToString reason with
        | Throw exn => (w, Some exn)
        | Normal text =>
            let disconnectError :=
              set_field "reason" reason
                (set_field "code" (JStr "SOCKET_DISCONNECT")
                   (Error ("Socket disconnected during " +:+ op_what (c_op cl) +:+ ": "
                           +:+ text))) in
            (reject c disconnectError w, None)
        end
  | None => (w, None)
  end.

(** The callback given to [setTimeout] by call [c]. *)
Definition on_timeout (c : nat) (w : World) : World :=
  match calls w !! c with
  | Some cl =>
      if hasResolved cl then w
      else reject c (Error (timeout_message (c_op cl))) (set_hasResolved c w)
  | None => w
  end.

(** The [catch (error)] block of a correlated call.  Reading [error.message]
    of a thrown [null] or [undefined] throws again, and so does the template
    literal when the message has no string form: the exception leaves the
    [async] executor as an unhandled rejection. *)
Definition catch_init (c : nat) (error : JsVal) (w : World) : World :=
  match calls w !! c with
  | Some cl =>
      if hasResolved cl then w
      else
        let w := set_hasResolved c w in
        let w := clearTimeout (timeout cl) w in
        match get_prop error "message" with
        | Throw exn => report_uncaught exn w
        | Normal m =>
            match ToString m with
            | Throw exn => report_uncaught exn w
            | Normal text =>
                let enhancedError :=
                  set_field "originalError" error
                    (set_field "code" (JStr "INITIALIZATION_ERROR")
                       (Error ("Failed to initiate " +:+ op_what (c_op cl) +:+ ": "
                               +:+ text))) in
                reject c enhancedError w
            end
        end
  | None => w
  end.

(** *** The correlated calls *)

(** [new Promise((resolve, reject) => { let timeout; let hasResolved = false; ... })] *)
Definition open_call (o : Op) (w : World) : nat * World :=
  (length (calls w),
   with_calls (fun l => l ++ [mkCall o None false None false Pending 0]) w).

(** The common start of the [try] block: fetch the socket of the stored
    connection, arm the 30 s timer, register the three listeners and rebind
    [resolve] / [reject]. *)
Definition arm (o : Op) (c : nat) (w : World) : Completion nat * World :=
  match socketConnection w with
  | None => (Throw (TypeError "Cannot read properties of null (reading 'socket')"), w)
  | Some conn =>
      match getSocket (c_nodeSocket conn) "gateway" w with
      | (Throw e, w) => (Throw e, w)
      | (Normal sid, w) =>
          let w := set_c_socket c sid w in
          let '(tid, w) := setTimeout 30000 c w in
          let w := set_timeout c tid w in
          let w := socket_on sid (op_event o) (responseHandler c) w in
          let w := socket_on sid "error" (errorHandler c) w in
          let w := socket_on sid "disconnect" (disconnectHandler c) w in
          (Normal sid, set_wrapped c w)
      end
  end.

Definition swapTransactionRequest (senderId swap : JsVal) (w : World) : nat * World :=
  let '(c, w) := open_call SwapRequest w in
  (c, match arm SwapRequest c w with
      | (Throw e, w) => catch_init c e w
      | (Normal sid, w) =>
          if negb (truthy senderId) || negb (bool_decide (typeof senderId = "string")) then
            reject c (Error "Invalid senderId provided - must be a valid account ID string") w
          else if negb (truthy swap) || negb (bool_decide (typeof swap = "object")) then
            reject c (Error "Invalid swap object provided") w
          else
            socket_emit sid "swapPoolRequest"
              (JObj [("type", JStr "swapPoolRequest"); ("senderId", senderId); ("swap", swap)]) w
      end).

Definition swapTransactionExecute (signedTransaction : JsVal) (w : World) : nat * World :=
  let '(c, w) := open_call SwapExecute w in
  (c, match arm SwapExecute c w with
      | (Throw e, w) => catch_init c e w
      | (Normal sid, w) =>
          let toBytes := field signedTransaction "toBytes" in
          if negb (truthy signedTransaction)
             || negb (bool_decide (typeof toBytes = "function")) then
            reject c (Error "Invalid signed transaction provided") w
          else
            match toBytes with
            | JFun _ true exn => catch_init c exn w
            | JFun _ false bytes =>
                socket_emit sid "swapPoolExecute"
                  (JObj [("type", JStr "swapPoolExecute"); ("transactionBytes", bytes)]) w
            | _ => w
            end
      end).

(** [socketConnection = await smartNodeSocket(network)] once that promise has
    been fulfilled. *)
Definition await_connection (a : nat) (w : World) : World :=
  match auths w !! a with
  | Some au =>
      match a_promise au with
      | AuthResolved m ns => with_socketConnection (Some (mkConnection m ns)) w
      | _ => w
      end
  | None => w
  end.

(** ** The handshake and the event loop *)

Section Semantics.
Context `{Platform}.

(** [operator[network].id] and [operator[network].private_key] *)
Definition operator_prop (network : string) (prop : Operator -> string) (name : string)
  : Completion JsVal :=
  if decide (network = "mainnet") then Normal (JStr (prop operator_mainnet))
  else if decide (network = "testnet") then Normal (JStr (prop operator_testnet))
  else if bool_decide (network ∈ Object_prototype_keys) then Normal JUndefined
  else Throw (TypeError ("Cannot read properties of undefined (reading '" +:+ name +:+ "')")).

(** [resolve] / [reject] of the promise returned by [smartNodeSocket]. *)
Definition auth_settle (a : nat) (outcome : AuthPromise) (w : World) : World :=
  with_auths (alter (fun au =>
    mkAuth (a_network au) (a_nodeSocket au)
           (match a_promise au with AuthPending => outcome | p => p end)) a) w.

Definition set_a_nodeSocket (a ns : nat) (w : World) : World :=
  with_auths (alter (fun au => mkAuth (a_network au) (Some ns) (a_promise au)) a) w.

(** [nodeSocket.getNode().operator] *)
Definition node_operator (ns : nat) (w : World) : Completion string :=
  match getNode ns w with
  | Some n => Normal (operator n)
  | None => Throw (TypeError "Cannot read properties of undefined (reading 'operator')")
  end.

(** The ['authenticate'] listener: the verdict of the Smart Node.  It is an
    [async] function, so an exception inside it is an unhandled rejection
    and does not stop the emitter. *)
Definition on_verdict (a : nat) (event : JsVal) (w : World) : World :=
  match auths w !! a with
  | Some (mkAuth network (Some ns) _) =>
      match get_prop event "isValidSignature", operator_prop network id "id",
            node_operator ns w with
      | Normal valid, Normal account, Normal op =>
          match ToString account with
          | Throw e => report_uncaught e w
          | Normal account =>
              if truthy valid then
                auth_settle a
                  (AuthResolved ("account " +:+ account +:+ " authenticated to node "
                                 +:+ op +:+ ".") ns) w
              else
                auth_settle a
                  (AuthRejected (Error ("Authentication failed: Invalid signature for account "
                                        +:+ account +:+ " on node " +:+ op))) w
          end
      | Throw e, _, _ | _, Throw e, _ | _, _, Throw e => report_uncaught e w
      end
  | _ => w
  end.

(** The canonical response payload built inside the [try] of the
    ['authentication'] listener.  [None] when [event.signedData.signature]
    is neither an array of integers nor a [Uint8Array]: that conversion is
    not modelled. *)
Definition challenge_payload (event : JsVal) : option (Completion JsVal) :=
  match get_prop event "signedData" with
  | Throw e => Some (Throw e)
  | Normal signedData =>
      match get_prop signedData "signature" with
      | Throw e => Some (Throw e)
      | Normal signature =>
          bs ← Uint8Array signature;
          Some (Normal (JObj [("serverSignature", JBytes bs);
                              ("originalPayload", field event "payload")]))
      end
  end.

Definition sign_payload (network : string) (payload : JsVal) : Completion JsVal :=
  match operator_prop network private_key "private_key" with
  | Throw e => Throw e
  | Normal key =>
      match PrivateKey_fromString key with
      | Throw e => Throw e
      | Normal privateKey =>
          let bytes := Buffer_from (JSON_stringify payload) in
          Normal (JBytes (PrivateKey_sign privateKey bytes))
      end
  end.

(** The ['authentication'] listener: answer the challenge. *)
Definition on_challenge (a : nat) (event : JsVal) (w : World) : World :=
  match auths w !! a with
  | Some (mkAuth network (Some ns) _) =>
      let failed (authError : JsVal) (w : World) :=
        match get_prop authError "message" with
        | Throw exn => report_uncaught exn w
        | Normal m =>
            match ToString m with
            | Throw exn => report_uncaught exn w
            | Normal text =>
                auth_settle a
                  (AuthRejected (Error ("Authentication process failed: " +:+ text))) w
            end
        end in
      match node_operator ns w, challenge_payload event with
      | Throw e, _ | _, Some (Throw e) => failed e w
      | Normal _, None => w
      | Normal _, Some (Normal payload) =>
          match sign_payload network payload, operator_prop network id "id" with
          | Throw e, _ | _, Throw e => failed e w
          | Normal signature, Normal walletId =>
              match getSocket ns "gateway" w with
              | (Throw e, w) => failed e w
              | (Normal sid, w) =>
                  socket_emit sid "authenticate"
                    (JObj [("signedData",
                            JObj [("signedPayload", payload); ("userSignature", signature)]);
                           ("walletId", walletId)]) w
              end
          end
      end
  | _ => w
  end.

(** Running one listener; the result carries the exception that left it,
    if any. *)
Definition run_handler (h : Handler) (arg : JsVal) (w : World) : World * option JsVal :=
  match h with
  | connectLogger _ | disconnectLogger _ | errorsLogger _ => (w, None)
  | verdictHandler a => (on_verdict a arg w, None)
  | challengeHandler a => (on_challenge a arg w, None)
  | responseHandler c => on_response c arg w
  | errorHandler c => on_error c arg w
  | disconnectHandler c => on_disconnect c arg w
  end.

(** The emitter calls the listeners of a snapshot in registration order;
    an exception from one of them skips the rest. *)
Fixpoint run_listeners (hs : list Handler) (arg : JsVal) (w : World) : World :=
  match hs with
  | [] => w
  | h :: rest =>
      match run_handler h arg w with
      | (w', None) => run_listeners rest arg w'
      | (w', Some exn) => report_uncaught exn w'
      end
  end.

Definition socket_listeners (sid : nat) (event : string) (w : World) : list Handler :=
  match sockets w !! sid with
  | Some s => (filter (fun l => l.1 = event) (listeners s)).*2
  | None => []
  end.

(** What the environment does: the transport delivers an event on a socket,
    or time passes. *)
Inductive Event : Type :=
| Incoming (sid : nat) (event : string) (arg : JsVal)
| Elapse (ms : N).

(** Timers that are due run in the order they were armed (all have the same
    delay). *)
Definition fire_timers (w : World) : World :=
  let due := filter (fun t => (t_due t <= now w)%N) (timers w) in
  foldl (fun w t => on_timeout (t_call t) w)
        (with_timers (filter (fun t => ¬ (t_due t <= now w)%N)) w) due.

Definition step (w : World) (e : Event) : World :=
  match e with
  | Incoming sid event arg =>
      let w := if decide (event = "connect") then set_connected sid true w
               else if decide (event = "disconnect") then set_connected sid false w
               else w in
      run_listeners (socket_listeners sid event w) arg w
  | Elapse ms => fire_timers (with_now (now w + ms)%N w)
  end.

Definition run (w : World) (trace : list Event) : World := foldl step w trace.

(** *** smartNodeSocket *)

(** [nodeSocket.getSocket('gateway').on(event, h)] *)
Definition on_gateway (ns : nat) (event : string) (h : Handler) (w : World)
  : Completion unit * World :=
  match getSocket ns "gateway" w with
  | (Normal sid, w) => (Normal tt, socket_on sid event h w)
  | (Throw e, w) => (Throw e, w)
  end.

Definition and_then (m k : World -> Completion unit * World) (w : World)
  : Completion unit * World :=
  match m w with
  | (Normal _, w) => k w
  | (Throw e, w) => (Throw e, w)
  end.

(** [smartNodeSocket(network)] over a catalog, with the value [random]
    returned by [Math.random()].  [io] starts connecting on its own, so the
    final [connect()] adds nothing to the store. *)
Definition smartNodeSocketOn (cat : Catalog) (network : string) (random : Q) (w : World)
  : nat * World :=
  let a := length (auths w) in
  let w := with_auths (fun l => l ++ [mkAuth network None AuthPending]) w in
  (a, match selectNode cat network random with
      | Throw e => auth_settle a (AuthRejected e) w
      | Normal None =>
          auth_settle a
            (AuthRejected (TypeError "Cannot read properties of undefined (reading 'url')")) w
      | Normal (Some randomNode) =>
          match operator_prop network id "id" with
          | Throw e => auth_settle a (AuthRejected e) w
          | Normal account =>
              let '(ns, w) := new_SmartNodeSocket (Some randomNode) account w in
              let w := set_a_nodeSocket a ns w in
              match and_then (on_gateway ns "connect" (connectLogger a))
                      (and_then (on_gateway ns "disconnect" (disconnectLogger a))
                         (and_then (on_gateway ns "errors" (errorsLogger a))
                            (and_then (on_gateway ns "authenticate" (verdictHandler a))
                               (on_gateway ns "authentication" (challengeHandler a))))) w with
              | (Normal _, w) => w
              | (Throw e, w) => auth_settle a (AuthRejected e) w
              end
          end
      end).

Definition smartNodeSocket : string -> Q -> World -> nat * World :=
  smartNodeSocketOn nodes.

End Semantics.

(** ** A concrete platform and concrete stores for the examples *)

(** A stand-in for the ledger SDK: keys are non-empty strings, a signature is
    the message shifted by the key length. *)
Definition toy_platform : Platform := {|
  PrivateKey := string;
  PrivateKey_fromString v :=
    match v with
    | JStr (String ch rest) => Normal (String ch rest)
    | _ => Throw (Error "invalid private key")
    end;
  PrivateKey_sign key bytes := map (fun b => (b + Z.of_nat (String.length key)) mod 256) bytes;
  JSON_stringify v := match ToString v with Normal s => s | Throw _ => EmptyString end;
  operator_mainnet := mkOperator "0.0.1001" "mainnet-key";
  operator_testnet := mkOperator "0.0.2002" "testnet-key"
|}.

(** The first testnet node. *)
Definition testnet_sn1 : Node :=
  mkNode "0.0.467726"
    "302a300506032b6570032100ae51a8b5d22e40d68fec62e20488132182f304cddbf5cd494d62cb18a06b71c1"
    "https://testnet-sn1.hsuite.network".

(** The store after [smartNodeSocket('testnet')] picked the first node. *)
Definition handshake_world : World :=
  (@smartNodeSocket toy_platform "testnet" 0%Q empty_world).2.

(** ... after the node accepted the signature and [main] stored the
    connection. *)
Definition authenticated_world : World :=
  await_connection 0
    (@run toy_platform handshake_world
       [Incoming 0 "connect" JUndefined;
        Incoming 0 "authentication"
          (JObj [("payload", JStr "abc");
                 ("signedData", JObj [("signature", JArr [JNum 1; JNum 2; JNum 3])])]);
        Incoming 0 "authenticate" (JObj [("isValidSignature", JBool true)])]).

Definition swapObj : JsVal :=
  JObj [("baseToken", JObj [("amount", JNum 5000)]); ("swapToken", JObj [("amount", JNull)])].

Definition signedTx : JsVal :=
  JObj [("toBytes", JFun "function toBytes() { [native code] }" false (JBytes [10; 20; 30]))].

(** ** Vocabulary of the statements *)

(** The slice of [0, 1) that selects index [i] among [len] candidates. *)
Definition slice (len i : nat) (random : Q) : Prop :=
  (inject_Z (Z.of_nat i) / inject_Z (Z.of_nat len) <= random)%Q
  ∧ (random < inject_Z (Z.of_nat i + 1) / inject_Z (Z.of_nat len))%Q.

(** The two correlated operations behind one name. *)
Inductive Request : Type :=
| RequestSwap (senderId swap : JsVal)
| ExecuteSwap (signedTransaction : JsVal).

Definition request_op (r : Request) : Op :=
  match r with RequestSwap _ _ => SwapRequest | ExecuteSwap _ => SwapExecute end.

Definition send (r : Request) (w : World) : nat * World :=
  match r with
  | RequestSwap senderId swap => swapTransactionRequest senderId swap w
  | ExecuteSwap signedTransaction => swapTransactionExecute signedTransaction w
  end.

(** The arguments pass the input validation and [toBytes()] returns. *)
Definition valid_request (r : Request) : Prop :=
  match r with
  | RequestSwap senderId swap =>
      truthy senderId = true ∧ typeof senderId = "string"
      ∧ truthy swap = true ∧ typeof swap = "object"
  | ExecuteSwap signedTransaction =>
      truthy signedTransaction = true
      ∧ ∃ src bytes, field signedTransaction "toBytes" = JFun src false bytes
  end.

(** What is sent for a valid request. *)
Definition wire_payload (r : Request) : JsVal :=
  match r with
  | RequestSwap senderId swap =>
      JObj [("type", JStr "swapPoolRequest"); ("senderId", senderId); ("swap", swap)]
  | ExecuteSwap signedTransaction =>
      JObj [("type", JStr "swapPoolExecute");
            ("transactionBytes",
             match field signedTransaction "toBytes" with
             | JFun _ _ bytes => bytes
             | _ => JUndefined
             end)]
  end.

(** The three listeners a correlated call registers. *)
Definition call_listeners (o : Op) (c : nat) : list (string * Handler) :=
  [(op_event o, responseHandler c); ("error", errorHandler c);
   ("disconnect", disconnectHandler c)].

(** The socket [socketConnection.socket.getSocket('gateway')] returns when a
    connection has been stored and its socket exists. *)
Definition gateway (w : World) : option nat :=
  conn ← socketConnection w; ns ← nodeSockets w !! c_nodeSocket conn; socket ns.

(** The connection is authenticated: [main] has stored the connection of a
    successful handshake and the transport is still connected. *)
Definition authenticated (w : World) : bool :=
  match gateway w with
  | Some sid => from_option connected false (sockets w !! sid)
  | None => false
  end.

Definition handler_call (h : Handler) : option nat :=
  match h with
  | responseHandler c | errorHandler c | disconnectHandler c => Some c
  | _ => None
  end.

(** The handshake a listener can settle (the loggers settle nothing). *)
Definition handler_auth (h : Handler) : option nat :=
  match h with
  | verdictHandler a | challengeHandler a => Some a
  | _ => None
  end.

(** Every closure and timer handle in the store refers to something that has
    been allocated. *)
Definition handler_allocated (w : World) (h : Handler) : Prop :=
  match h with
  | responseHandler c | errorHandler c | disconnectHandler c => (c < length (calls w))%nat
  | connectLogger a | disconnectLogger a | errorsLogger a
  | verdictHandler a | challengeHandler a => (a < length (auths w))%nat
  end.

Definition wf (w : World) : Prop :=
  Forall (fun s => Forall (fun l => handler_allocated w l.2) (listeners s)) (sockets w)
  ∧ Forall (fun t => (t_id t < next_timer w)%nat ∧ (t_call t < length (calls w))%nat) (timers w)
  ∧ Forall (fun cl => from_option (fun tid => (tid < next_timer w)%nat) True (timeout cl))
           (calls w).

(** Total time that passes in a trace. *)
Definition elapsed (trace : list Event) : N :=
  foldr (fun e acc => match e with Elapse ms => (ms + acc)%N | _ => acc end) 0%N trace.

(** The transport delivers none of the events a call on socket [sid] with
    operation [o] listens to. *)
Definition quiet (sid : nat) (o : Op) (e : Event) : Prop :=
  match e with
  | Incoming sid' event _ =>
      sid' = sid -> event ≠ op_event o ∧ event ≠ "error" ∧ event ≠ "disconnect"
  | Elapse _ => True
  end.

(** The store right after a call has armed its timer and listeners on
    socket [sid]. *)
Definition armed_world (o : Op) (sid : nat) (w : World) : World :=
  mkWorld
    (alter (fun s => mkSocket (s_url s) (s_wallet s)
                       (listeners s ++ call_listeners o (length (calls w)))
                       (emitted s) (connected s)) sid (sockets w))
    (nodeSockets w) (auths w)
    (calls w ++ [mkCall o (Some sid) false (Some (next_timer w)) true Pending 0])
    (timers w ++ [mkTimer (next_timer w) (now w + 30000) (length (calls w))])
    (now w) (S (next_timer w)) (socketConnection w) (uncaught w).

(** The connection after the transport has dropped. *)
Definition closed_world : World :=
  @step toy_platform authenticated_world (Incoming 0 "disconnect" (JStr "transport close")).

(** *** What a listener or a timer callback may change *)

(** A closure only ever sets [hasResolved] and settles its promise once. *)
Definition call_step (cl cl' : Call) : Prop :=
  c_op cl' = c_op cl ∧ c_socket cl' = c_socket cl ∧ timeout cl' = timeout cl
  ∧ wrapped cl' = wrapped cl
  ∧ (promise cl ≠ Pending -> promise cl' = promise cl)
  ∧ (hasResolved cl = true -> hasResolved cl' = true).

Definition auth_step (au au' : Auth) : Prop :=
  a_network au' = a_network au ∧ a_nodeSocket au' = a_nodeSocket au
  ∧ (a_promise au ≠ AuthPending -> a_promise au' = a_promise au).

(** The calls outside [C] are untouched, the others take a [call_step]. *)
Definition calls_rel (C : nat -> Prop) (l l' : list Call) : Prop :=
  ∀ c, match l !! c with
       | Some cl => ∃ cl', l' !! c = Some cl' ∧ call_step cl cl' ∧ (¬ C c -> cl' = cl)
       | None => l' !! c = None
       end.

Definition auths_rel (A : nat -> Prop) (l l' : list Auth) : Prop :=
  ∀ a, match l !! a with
       | Some au => ∃ au', l' !! a = Some au' ∧ auth_step au au' ∧ (¬ A a -> au' = au)
       | None => l' !! a = None
       end.

(** No listener appears. *)
Definition listeners_shrink (w w' : World) : Prop :=
  ∀ sid s' x, sockets w' !! sid = Some s' -> x ∈ listeners s' ->
              ∃ s, sockets w !! sid = Some s ∧ x ∈ listeners s.

(** A timer disappears only if a call in [C] holds its handle. *)
Definition timers_kept (C : nat -> Prop) (w w' : World) : Prop :=
  ∀ t, t ∈ timers w ->
       (∀ c cl, C c -> calls w !! c = Some cl -> timeout cl ≠ Some (t_id t)) ->
       t ∈ timers w'.

(** The listeners of the handshake stay where they are. *)
Definition of_handshake (l : string * Handler) : Prop := handler_call l.2 = None.

#[global] Instance of_handshake_dec (l : string * Handler) : Decision (of_handshake l).
Proof. unfold of_handshake. apply _. Defined.

Definition handshake_listeners_kept (w w' : World) : Prop :=
  ∀ sid s, sockets w !! sid = Some s ->
           ∃ s', sockets w' !! sid = Some s'
                 ∧ filter of_handshake (listeners s') = filter of_handshake (listeners s).

(** The footprint of code that runs on behalf of the calls in [C] and the
    handshakes in [A]. *)
Definition effect (C A : nat -> Prop) (w w' : World) : Prop :=
  calls_rel C (calls w) (calls w')
  ∧ auths_rel A (auths w) (auths w')
  ∧ listeners_shrink w w'
  ∧ (∀ t, t ∈ timers w' -> t ∈ timers w)
  ∧ timers_kept C w w'
  ∧ now w' = now w ∧ next_timer w' = next_timer w
  ∧ handshake_listeners_kept w w'
  ∧ (∀ ns o, nodeSockets w !! ns = Some o -> socket o ≠ None ->
             nodeSockets w' !! ns = Some o).

(** *** A call that is waiting for its reply *)

Definition live (o : Op) (sid tid : nat) : Call :=
  mkCall o (Some sid) false (Some tid) true Pending 0.

(** Call [c] is unsettled, its timer [tid] is armed and due at [due], no
    other call holds that handle, and its listeners sit on socket [sid] under
    the three event names only. *)
Definition waiting (o : Op) (c sid tid : nat) (due : N) (w : World) : Prop :=
  calls w !! c = Some (live o sid tid)
  ∧ mkTimer tid due c ∈ timers w
  ∧ (∀ t, t ∈ timers w -> t_call t = c -> t = mkTimer tid due c)
  ∧ (∀ c' cl', c' ≠ c -> calls w !! c' = Some cl' -> timeout cl' ≠ Some tid)
  ∧ (∀ sid' s ev h, sockets w !! sid' = Some s -> (ev, h) ∈ listeners s ->
                    handler_call h = Some c ->
                    sid' = sid ∧ (ev = op_event o ∨ ev = "error" ∨ ev = "disconnect"))
  ∧ (now w < due)%N.

(** *** A handshake that is waiting for its verdict *)

Definition operator_of `{Platform} (network : string) : option Operator :=
  if decide (network = "mainnet") then Some operator_mainnet
  else if decide (network = "testnet") then Some operator_testnet
  else None.

(** The five listeners [smartNodeSocket] registers. *)
Definition handshake_listeners (a : nat) : list (string * Handler) :=
  [("connect", connectLogger a); ("disconnect", disconnectLogger a);
   ("errors", errorsLogger a); ("authenticate", verdictHandler a);
   ("authentication", challengeHandler a)].

Definition gateway_url (n : Node) : string :=
  replace "http://" "ws://" (replace "https://" "wss://" (url n)) +:+ "/" +:+ "gateway".

(** The store after [smartNodeSocket] has selected node [n] and set up its
    socket. *)
Definition started_world (network : string) (n : Node) (account : JsVal) (w : World) : World :=
  mkWorld
    (sockets w ++ [mkSocket (gateway_url n) account (handshake_listeners (length (auths w)))
                            [] false])
    (nodeSockets w ++ [mkSmartNodeSocket (Some n) account (Some (length (sockets w)))])
    (auths w ++ [mkAuth network (Some (length (nodeSockets w))) AuthPending])
    (calls w) (timers w) (now w) (next_timer w) (socketConnection w) (uncaught w).

(** The transport delivers neither a verdict nor a challenge on socket [sid]. *)
Definition no_verdict (sid : nat) (e : Event) : Prop :=
  match e with
  | Incoming sid' event _ => sid' = sid -> event ≠ "authenticate" ∧ event ≠ "authentication"
  | Elapse _ => True
  end.

(** The transport delivers no verdict on socket [sid], and every challenge
    it delivers there is one the listener answers. *)
Definition no_decision `{Platform} (network : string) (sid : nat) (e : Event) : Prop :=
  match e with
  | Incoming sid' event arg =>
      sid' = sid ->
      event ≠ "authenticate"
      ∧ (event = "authentication" ->
         ∃ payload signature,
           challenge_payload arg = Some (Normal payload)
           ∧ sign_payload network payload = Normal signature)
  | Elapse _ => True
  end.

(** Handshake [a] with node [n] is undecided and its socket [sid] carries
    exactly the five listeners; no other socket carries its verdict or
    challenge listener. *)
Definition awaiting (a sid ns : nat) (network : string) (n : Node) (w : World) : Prop :=
  auths w !! a = Some (mkAuth network (Some ns) AuthPending)
  ∧ (∃ s, sockets w !! sid = Some s ∧ listeners s = handshake_listeners a)
  ∧ (∀ sid' s ev h, sockets w !! sid' = Some s -> (ev, h) ∈ listeners s ->
                    handler_auth h = Some a -> sid' = sid)
  ∧ (∃ account, nodeSockets w !! ns = Some (mkSmartNodeSocket (Some n) account (Some sid))).

(** The challenge of the end-to-end scenario. *)
Definition challenge : JsVal :=
  JObj [("payload", JStr "abc");
        ("signedData", JObj [("signature", JArr [JNum 1; JNum 2; JNum 3])])].

(** Everything a program can do to the store. *)
Inductive Action `{Platform} : Type :=
| Connect (network : string) (random : Q)
| Await (a : nat)
| Send (r : Request)
| Environment (e : Event).

Definition perform `{Platform} (w : World) (act : Action) : World :=
  match act with
  | Connect network random => (smartNodeSocket network random w).2
  | Await a => await_connection a w
  | Send r => (send r w).2
  | Environment e => step w e
  end.

(** *** What holds of every call in every store a program can reach *)

(** The registrations that belong to call [c]. *)
Definition of_call (c : nat) (l : string * Handler) : Prop := handler_call l.2 = Some c.

#[global] Instance of_call_dec (c : nat) (l : string * Handler) : Decision (of_call c l).
Proof. unfold of_call. apply _. Defined.

#[global] Instance pending_dec (p : Promise) : Decision (p = Pending).
Proof. destruct p; [left; reflexivity | right; discriminate | right; discriminate]. Defined.

(** Call [cl] has its three listeners on socket [sid]: they were registered
    there (from then on [resolve] / [reject] run [cleanup]) and the promise
    has not been settled through them. *)
Definition listening (cl : Call) (sid : nat) : Prop :=
  promise cl = Pending ∧ wrapped cl = true ∧ c_socket cl = Some sid.

#[global] Instance listening_dec (cl : Call) (sid : nat) : Decision (listening cl sid).
Proof. unfold listening. apply _. Defined.

(** The messages of the three input-validation rejections. *)
Definition validation_messages : list string :=
  [ "Invalid senderId provided - must be a valid account ID string";
    "Invalid swap object provided";
    "Invalid signed transaction provided" ].

Definition rejected_by_validation (cl : Call) : Prop :=
  ∃ m, m ∈ validation_messages ∧ promise cl = Rejected (Error m).

(** How often [originalResolve] / [originalReject] have been called, against
    the state of the promise and of the guard. *)
Definition settle_account (cl : Call) : Prop :=
  (promise cl = Pending ∧ settle_calls cl = 0%nat)
  ∨ (promise cl ≠ Pending ∧ settle_calls cl = 1%nat
     ∧ (hasResolved cl = true ∨ rejected_by_validation cl))
  ∨ (rejected_by_validation cl ∧ settle_calls cl = 2%nat ∧ hasResolved cl = true).

(** Call [c] with closure variables [cl] in store [w].  [D] holds of the
    calls whose due timer has just been taken off the queue and whose timeout
    callback has not run yet. *)
Record call_ok (D : nat -> Prop) (w : World) (c : nat) (cl : Call) : Prop := mk_call_ok {
  ok_listeners : ∀ sid s, sockets w !! sid = Some s ->
    filter (of_call c) (listeners s)
    = if decide (listening cl sid) then call_listeners (c_op cl) c else [];
  ok_socket : ∀ sid, c_socket cl = Some sid -> is_Some (sockets w !! sid);
  ok_wrapped : wrapped cl = true -> is_Some (c_socket cl);
  ok_timer : ∀ t, t ∈ timers w -> t_call t = c ->
    ¬ D c ∧ hasResolved cl = false ∧ timeout cl = Some (t_id t);
  ok_armed : hasResolved cl = false ->
    wrapped cl = true ∧ (D c ∨ ∃ t, t ∈ timers w ∧ t_call t = c);
  ok_account : settle_account cl
}.

Record consistent_but (D : nat -> Prop) (w : World) : Prop := mk_consistent {
  timer_ids : NoDup (t_id <$> timers w);
  timer_due : ∀ t, t ∈ timers w -> (now w < t_due t)%N ∧ (t_due t <= now w + 30000)%N;
  socket_ids : ∀ ns o sid, nodeSockets w !! ns = Some o -> socket o = Some sid ->
    is_Some (sockets w !! sid);
  calls_ok : ∀ c cl, calls w !! c = Some cl -> call_ok D w c cl
}.

Definition consistent : World -> Prop := consistent_but (fun _ => False).

(** The calls that own one of the timers in [l]. *)
Definition owners (l : list Timer) (c : nat) : Prop := ∃ t, t ∈ l ∧ t_call t = c.

(** The stores a program can reach. *)
Definition reach `{Platform} (acts : list Action) : World := foldl perform empty_world acts.

(** *** Example programs *)

(** Connect to the first testnet node, answer the challenge, be accepted and
    store the connection. *)
Definition sign_in : list (@Action toy_platform) :=
  [ Connect "testnet" 0%Q;
    Environment (Incoming 0 "connect" JUndefined);
    Environment (Incoming 0 "authentication" challenge);
    Environment (Incoming 0 "authenticate" (JObj [("isValidSignature", JBool true)]));
    Await 0 ].

Definition request_swap : @Action toy_platform := Send (RequestSwap (JStr "0.0.5") swapObj).

Definition execute_swap : @Action toy_platform := Send (ExecuteSwap signedTx).

Definition swap_reply : JsVal := JObj [("status", JStr "success"); ("payload", JStr "tx")].

(** The message of the input validation that rejects request [r], if one
    does: [senderId] is looked at before [swap]. *)
Definition validation_failure (r : Request) : option string :=
  match r with
  | RequestSwap senderId swap =>
      if negb (truthy senderId) || negb (bool_decide (typeof senderId = "string")) then
        Some "Invalid senderId provided - must be a valid account ID string"
      else if negb (truthy swap) || negb (bool_decide (typeof swap = "object")) then
        Some "Invalid swap object provided"
      else None
  | ExecuteSwap signedTransaction =>
      if negb (truthy signedTransaction)
         || negb (bool_decide (typeof (field signedTransaction "toBytes") = "function")) then
        Some "Invalid signed transaction provided"
      else None
  end.

(** The string [errorHandler] puts into its message,
    [`${error.message || error}`]; it throws when [error] is [undefined] or
    [null] and when the value has no string form. *)
Definition error_text (error : JsVal) : Completion string :=
  match get_prop error "message" with
  | Throw exn => Throw exn
  | Normal m => ToString (js_or m error)
  end.

(** Call [cl] once its guard has been set. *)
Definition guarded (cl : Call) : Call :=
  mkCall (c_op cl) (c_socket cl) true (timeout cl) (wrapped cl) (promise cl) (settle_calls cl).

(** Call [cl] waits for an event on socket [sid]: its promise is pending and
    its guard is not set. *)
Definition open_on (sid : nat) (cl : Call) : Prop :=
  hasResolved cl = false ∧ promise cl = Pending ∧ c_socket cl = Some sid.

(** *** A handshake whose socket is set up, whatever its outcome *)

(** Handshake [a] with node [n] has its socket [sid], which carries exactly
    the five listeners; the promise may be settled or not. *)
Definition engaged (a sid ns : nat) (network : string) (n : Node) (w : World) : Prop :=
  (∃ p, auths w !! a = Some (mkAuth network (Some ns) p))
  ∧ (∃ s, sockets w !! sid = Some s ∧ listeners s = handshake_listeners a)
  ∧ (∃ account, nodeSockets w !! ns = Some (mkSmartNodeSocket (Some n) account (Some sid))).

(** *** Substrings *)

(** [s.includes(pat)] *)
Fixpoint occurs (pat s : string) : bool :=
  String.prefix pat s
  || match s with
     | EmptyString => false
     | String _ rest => occurs pat rest
     end.

(** *** The HTTP client *)

(** What [axios.create] is given: [{ baseURL, withCredentials }]. *)
Record AxiosInstance := mkAxiosInstance { baseURL : string; withCredentials : bool }.

(** [smartNodeClient(network)] over a catalog, with the value [random]
    returned by [Math.random()]: [Normal client] when the promise is fulfilled
    with [client], [Throw e] when it is rejected with [e].  The executor has
    no [await], so the promise is settled when [smartNodeClient] returns. *)
Definition smartNodeClientOn (cat : Catalog) (network : string) (random : Q)
  : Completion AxiosInstance :=
  match selectNode cat network random with
  | Throw e => Throw e
  | Normal None => Throw (TypeError "Cannot read properties of undefined (reading 'url')")
  | Normal (Some randomNode) => Normal (mkAxiosInstance (url randomNode) true)
  end.

Definition smartNodeClient : string -> Q -> Completion AxiosInstance :=
  smartNodeClientOn nodes.

(** *** What [init] opens *)

(** [this.init(path)] returns a socket that was not there before, created by
    [io] at [address] with the wallet of [this] in the query; the sockets
    opened earlier are as they were. *)
Definition opens (this : nat) (path : string) (w : World) (address : string) : Prop :=
  ∃ ns, nodeSockets w !! this = Some ns
        ∧ (init this path w).1 = Normal (length (sockets w))
        ∧ sockets (init this path w).2
          = sockets w ++ [mkSocket address (wallet ns) [] [] false]
        ∧ socket <$> nodeSockets (init this path w).2 !! this
          = Some (Some (length (sockets w))).

(** * Properties *)

(** ** Lists used as stores *)

Lemma lookup_snoc {A} (l : list A) (x : A) : (l ++ [x]) !! length l = Some x.
Proof. by apply list_lookup_middle. Qed.

Lemma alter_snoc {A} (f : A -> A) (l : list A) (x : A) :
  alter f (length l) (l ++ [x]) = l ++ [f x].
Proof.
  replace (length l) with (length l + 0)%nat by lia.
  by rewrite alter_app_r.
Qed.

Lemma World_ext (w1 w2 : World) :
  sockets w1 = sockets w2 -> nodeSockets w1 = nodeSockets w2 -> auths w1 = auths w2 ->
  calls w1 = calls w2 -> timers w1 = timers w2 -> now w1 = now w2 ->
  next_timer w1 = next_timer w2 -> socketConnection w1 = socketConnection w2 ->
  uncaught w1 = uncaught w2 -> w1 = w2.
Proof. destruct w1, w2. simpl. by intros -> -> -> -> -> -> -> -> ->. Qed.

(** Reading a field through a stack of updates. *)
Tactic Notation "store" :=
  cbn [sockets nodeSockets auths calls timers now next_timer socketConnection uncaught
       with_sockets with_nodeSockets with_auths with_calls with_timers with_now
       with_next_timer with_socketConnection report_uncaught
       socket_on socket_off socket_emit set_connected
       settle set_hasResolved set_timeout set_c_socket set_wrapped setTimeout
       fst snd].

Tactic Notation "store" "in" hyp(H) :=
  cbn [sockets nodeSockets auths calls timers now next_timer socketConnection uncaught
       with_sockets with_nodeSockets with_auths with_calls with_timers with_now
       with_next_timer with_socketConnection report_uncaught
       socket_on socket_off socket_emit set_connected
       settle set_hasResolved set_timeout set_c_socket set_wrapped setTimeout
       fst snd] in H.

Tactic Notation "fields" :=
  cbn [c_op c_socket hasResolved timeout wrapped promise settle_calls
       s_url s_wallet listeners emitted connected
       node wallet socket a_network a_nodeSocket a_promise t_id t_due t_call
       fst snd].

Tactic Notation "fields" "in" hyp(H) :=
  cbn [c_op c_socket hasResolved timeout wrapped promise settle_calls
       s_url s_wallet listeners emitted connected
       node wallet socket a_network a_nodeSocket a_promise t_id t_due t_call
       fst snd] in H.

(** ** The catalog (C9) *)

(** C9.  The static catalog has exactly the two networks [mainnet] and
    [testnet]; within each network the url of every descriptor is unique,
    while operator identifiers repeat (on mainnet). *)
Theorem catalog_urls_unique_operators_repeat :
  nodes.*1 = ["mainnet"; "testnet"] ∧
  (∀ network l, (network, l) ∈ nodes → NoDup (url <$> l)) ∧
  ¬ NoDup (operator <$> mainnet_nodes).
Proof.
  split; [reflexivity|]. split.
  - intros network l Hin. unfold nodes in Hin.
    apply elem_of_cons in Hin as [Heq|Hin].
    + injection Heq as -> ->. apply (bool_decide_unpack _). vm_compute. exact I.
    + apply list_elem_of_singleton in Hin. injection Hin as -> ->.
      apply (bool_decide_unpack _). vm_compute. exact I.
  - intros Hnd. apply (bool_decide_pack _) in Hnd. vm_compute in Hnd. exact Hnd.
Qed.

(** ** The lazy socket (C10) *)

Lemma getSocket_existing (this sid : nat) (path : string) (w : World) (ns : SmartNodeSocket) :
  nodeSockets w !! this = Some ns -> socket ns = Some sid ->
  getSocket this path w = (Normal sid, w).
Proof. intros Hns Hs. unfold getSocket. by rewrite Hns, Hs. Qed.

(** C10.  On a [SmartNodeSocket] without a socket, [getSocket(p1)] creates the
    socket for path [p1]; every later [getSocket(p2)] returns that same
    socket and changes nothing, whatever [p2] is. *)
Theorem getSocket_lazy_idempotent (this : nat) (n : Node) (wal : JsVal) (p1 : string) (w : World) :
  nodeSockets w !! this = Some (mkSmartNodeSocket (Some n) wal None) ->
  ∃ w1,
    getSocket this p1 w = (Normal (length (sockets w)), w1)
    ∧ sockets w1 =
        sockets w ++
          [mkSocket (replace "http://" "ws://" (replace "https://" "wss://" (url n))
                     +:+ "/" +:+ p1) wal [] [] false]
    ∧ ∀ p2 : string,
        getSocket this p2 w1 = (Normal (length (sockets w)), w1)
        ∧ getSocket this p2 (getSocket this p2 w1).2 = (Normal (length (sockets w)), w1).
Proof.
  intros Hns.
  destruct (getSocket this p1 w) as [r w1] eqn:Hg.
  unfold getSocket, init in Hg. rewrite Hns in Hg. simpl in Hg.
  injection Hg as <- <-.
  eexists; split; [reflexivity|]. split; [reflexivity|].
  intros p2.
  match goal with
  | |- getSocket _ _ ?W = _ ∧ _ =>
      assert (getSocket this p2 W = (Normal (length (sockets w)), W)) as Hagain
  end.
  { eapply getSocket_existing.
    - simpl. rewrite list_lookup_alter_eq, Hns. reflexivity.
    - reflexivity. }
  split; [exact Hagain|]. rewrite Hagain. exact Hagain.
Qed.

Lemma getSocket_lazy_idempotent_witness :
  let w := (new_SmartNodeSocket (Some testnet_sn1) (JStr "0.0.2002") empty_world).2 in
  (getSocket 0 "gateway" w).1 = Normal 0%nat
  ∧ (getSocket 0 "elsewhere" (getSocket 0 "gateway" w).2).1 = Normal 0%nat
  ∧ (getSocket 0 "elsewhere" (getSocket 0 "gateway" w).2).2 = (getSocket 0 "gateway" w).2.
Proof.
  intros w.
  destruct (getSocket_lazy_idempotent 0 testnet_sn1 (JStr "0.0.2002") "gateway" w)
    as (w1 & Hfirst & _ & Hlater).
  - reflexivity.
  - rewrite Hfirst. destruct (Hlater "elsewhere") as [Hagain _].
    cbn [fst snd]. rewrite Hagain. repeat split.
Defined.

(** ** Node selection (C8) *)

Lemma Qfloor_iff (x : Q) (i : Z) :
  Qfloor x = i ↔ (inject_Z i <= x)%Q ∧ (x < inject_Z (i + 1))%Q.
Proof.
  split.
  - intros <-. split; [apply Qfloor_le | apply Qlt_floor].
  - intros [Hlo Hhi].
    pose proof (Qfloor_le x) as H1. pose proof (Qlt_floor x) as H2.
    assert (inject_Z i < inject_Z (Qfloor x + 1))%Q as H3 by (eapply Qle_lt_trans; eauto).
    assert (inject_Z (Qfloor x) < inject_Z (i + 1))%Q as H4 by (eapply Qle_lt_trans; eauto).
    rewrite <- Zlt_Qlt in H3, H4. lia.
Qed.

Lemma Qdiv_le_iff (a b c : Q) : (0 < b)%Q -> (a / b <= c)%Q ↔ (a <= c * b)%Q.
Proof.
  intros Hb. split; [|by apply Qle_shift_div_r].
  intros Hle. apply (Qmult_le_r _ _ b Hb) in Hle.
  assert (a / b * b == a)%Q as Heq.
  { unfold Qdiv. rewrite <- Qmult_assoc, (Qmult_comm (/ b)), Qmult_inv_r, Qmult_1_r.
    - reflexivity.
    - intros Hz. rewrite Hz in Hb. by apply Qlt_irrefl in Hb. }
  by rewrite Heq in Hle.
Qed.

Lemma Qlt_div_iff (a b c : Q) : (0 < b)%Q -> (c < a / b)%Q ↔ (c * b < a)%Q.
Proof.
  intros Hb. split; [|by apply Qlt_shift_div_l].
  intros Hlt. apply (Qmult_lt_r _ _ b Hb) in Hlt.
  assert (a / b * b == a)%Q as Heq.
  { unfold Qdiv. rewrite <- Qmult_assoc, (Qmult_comm (/ b)), Qmult_inv_r, Qmult_1_r.
    - reflexivity.
    - intros Hz. rewrite Hz in Hb. by apply Qlt_irrefl in Hb. }
  by rewrite Heq in Hlt.
Qed.

Lemma random_index_slice (random : Q) (len i : nat) :
  (0 < len)%nat ->
  random_index random len = Z.of_nat i ↔ slice len i random.
Proof.
  intros Hlen. unfold random_index, slice.
  assert (0 < inject_Z (Z.of_nat len))%Q as Hpos.
  { change 0%Q with (inject_Z 0). rewrite <- Zlt_Qlt. lia. }
  rewrite Qfloor_iff, Qdiv_le_iff, Qlt_div_iff by done. reflexivity.
Qed.

Lemma random_index_range (random : Q) (len : nat) :
  (0 < len)%nat -> (0 <= random)%Q -> (random < 1)%Q ->
  0 <= random_index random len < Z.of_nat len.
Proof.
  intros Hlen Hlo Hhi. unfold random_index.
  assert (0 < inject_Z (Z.of_nat len))%Q as Hpos.
  { change 0%Q with (inject_Z 0). rewrite <- Zlt_Qlt. lia. }
  split.
  - change 0 with (Qfloor (inject_Z 0)) at 1. apply Qfloor_resp_le.
    change (inject_Z 0) with 0%Q. apply Qmult_le_0_compat; [done|by apply Qlt_le_weak].
  - pose proof (Qfloor_le (random * inject_Z (Z.of_nat len))) as Hfl.
    assert (random * inject_Z (Z.of_nat len) < inject_Z (Z.of_nat len))%Q as Hlt.
    { rewrite <- (Qmult_1_l (inject_Z (Z.of_nat len))) at 2.
      by apply Qmult_lt_r. }
    rewrite Zlt_Qlt. eapply Qle_lt_trans; eauto.
Qed.

Lemma selectNode_own (cat : Catalog) (network : string) (random : Q) (l : list Node) :
  own_entry cat network = Some l ->
  selectNode cat network random = Normal (l !! Z.to_nat (random_index random (length l))).
Proof. intros Hown. unfold selectNode, catalog_get. by rewrite Hown. Qed.

Lemma smartNodeSocketOn_rejects `{Platform} (cat : Catalog) (network : string) (random : Q)
      (w : World) (e : JsVal) :
  selectNode cat network random = Throw e
  ∨ (selectNode cat network random = Normal None
     ∧ e = TypeError "Cannot read properties of undefined (reading 'url')") ->
  let w' := (smartNodeSocketOn cat network random w).2 in
  auths w' !! length (auths w) = Some (mkAuth network None (AuthRejected e))
  ∧ sockets w' = sockets w ∧ nodeSockets w' = nodeSockets w.
Proof.
  intros [Hsel|[Hsel ->]]; unfold smartNodeSocketOn; rewrite Hsel; simpl;
    rewrite alter_snoc, lookup_snoc; done.
Qed.

(** C8, as the code has it.  For [0 <= random < 1]: on a network of the
    catalog whose list of candidates has a power of two as its length (8 and
    4 in the repository, so that [random * length] is exact) the selection
    yields the candidate whose index is the only one whose slice
    [[i/len, (i+1)/len)] contains [random] (slices of equal width, so a
    uniform [random] gives a uniform choice, and always a member of that
    network's list).  There is no error of its own for a failed selection:
    the promise of [smartNodeSocket] is rejected with the engine's
    [TypeError] of the property read that failed, reading ['length'] for a key
    the catalog does not have, reading ['url'] for a key it inherits from
    [Object.prototype] and for a network with an empty list alike; no socket
    is created. *)
Theorem endpoint_selection `{Platform} (cat : Catalog) (network : string) (random : Q)
        (w : World) :
  (0 <= random)%Q -> (random < 1)%Q ->
  let a := length (auths w) in
  let w' := (smartNodeSocketOn cat network random w).2 in
  let rejected (property : string) :=
    a_promise <$> auths w' !! a
    = Some (AuthRejected
              (TypeError ("Cannot read properties of undefined (reading '"
                          +:+ property +:+ "')")))
    ∧ sockets w' = sockets w in
  match own_entry cat network with
  | Some (n0 :: rest) =>
      let l := n0 :: rest in
      (∃ k : nat, length l = (2 ^ k)%nat) ->
      ∃ (i : nat) (n : Node),
        l !! i = Some n
        ∧ selectNode cat network random = Normal (Some n)
        ∧ ∀ j : nat, slice (length l) j random ↔ j = i
  | Some [] => selectNode cat network random = Normal None ∧ rejected "url"
  | None =>
      if bool_decide (network ∈ Object_prototype_keys) then rejected "url"
      else rejected "length"
  end.
Proof.
  intros Hlo Hhi a w' rejected.
  destruct (own_entry cat network) as [[|n0 rest]|] eqn:Hown.
  - assert (selectNode cat network random = Normal None) as Hsel.
    { rewrite (selectNode_own _ _ _ _ Hown). reflexivity. }
    split; [exact Hsel|].
    destruct (smartNodeSocketOn_rejects cat network random w _ (or_intror (conj Hsel eq_refl)))
      as (Ha & Hs & _).
    subst rejected a w'. cbv beta. rewrite Ha. done.
  - intros l _.
    pose proof (random_index_range random (length l) ltac:(simpl; lia) Hlo Hhi) as Hrange.
    destruct (lookup_lt_is_Some_2 l (Z.to_nat (random_index random (length l)))
                ltac:(lia)) as [n Hn].
    exists (Z.to_nat (random_index random (length l))), n.
    split; [exact Hn|]. split.
    + rewrite (selectNode_own _ _ _ _ Hown). fold l. by rewrite Hn.
    + intros j. rewrite <- random_index_slice by (simpl; lia). lia.
  - destruct (bool_decide (network ∈ Object_prototype_keys)) eqn:Hinh.
    + destruct (smartNodeSocketOn_rejects cat network random w
                  (TypeError "Cannot read properties of undefined (reading 'url')"))
        as (Ha & Hs & _).
      { right. unfold selectNode, catalog_get. by rewrite Hown, Hinh. }
      subst rejected a w'. cbv beta. rewrite Ha. done.
    + destruct (smartNodeSocketOn_rejects cat network random w
                  (TypeError "Cannot read properties of undefined (reading 'length')"))
        as (Ha & Hs & _).
      { left. unfold selectNode, catalog_get. by rewrite Hown, Hinh. }
      subst rejected a w'. cbv beta. rewrite Ha. done.
Qed.

Lemma endpoint_selection_witness :
  ∃ n : Node,
    selectNode nodes "testnet" (1 # 2) = Normal (Some n) ∧ n ∈ testnet_nodes.
Proof.
  destruct (@endpoint_selection toy_platform nodes "testnet" (1 # 2) empty_world)
    as (i & n & Hi & Hsel & _).
  - vm_compute. discriminate.
  - vm_compute. reflexivity.
  - by exists 2%nat.
  - exists n. split; [exact Hsel|]. eapply list_elem_of_lookup_2. exact Hi.
Defined.

(** C8, counterexample.  The two failures the claim tells apart are not told
    apart: the unknown network ['constructor'] and a network whose list is
    empty reject with one and the same [TypeError], and a network the
    catalog lacks altogether rejects with the [TypeError] of reading
    ['length']; neither is an error naming the network or the registry. *)
Lemma selection_failures_are_engine_errors :
  let unknown := (@smartNodeSocket toy_platform "constructor" 0%Q empty_world).2 in
  let empty := (@smartNodeSocketOn toy_platform [("testnet", [])] "testnet" 0%Q empty_world).2 in
  let missing := (@smartNodeSocket toy_platform "staging" 0%Q empty_world).2 in
  a_promise <$> auths unknown !! 0%nat
  = Some (AuthRejected (JError "TypeError"
                          "Cannot read properties of undefined (reading 'url')" []))
  ∧ a_promise <$> auths empty !! 0%nat = a_promise <$> auths unknown !! 0%nat
  ∧ a_promise <$> auths missing !! 0%nat
    = Some (AuthRejected (JError "TypeError"
                            "Cannot read properties of undefined (reading 'length')" [])).
Proof. vm_compute. repeat split. Qed.

(** ** What the primitives leave alone *)

Lemma calls_cleanup (c : nat) (w : World) : calls (cleanup c w) = calls w.
Proof. unfold cleanup. destruct (calls w !! c) as [cl|]; [|done]. by destruct (c_socket cl). Qed.

Lemma calls_clearTimeout (h : option nat) (w : World) : calls (clearTimeout h w) = calls w.
Proof. by destruct h. Qed.

Lemma call_settle_lookup (c : nat) (outcome : Promise) (w : World) (cl : Call) :
  calls w !! c = Some cl ->
  calls (call_settle c outcome w) !! c
  = Some (mkCall (c_op cl) (c_socket cl) (hasResolved cl) (timeout cl) (wrapped cl)
                 (match promise cl with Pending => outcome | p => p end)
                 (S (settle_calls cl))).
Proof.
  intros Hc. unfold call_settle. rewrite Hc. unfold settle. simpl.
  rewrite list_lookup_alter_eq.
  assert (calls (if wrapped cl then cleanup c w else w) = calls w) as ->
    by (destruct (wrapped cl); [apply calls_cleanup|done]).
  rewrite Hc. reflexivity.
Qed.

Lemma ToString_str (s : string) : ToString (JStr s) = Normal s.
Proof. reflexivity. Qed.

Lemma on_response_lookup (c : nat) (response : JsVal) (w : World) (cl : Call)
      (outcome : Promise) :
  calls w !! c = Some cl -> hasResolved cl = false ->
  response_outcome (c_op cl) response = Normal outcome ->
  (on_response c response w).2 = None
  ∧ calls (on_response c response w).1 !! c
    = Some (mkCall (c_op cl) (c_socket cl) true (timeout cl) (wrapped cl)
                   (match promise cl with Pending => outcome | p => p end)
                   (S (settle_calls cl))).
Proof.
  intros Hc Hres Hout. unfold on_response. rewrite Hc, Hres, Hout.
  split; [reflexivity|]. cbn [fst].
  assert (calls (clearTimeout (timeout cl) (set_hasResolved c w)) !! c
          = Some (mkCall (c_op cl) (c_socket cl) true (timeout cl) (wrapped cl)
                         (promise cl) (settle_calls cl))) as Hc'.
  { rewrite calls_clearTimeout. unfold set_hasResolved. simpl.
    rewrite list_lookup_alter_eq, Hc. reflexivity. }
  rewrite (call_settle_lookup _ _ _ _ Hc'). reflexivity.
Qed.

(** ** Classification of responses (C4) *)

(** C4, as the code has it.  For a response delivered to a call that has not
    settled: a value that is not an object rejects with the invalid-format
    error; a response whose status is ['success'] fulfils
    [swapTransactionRequest] with its payload when that is truthy and rejects
    it with the missing-payload error otherwise, and fulfils
    [swapTransactionExecute] with the whole response, payload or not; any
    other response rejects with an error whose message is
    the string form of [error || message || default] and whose code is
    [errorCode || code || default], carrying the response; when that value
    has no string form, [new Error] throws into the [catch], which rejects
    with ['Error parsing server response: '] and the message of what was
    thrown, without code or response. *)
Theorem response_classification (c : nat) (cl : Call) (response : JsVal) (w : World) :
  calls w !! c = Some cl -> hasResolved cl = false -> promise cl = Pending ->
  let outcome := promise <$> calls (on_response c response w).1 !! c in
  (truthy response = false ∨ typeof response ≠ "object" ->
   outcome = Some (Rejected (Error "Invalid response format received from server")))
  ∧ (truthy response = true -> typeof response = "object" ->
     field response "status" = JStr "success" ->
     match c_op cl with
     | SwapRequest =>
         if truthy (field response "payload")
         then outcome = Some (Fulfilled (field response "payload"))
         else outcome = Some (Rejected (Error "Server response missing transaction payload"))
     | SwapExecute => outcome = Some (Fulfilled response)
     end)
  ∧ (truthy response = true -> typeof response = "object" ->
     is_str "success" (field response "status") = false ->
     let errorMessage :=
       js_or (field response "error")
         (js_or (field response "message")
            (JStr ("Unknown error occurred during " +:+ op_what (c_op cl)))) in
     let errorCode :=
       js_or (field response "errorCode")
         (js_or (field response "code") (JStr (default_code (c_op cl)))) in
     match ToString errorMessage with
     | Normal text =>
         outcome = Some (Rejected (JError "Error" text
                                     [("code", errorCode); ("response", response)]))
     | Throw parseError =>
         ∀ m text, get_prop parseError "message" = Normal m -> ToString m = Normal text ->
           outcome = Some (Rejected (Error ("Error parsing server response: " +:+ text)))
     end).
Proof.
  intros Hc Hres Hpend outcome.
  assert (∀ p, response_outcome (c_op cl) response = Normal p -> outcome = Some p) as Hout.
  { intros p Hp. subst outcome.
    destruct (on_response_lookup _ _ _ _ _ Hc Hres Hp) as [_ ->]. by rewrite Hpend. }
  clearbody outcome. unfold response_outcome in Hout. repeat split.
  - intros Hbad. apply Hout. destruct Hbad as [Hf|Hty]; [by rewrite Hf|].
    rewrite (bool_decide_eq_false_2 _ Hty). by rewrite orb_true_r.
  - intros Ht Hty Hok. rewrite Ht, (bool_decide_eq_true_2 _ Hty), Hok in Hout.
    cbn [negb orb is_str] in Hout. rewrite bool_decide_eq_true_2 in Hout by done.
    destruct (c_op cl); [|by apply Hout].
    destruct (truthy (field response "payload")); by apply Hout.
  - intros Ht Hty Hko errorMessage errorCode.
    rewrite Ht, (bool_decide_eq_true_2 _ Hty), Hko in Hout. cbn [negb orb] in Hout.
    fold errorMessage errorCode in Hout.
    destruct (ToString errorMessage) as [text|parseError]; [by apply Hout|].
    intros m text Hm Htext. apply Hout. unfold parse_failure. by rewrite Hm, Htext.
Qed.

(** ** The synchronous part of a correlated call *)

Lemma gateway_Some (w : World) (sid : nat) :
  gateway w = Some sid ->
  ∃ conn ns, socketConnection w = Some conn
             ∧ nodeSockets w !! c_nodeSocket conn = Some ns ∧ socket ns = Some sid.
Proof.
  unfold gateway. destruct (socketConnection w) as [conn|]; [simpl|done].
  destruct (nodeSockets w !! c_nodeSocket conn) as [ns|] eqn:Hns; [simpl|done].
  intros Hs. by exists conn, ns.
Qed.

Lemma arm_gateway (o : Op) (w : World) (sid : nat) :
  gateway w = Some sid ->
  arm o (length (calls w)) (open_call o w).2
  = (Normal sid, armed_world o sid w).
Proof.
  intros (conn & ns & Hconn & Hns & Hs)%gateway_Some.
  unfold arm, open_call. store. rewrite Hconn.
  erewrite getSocket_existing by (store; eauto).
  store. f_equal. unfold armed_world. apply World_ext; store; try reflexivity.
  - rewrite !list_alter_alter_eq. apply list_alter_ext; [|done].
    intros s _. unfold compose. fields. unfold call_listeners. by rewrite <- !app_assoc.
  - rewrite !alter_snoc. fields. reflexivity.
Qed.

Lemma arm_no_connection (o : Op) (c : nat) (w : World) :
  socketConnection w = None ->
  arm o c w = (Throw (TypeError "Cannot read properties of null (reading 'socket')"), w).
Proof. intros Hnone. unfold arm. by rewrite Hnone. Qed.

Lemma send_id (r : Request) (w : World) : (send r w).1 = length (calls w).
Proof. by destruct r. Qed.

(** ** No stored connection (C2) *)

(** C2, as the code has it.  When no connection has been stored (which is the
    case until a handshake has succeeded) a correlated call rejects at once
    with the [INITIALIZATION_ERROR] error; it registers no listener, arms no
    timer and sends nothing.  The code does not look at the state of a stored
    connection. *)
Theorem send_without_connection (r : Request) (w : World) :
  socketConnection w = None ->
  let c := (send r w).1 in
  let w' := (send r w).2 in
  promise <$> calls w' !! c
  = Some (Rejected
            (JError "Error"
               ("Failed to initiate " +:+ op_what (request_op r)
                +:+ ": Cannot read properties of null (reading 'socket')")
               [("code", JStr "INITIALIZATION_ERROR");
                ("originalError",
                 TypeError "Cannot read properties of null (reading 'socket')")]))
  ∧ sockets w' = sockets w ∧ timers w' = timers w.
Proof.
  intros Hnone c w'. subst c w'. rewrite send_id.
  destruct r; simpl; unfold swapTransactionRequest, swapTransactionExecute;
    simpl; rewrite arm_no_connection by done;
    unfold catch_init; simpl; rewrite lookup_snoc; simpl;
    unfold reject; simpl;
    (erewrite call_settle_lookup
       by (unfold set_hasResolved; simpl; rewrite alter_snoc; apply lookup_snoc));
    (split; [reflexivity|]);
    unfold call_settle; simpl; rewrite alter_snoc, lookup_snoc; simpl; done.
Qed.

Lemma send_without_connection_witness :
  socketConnection handshake_world = None
  ∧ sockets (send (RequestSwap (JStr "0.0.5") swapObj) handshake_world).2
    = sockets handshake_world.
Proof.
  split; [reflexivity|].
  exact (proj1 (proj2 (send_without_connection (RequestSwap (JStr "0.0.5") swapObj)
                         handshake_world eq_refl))).
Defined.

(** C2, counterexample.  After the transport has dropped, the stored
    connection is no longer authenticated, yet [swapTransactionRequest] does
    not fail: the promise is pending, the timer and the three listeners are in
    place and the request has been handed to the socket. *)
Lemma send_on_closed_connection_proceeds :
  authenticated closed_world = false
  ∧ let w' := (send (RequestSwap (JStr "0.0.5") swapObj) closed_world).2 in
    promise <$> calls w' !! 0%nat = Some Pending
    ∧ timers w' = [mkTimer 0 30000 0]
    ∧ (drop 5 ∘ listeners) <$> sockets w' !! 0%nat = Some (call_listeners SwapRequest 0)
    ∧ (last ∘ emitted) <$> sockets w' !! 0%nat
      = Some (Some ("swapPoolRequest", wire_payload (RequestSwap (JStr "0.0.5") swapObj))).
Proof. vm_compute. repeat split. Qed.

(** ** A valid call on a stored connection (C3) *)

Lemma send_valid (r : Request) (w : World) (sid : nat) :
  gateway w = Some sid -> valid_request r ->
  (send r w).2
  = socket_emit sid (op_event (request_op r)) (wire_payload r)
      (armed_world (request_op r) sid w).
Proof.
  intros Hgw Hvalid. destruct r as [senderId swap|tx]; simpl in *.
  - destruct Hvalid as (Hs1 & Hs2 & Hw1 & Hw2).
    unfold swapTransactionRequest. simpl.
    pose proof (arm_gateway SwapRequest w sid Hgw) as Harm. simpl in Harm. rewrite Harm.
    rewrite Hs1, Hw1, (bool_decide_eq_true_2 _ Hs2), (bool_decide_eq_true_2 _ Hw2).
    reflexivity.
  - destruct Hvalid as (Ht & src & bytes & Hfun).
    unfold swapTransactionExecute. simpl.
    pose proof (arm_gateway SwapExecute w sid Hgw) as Harm. simpl in Harm. rewrite Harm.
    rewrite Ht, Hfun. reflexivity.
Qed.

(** C3, as the code has it.  A valid call on a stored connection is never
    refused, also when an operation of the same name is still outstanding on
    that socket: the earlier call stays pending with its listener in place,
    and the new call is pending too, has added its own three listeners and
    timer, and has sent a further request on the wire. *)
Theorem send_while_in_flight (r : Request) (w : World) (sid c0 : nat) (s : Socket) (cl0 : Call) :
  gateway w = Some sid -> sockets w !! sid = Some s -> valid_request r ->
  calls w !! c0 = Some cl0 -> c_op cl0 = request_op r -> promise cl0 = Pending ->
  (op_event (request_op r), responseHandler c0) ∈ listeners s ->
  let c := (send r w).1 in
  let w' := (send r w).2 in
  calls w' !! c0 = Some cl0
  ∧ calls w' !! c
    = Some (mkCall (request_op r) (Some sid) false (Some (next_timer w)) true Pending 0)
  ∧ sockets w' !! sid
    = Some (mkSocket (s_url s) (s_wallet s)
              (listeners s ++ call_listeners (request_op r) c)
              (emitted s ++ [(op_event (request_op r), wire_payload r)])
              (connected s))
  ∧ timers w' = timers w ++ [mkTimer (next_timer w) (now w + 30000) c].
Proof.
  intros Hgw Hs Hvalid Hc0 _ _ _ c w'. subst c w'.
  rewrite send_id, (send_valid r w sid Hgw Hvalid).
  unfold socket_emit, armed_world. simpl. repeat split.
  - by apply lookup_app_l_Some.
  - apply lookup_snoc.
  - rewrite !list_lookup_alter_eq, Hs. reflexivity.
Qed.

Lemma send_while_in_flight_witness :
  let r := RequestSwap (JStr "0.0.5") swapObj in
  let w1 := (send r authenticated_world).2 in
  promise <$> calls (send r w1).2 !! 0%nat = Some Pending
  ∧ promise <$> calls (send r w1).2 !! 1%nat = Some Pending.
Proof.
  intros r w1.
  destruct (send_while_in_flight r w1 0 0
              (default (mkSocket "" JUndefined [] [] false) (sockets w1 !! 0%nat))
              (mkCall SwapRequest (Some 0%nat) false (Some 0%nat) true Pending 0))
    as (H0 & H1 & _).
  - vm_compute. reflexivity.
  - vm_compute. reflexivity.
  - vm_compute. repeat split.
  - vm_compute. reflexivity.
  - reflexivity.
  - reflexivity.
  - apply (bool_decide_unpack _). vm_compute. exact I.
  - rewrite H0. split; [reflexivity|].
    replace ((send r w1).1) with 1%nat in H1 by (vm_compute; reflexivity).
    rewrite H1. reflexivity.
Defined.

(** C3, counterexample.  With one [swapPoolRequest] outstanding, a second
    [swapTransactionRequest] is not refused: both calls are pending and two
    requests have gone out; one response then settles both calls. *)
Lemma second_request_goes_out :
  let r := RequestSwap (JStr "0.0.5") swapObj in
  let w1 := (send r authenticated_world).2 in
  let w2 := (send r w1).2 in
  let reply := JObj [("status", JStr "success"); ("payload", JStr "tx")] in
  promise <$> calls w1 !! 0%nat = Some Pending
  ∧ promise <$> calls w2 !! 0%nat = Some Pending
  ∧ promise <$> calls w2 !! 1%nat = Some Pending
  ∧ (filter (fun m => m.1 = "swapPoolRequest") ∘ emitted) <$> sockets w2 !! 0%nat
    = Some [("swapPoolRequest", wire_payload r); ("swapPoolRequest", wire_payload r)]
  ∧ promise <$> calls (@step toy_platform w2 (Incoming 0 "swapPoolRequest" reply))
    = [Fulfilled (JStr "tx"); Fulfilled (JStr "tx")].
Proof. vm_compute. repeat split. Qed.

Lemma response_classification_witness :
  let w := (send (ExecuteSwap signedTx) authenticated_world).2 in
  let reply := JObj [("status", JStr "success"); ("payload", JStr "receipt")] in
  let refusal := JObj [("status", JStr "error"); ("error", JNum (10 ^ 21))] in
  let garbled := JObj [("status", JStr "error"); ("error", JObj [("toString", JNum 1)])] in
  promise <$> calls (on_response 0 reply w).1 !! 0%nat = Some (Fulfilled reply)
  ∧ promise <$> calls (on_response 0 refusal w).1 !! 0%nat
    = Some (Rejected (JError "Error" "1e+21"
                        [("code", JStr "SWAP_EXECUTION_ERROR"); ("response", refusal)]))
  ∧ promise <$> calls (on_response 0 garbled w).1 !! 0%nat
    = Some (Rejected (Error "Error parsing server response: Cannot convert object to primitive value")).
Proof.
  intros w reply refusal garbled.
  pose proof (fun response =>
                response_classification 0
                  (mkCall SwapExecute (Some 0%nat) false (Some 0%nat) true Pending 0)
                  response w eq_refl eq_refl eq_refl) as Hthm.
  cbv zeta in Hthm. split; [|split].
  - destruct (Hthm reply) as (_ & Hok & _). by apply Hok.
  - destruct (Hthm refusal) as (_ & _ & Hko). by apply Hko.
  - destruct (Hthm garbled) as (_ & _ & Hko).
    apply (Hko eq_refl eq_refl eq_refl (JStr "Cannot convert object to primitive value"));
      reflexivity.
Defined.

(** C4, counterexample.  A successful reply to [swapTransactionExecute]
    resolves with the whole response, not with its payload, and a successful
    reply without any payload resolves as well. *)
Lemma execute_resolves_with_whole_response :
  let w := (send (ExecuteSwap signedTx) authenticated_world).2 in
  let reply := JObj [("status", JStr "success"); ("payload", JStr "receipt")] in
  let bare := JObj [("status", JStr "success")] in
  promise <$> calls (@step toy_platform w (Incoming 0 "swapPoolExecute" reply)) !! 0%nat
  = Some (Fulfilled reply)
  ∧ Fulfilled reply ≠ Fulfilled (field reply "payload")
  ∧ promise <$> calls (@step toy_platform w (Incoming 0 "swapPoolExecute" bare)) !! 0%nat
    = Some (Fulfilled bare).
Proof. vm_compute. repeat split. discriminate. Qed.

(** ** Footprints *)

Lemma call_step_refl (cl : Call) : call_step cl cl.
Proof. by repeat split. Qed.

Lemma call_step_trans (cl1 cl2 cl3 : Call) :
  call_step cl1 cl2 -> call_step cl2 cl3 -> call_step cl1 cl3.
Proof.
  intros (?&?&?&?&Hp1&Hr1) (?&?&?&?&Hp2&Hr2). repeat split; try congruence.
  - intros Hne. rewrite Hp2; [by apply Hp1|]. by rewrite Hp1.
  - intros Hres. by apply Hr2, Hr1.
Qed.

Lemma auth_step_refl (au : Auth) : auth_step au au.
Proof. by repeat split. Qed.

Lemma auth_step_trans (au1 au2 au3 : Auth) :
  auth_step au1 au2 -> auth_step au2 au3 -> auth_step au1 au3.
Proof.
  intros (?&?&Hp1) (?&?&Hp2). repeat split; try congruence.
  intros Hne. rewrite Hp2; [by apply Hp1|]. by rewrite Hp1.
Qed.

Lemma calls_rel_refl (C : nat -> Prop) (l : list Call) : calls_rel C l l.
Proof. intros c. destruct (l !! c) as [cl|]; [|done]. exists cl. eauto using call_step_refl. Qed.

Lemma calls_rel_trans (C : nat -> Prop) (l1 l2 l3 : list Call) :
  calls_rel C l1 l2 -> calls_rel C l2 l3 -> calls_rel C l1 l3.
Proof.
  intros H12 H23 c. specialize (H12 c). specialize (H23 c).
  destruct (l1 !! c) as [cl1|].
  - destruct H12 as (cl2 & Hl2 & Hs12 & Hf12). rewrite Hl2 in H23.
    destruct H23 as (cl3 & Hl3 & Hs23 & Hf23). exists cl3.
    split; [done|]. split; [by eapply call_step_trans|].
    intros HC. rewrite Hf23, Hf12; done.
  - by rewrite H12 in H23.
Qed.

Lemma calls_rel_alter (C : nat -> Prop) (G : Call -> Call) (c0 : nat) (l : list Call) :
  C c0 -> (∀ cl, call_step cl (G cl)) -> calls_rel C l (alter G c0 l).
Proof.
  intros HC HG c. rewrite list_lookup_alter.
  destruct (l !! c) as [cl|] eqn:Hl; case_decide; subst; simpl; rewrite ?Hl; simpl; eauto.
  - eexists. split; [done|]. split; [apply HG|]. done.
  - eexists. split; [done|]. split; [apply call_step_refl|]. done.
Qed.

Lemma calls_rel_weaken (C C' : nat -> Prop) (l l' : list Call) :
  (∀ c, C c -> C' c) -> calls_rel C l l' -> calls_rel C' l l'.
Proof.
  intros Hsub Hrel c. specialize (Hrel c). destruct (l !! c); [|done].
  destruct Hrel as (cl' & ? & ? & Hf). exists cl'. split; [done|]. split; [done|].
  intros HC'. apply Hf. intros HC. by apply HC', Hsub.
Qed.

Lemma auths_rel_refl (A : nat -> Prop) (l : list Auth) : auths_rel A l l.
Proof. intros a. destruct (l !! a) as [au|]; [|done]. exists au. eauto using auth_step_refl. Qed.

Lemma auths_rel_trans (A : nat -> Prop) (l1 l2 l3 : list Auth) :
  auths_rel A l1 l2 -> auths_rel A l2 l3 -> auths_rel A l1 l3.
Proof.
  intros H12 H23 a. specialize (H12 a). specialize (H23 a).
  destruct (l1 !! a) as [au1|].
  - destruct H12 as (au2 & Hl2 & Hs12 & Hf12). rewrite Hl2 in H23.
    destruct H23 as (au3 & Hl3 & Hs23 & Hf23). exists au3.
    split; [done|]. split; [by eapply auth_step_trans|].
    intros HA. rewrite Hf23, Hf12; done.
  - by rewrite H12 in H23.
Qed.

Lemma auths_rel_alter (A : nat -> Prop) (G : Auth -> Auth) (a0 : nat) (l : list Auth) :
  A a0 -> (∀ au, auth_step au (G au)) -> auths_rel A l (alter G a0 l).
Proof.
  intros HA HG a. rewrite list_lookup_alter.
  destruct (l !! a) as [au|] eqn:Hl; case_decide; subst; simpl; rewrite ?Hl; simpl; eauto.
  - eexists. split; [done|]. split; [apply HG|]. done.
  - eexists. split; [done|]. split; [apply auth_step_refl|]. done.
Qed.

Lemma auths_rel_weaken (A A' : nat -> Prop) (l l' : list Auth) :
  (∀ a, A a -> A' a) -> auths_rel A l l' -> auths_rel A' l l'.
Proof.
  intros Hsub Hrel a. specialize (Hrel a). destruct (l !! a); [|done].
  destruct Hrel as (au' & ? & ? & Hf). exists au'. split; [done|]. split; [done|].
  intros HA'. apply Hf. intros HA. by apply HA', Hsub.
Qed.

Lemma handshake_listeners_kept_refl (w : World) : handshake_listeners_kept w w.
Proof. intros sid s Hs. eauto. Qed.

Lemma listeners_shrink_refl (w : World) : listeners_shrink w w.
Proof. intros sid s' x Hs Hx. eauto. Qed.

Lemma listeners_shrink_same (w w' : World) :
  sockets w' = sockets w -> listeners_shrink w w'.
Proof. intros Heq sid s' x Hs Hx. rewrite Heq in Hs. eauto. Qed.

Lemma handshake_listeners_kept_same (w w' : World) :
  sockets w' = sockets w -> handshake_listeners_kept w w'.
Proof. intros Heq sid s Hs. rewrite Heq. eauto. Qed.

Lemma timers_kept_same (C : nat -> Prop) (w w' : World) :
  timers w' = timers w -> timers_kept C w w'.
Proof. intros Heq t Ht _. by rewrite Heq. Qed.

(** Code that leaves calls, handshakes, timers and the clock alone. *)
Lemma effect_frame (C A : nat -> Prop) (w w' : World) :
  calls w' = calls w -> auths w' = auths w -> timers w' = timers w ->
  now w' = now w -> next_timer w' = next_timer w ->
  listeners_shrink w w' -> handshake_listeners_kept w w' ->
  (∀ ns o, nodeSockets w !! ns = Some o -> socket o ≠ None -> nodeSockets w' !! ns = Some o) ->
  effect C A w w'.
Proof.
  intros Hc Ha Ht Hn Hx Hl Hh Hg.
  split; [rewrite Hc; apply calls_rel_refl|].
  split; [rewrite Ha; apply auths_rel_refl|].
  split; [done|]. split; [by rewrite Ht|].
  split; [by apply timers_kept_same|]. done.
Qed.

Lemma effect_refl (C A : nat -> Prop) (w : World) : effect C A w w.
Proof.
  apply effect_frame;
    auto using listeners_shrink_refl, handshake_listeners_kept_refl.
Qed.

Lemma effect_trans (C A : nat -> Prop) (w1 w2 w3 : World) :
  effect C A w1 w2 -> effect C A w2 w3 -> effect C A w1 w3.
Proof.
  intros (Hc1 & Ha1 & Hl1 & Ht1 & Hk1 & Hn1 & Hx1 & Hh1 & Hg1)
         (Hc2 & Ha2 & Hl2 & Ht2 & Hk2 & Hn2 & Hx2 & Hh2 & Hg2).
  split; [by eapply calls_rel_trans|]. split; [by eapply auths_rel_trans|].
  split; [|split; [|split; [|split; [|split; [|split]]]]].
  - intros sid s3 x Hs3 Hx. destruct (Hl2 sid s3 x Hs3 Hx) as (s2 & Hs2 & Hx2'). eauto.
  - auto.
  - intros t Ht Hfree. apply Hk2; [by apply Hk1|].
    intros c cl2 HC Hcl2. specialize (Hc1 c).
    destruct (calls w1 !! c) as [cl1|] eqn:Hcl1; [|congruence].
    destruct Hc1 as (cl2' & Hcl2' & (_ & _ & Hto & _) & _).
    assert (cl2' = cl2) as -> by congruence. rewrite Hto. by eapply Hfree.
  - congruence.
  - congruence.
  - intros sid s1 Hs1. destruct (Hh1 sid s1 Hs1) as (s2 & Hs2 & Heq2).
    destruct (Hh2 sid s2 Hs2) as (s3 & Hs3 & Heq3). exists s3. split; [done|congruence].
  - intros ns o Hns Hsock. apply Hg2; [|done]. by apply Hg1.
Qed.

Lemma effect_weaken (C C' A A' : nat -> Prop) (w w' : World) :
  (∀ c, C c -> C' c) -> (∀ a, A a -> A' a) -> effect C A w w' -> effect C' A' w w'.
Proof.
  intros HC HA (Hc & Ha & Hl & Ht & Hk & Hrest).
  split; [by eapply calls_rel_weaken|]. split; [by eapply auths_rel_weaken|].
  split; [done|]. split; [done|]. split; [|done].
  intros t Hin Hfree. apply Hk; [done|]. intros c cl Hc'. by apply Hfree, HC.
Qed.

Lemma remove_first_subseteq (x y : string * Handler) (l : list (string * Handler)) :
  y ∈ remove_first x l -> y ∈ l.
Proof.
  induction l as [|z l IH]; simpl; [done|].
  case_decide.
  - intros Hin. by right.
  - rewrite !elem_of_cons. intros [->|Hin]; auto.
Qed.

Lemma remove_first_filter (P : string * Handler -> Prop) `{∀ x, Decision (P x)}
      (x : string * Handler) (l : list (string * Handler)) :
  ¬ P x -> filter P (remove_first x l) = filter P l.
Proof.
  intros Hx. induction l as [|y l IH]; simpl; [done|].
  case_decide; subst.
  - by rewrite filter_cons_False.
  - rewrite !filter_cons. by rewrite IH.
Qed.

Lemma effect_sockets (C A : nat -> Prop) (f : Socket -> Socket) (sid : nat) (w : World) :
  (∀ s x, x ∈ listeners (f s) -> x ∈ listeners s) ->
  (∀ s, filter of_handshake (listeners (f s)) = filter of_handshake (listeners s)) ->
  effect C A w (with_sockets (alter f sid) w).
Proof.
  intros Hf Hkeep. apply effect_frame; try reflexivity; [| |by intros].
  - intros sid' s' x Hs' Hx. store. store in Hs'. rewrite list_lookup_alter in Hs'.
    case_decide; subst; [|eauto].
    destruct (sockets w !! sid') as [s|]; simplify_eq/=. eauto.
  - intros sid' s Hs. store. rewrite list_lookup_alter.
    case_decide; subst; rewrite Hs; simpl; eauto.
Qed.

Lemma effect_socket_off (C A : nat -> Prop) sid event h w :
  handler_call h ≠ None -> effect C A w (socket_off sid event h w).
Proof.
  intros Hcall. apply effect_sockets.
  - intros s x. apply remove_first_subseteq.
  - intros s. fields. by apply remove_first_filter.
Qed.

Lemma effect_socket_emit (C A : nat -> Prop) sid event payload w :
  effect C A w (socket_emit sid event payload w).
Proof. by apply effect_sockets. Qed.

Lemma effect_set_connected (C A : nat -> Prop) sid b w :
  effect C A w (set_connected sid b w).
Proof. by apply effect_sockets. Qed.

Lemma effect_report_uncaught (C A : nat -> Prop) e w : effect C A w (report_uncaught e w).
Proof.
  apply effect_frame; try reflexivity.
  - by apply listeners_shrink_same.
  - by apply handshake_listeners_kept_same.
  - by intros.
Qed.

Lemma effect_cleanup (C A : nat -> Prop) c w : effect C A w (cleanup c w).
Proof.
  unfold cleanup. destruct (calls w !! c) as [cl|]; [|apply effect_refl].
  destruct (c_socket cl) as [sid|]; [|apply effect_refl].
  eapply effect_trans; [|by apply effect_socket_off].
  eapply effect_trans; [|by apply effect_socket_off].
  by apply effect_socket_off.
Qed.

Lemma effect_with_calls (C A : nat -> Prop) (G : Call -> Call) (c : nat) (w : World) :
  C c -> (∀ cl, call_step cl (G cl)) -> effect C A w (with_calls (alter G c) w).
Proof.
  intros HC HG.
  split; [by apply calls_rel_alter|]. split; [apply auths_rel_refl|].
  split; [by apply listeners_shrink_same|]. split; [done|].
  split; [by apply timers_kept_same|]. split; [done|]. split; [done|].
  split; [by apply handshake_listeners_kept_same|]. done.
Qed.

Lemma effect_set_hasResolved (C A : nat -> Prop) c w : C c -> effect C A w (set_hasResolved c w).
Proof. intros HC. apply effect_with_calls; [done|]. intros cl. by repeat split. Qed.

Lemma effect_settle (C A : nat -> Prop) c outcome w : C c -> effect C A w (settle c outcome w).
Proof.
  intros HC. apply effect_with_calls; [done|]. intros cl.
  unfold call_step. fields. repeat split; try done.
  by destruct (promise cl).
Qed.

Lemma effect_call_settle (C A : nat -> Prop) c outcome w :
  C c -> effect C A w (call_settle c outcome w).
Proof.
  intros HC. unfold call_settle. destruct (calls w !! c) as [cl|]; [|apply effect_refl].
  eapply effect_trans; [|by apply effect_settle].
  destruct (wrapped cl); [apply effect_cleanup | apply effect_refl].
Qed.

Lemma effect_clearTimeout (C A : nat -> Prop) c cl w :
  C c -> calls w !! c = Some cl -> effect C A w (clearTimeout (timeout cl) w).
Proof.
  intros HC Hcl. destruct (timeout cl) as [tid|] eqn:Hto; [|apply effect_refl].
  unfold clearTimeout.
  split; [apply calls_rel_refl|]. split; [apply auths_rel_refl|].
  split; [by apply listeners_shrink_same|]. split; [|split].
  - intros t Ht. store in Ht. apply list_elem_of_filter in Ht. tauto.
  - intros t Ht Hfree. store. apply list_elem_of_filter. split; [|done].
    intros Heq. apply (Hfree c cl HC Hcl). by rewrite Hto, Heq.
  - split; [done|]. split; [done|]. split; [by apply handshake_listeners_kept_same|]. done.
Qed.

Lemma effect_auth_settle `{Platform} (C A : nat -> Prop) a outcome w :
  A a -> effect C A w (auth_settle a outcome w).
Proof.
  intros HA. unfold auth_settle.
  split; [apply calls_rel_refl|]. split.
  { apply auths_rel_alter; [done|]. intros au. unfold auth_step. fields.
    repeat split; try done. by destruct (a_promise au). }
  split; [by apply listeners_shrink_same|]. split; [done|].
  split; [by apply timers_kept_same|]. split; [done|]. split; [done|].
  split; [by apply handshake_listeners_kept_same|]. done.
Qed.

Lemma effect_getSocket (C A : nat -> Prop) ns path w : effect C A w (getSocket ns path w).2.
Proof.
  unfold getSocket. destruct (nodeSockets w !! ns) as [o|] eqn:Hns; [|apply effect_refl].
  destruct (socket o) eqn:Hsock; [apply effect_refl|].
  unfold init. rewrite Hns. destruct (node o); [|apply effect_refl].
  unfold io. store. apply effect_frame; try reflexivity.
  - intros sid s' x Hs Hx. store in Hs.
    apply lookup_app_Some in Hs as [Hs|[_ Hs]]; [eauto|].
    destruct (sid - length (sockets w))%nat; simplify_eq/=. set_solver.
  - intros sid s Hs. exists s. split; [|done]. store. by apply lookup_app_l_Some.
  - intros ns' o' Hns' Hsome. store. rewrite list_lookup_alter.
    case_decide; [subst; congruence|done].
Qed.

Lemma effect_mark_and_clear (C A : nat -> Prop) c cl w :
  C c -> calls w !! c = Some cl ->
  effect C A w (clearTimeout (timeout cl) (set_hasResolved c w)).
Proof.
  intros HC Hcl. eapply effect_trans; [by apply effect_set_hasResolved|].
  assert (calls (set_hasResolved c w) !! c
          = Some (mkCall (c_op cl) (c_socket cl) true (timeout cl) (wrapped cl)
                         (promise cl) (settle_calls cl))) as Hcl'.
  { unfold set_hasResolved. simpl. by rewrite list_lookup_alter_eq, Hcl. }
  apply (effect_clearTimeout C A c _ _ HC Hcl').
Qed.

Lemma effect_on_response (C A : nat -> Prop) c response w :
  C c -> effect C A w (on_response c response w).1.
Proof.
  intros HC. unfold on_response. destruct (calls w !! c) as [cl|] eqn:Hcl; [|apply effect_refl].
  destruct (hasResolved cl); [apply effect_refl|].
  destruct (response_outcome (c_op cl) response); cbn [fst].
  - eapply effect_trans; [by eapply effect_mark_and_clear|]. by apply effect_call_settle.
  - by eapply effect_mark_and_clear.
Qed.

Lemma effect_on_error (C A : nat -> Prop) c error w :
  C c -> effect C A w (on_error c error w).1.
Proof.
  intros HC. unfold on_error. destruct (calls w !! c) as [cl|] eqn:Hcl; [|apply effect_refl].
  destruct (hasResolved cl); [apply effect_refl|].
  destruct (get_prop error "message") as [m|exn]; [|by eapply effect_mark_and_clear].
  destruct (ToString (js_or m error)); cbn [fst].
  - eapply effect_trans; [by eapply effect_mark_and_clear|]. by apply effect_call_settle.
  - by eapply effect_mark_and_clear.
Qed.

Lemma effect_on_disconnect (C A : nat -> Prop) c reason w :
  C c -> effect C A w (on_disconnect c reason w).1.
Proof.
  intros HC. unfold on_disconnect. destruct (calls w !! c) as [cl|] eqn:Hcl; [|apply effect_refl].
  destruct (hasResolved cl); [apply effect_refl|].
  destruct (ToString reason); cbn [fst].
  - eapply effect_trans; [by eapply effect_mark_and_clear|]. by apply effect_call_settle.
  - by eapply effect_mark_and_clear.
Qed.

Lemma effect_on_timeout (C A : nat -> Prop) c w :
  C c -> effect C A w (on_timeout c w).
Proof.
  intros HC. unfold on_timeout. destruct (calls w !! c) as [cl|] eqn:Hcl; [|apply effect_refl].
  destruct (hasResolved cl); [apply effect_refl|].
  eapply effect_trans; [by apply effect_set_hasResolved|]. by apply effect_call_settle.
Qed.

Lemma effect_on_verdict `{Platform} (C A : nat -> Prop) a event w :
  A a -> effect C A w (on_verdict a event w).
Proof.
  intros HA. unfold on_verdict.
  destruct (auths w !! a) as [[network [ns|] p]|]; try apply effect_refl.
  destruct (get_prop event "isValidSignature") as [valid|e],
    (operator_prop network id "id") as [account|e'],
    (node_operator ns w); try apply effect_report_uncaught.
  destruct (ToString account); [|apply effect_report_uncaught].
  destruct (truthy valid); by apply effect_auth_settle.
Qed.

Lemma effect_on_challenge `{Platform} (C A : nat -> Prop) a event w :
  A a -> effect C A w (on_challenge a event w).
Proof.
  intros HA. unfold on_challenge.
  destruct (auths w !! a) as [[network [ns|] p]|]; try apply effect_refl.
  assert (∀ e w', effect C A w w' ->
            effect C A w
              match get_prop e "message" with
              | Normal m =>
                  match ToString m with
                  | Normal text =>
                      auth_settle a
                        (AuthRejected (Error ("Authentication process failed: " +:+ text)))
                        w'
                  | Throw exn => report_uncaught exn w'
                  end
              | Throw exn => report_uncaught exn w'
              end) as Hfailed.
  { intros e w' Hw'. eapply effect_trans; [exact Hw'|].
    destruct (get_prop e "message") as [m|exn]; [|apply effect_report_uncaught].
    destruct (ToString m); [by apply effect_auth_settle | apply effect_report_uncaught]. }
  destruct (node_operator ns w), (challenge_payload event) as [[payload|]|];
    try apply effect_refl; try (apply Hfailed; apply effect_refl).
  destruct (sign_payload network payload), (operator_prop network id "id");
    try (apply Hfailed; apply effect_refl).
  pose proof (effect_getSocket C A ns "gateway" w) as Hget.
  destruct (getSocket ns "gateway" w) as [[sid|e] w1]; cbn [snd] in Hget.
  - eapply effect_trans; [exact Hget|]. apply effect_socket_emit.
  - by apply Hfailed.
Qed.

Lemma effect_run_handler `{Platform} (C A : nat -> Prop) h arg w :
  (∀ c, handler_call h = Some c -> C c) -> (∀ a, handler_auth h = Some a -> A a) ->
  effect C A w (run_handler h arg w).1.
Proof.
  intros HC HA. destruct h; simpl; try apply effect_refl.
  - apply effect_on_verdict. by apply HA.
  - apply effect_on_challenge. by apply HA.
  - apply effect_on_response. by apply HC.
  - apply effect_on_error. by apply HC.
  - apply effect_on_disconnect. by apply HC.
Qed.

Lemma effect_run_listeners `{Platform} (C A : nat -> Prop) hs arg w :
  (∀ h c, h ∈ hs -> handler_call h = Some c -> C c) ->
  (∀ h a, h ∈ hs -> handler_auth h = Some a -> A a) ->
  effect C A w (run_listeners hs arg w).
Proof.
  revert w. induction hs as [|h hs IH]; intros w HC HA; simpl; [apply effect_refl|].
  pose proof (effect_run_handler C A h arg w) as Hh.
  destruct (run_handler h arg w) as [w1 [exn|]]; simpl in Hh.
  - eapply effect_trans; [|apply effect_report_uncaught].
    apply Hh; intros; [eapply HC | eapply HA]; eauto; set_solver.
  - eapply effect_trans.
    + apply Hh; intros; [eapply HC | eapply HA]; eauto; set_solver.
    + apply IH; intros; [eapply HC | eapply HA]; eauto; set_solver.
Qed.

(** ** The deadline (C5) *)

Lemma calls_rel_lookup_r (C : nat -> Prop) (l l' : list Call) (c : nat) (cl' : Call) :
  calls_rel C l l' -> l' !! c = Some cl' ->
  ∃ cl, l !! c = Some cl ∧ call_step cl cl' ∧ (¬ C c -> cl' = cl).
Proof.
  intros Hrel Hl'. specialize (Hrel c). destruct (l !! c) as [cl|]; [|congruence].
  destruct Hrel as (cl'' & ? & ? & ?). exists cl. by simplify_eq.
Qed.

Lemma calls_rel_lookup_l (C : nat -> Prop) (l l' : list Call) (c : nat) (cl : Call) :
  calls_rel C l l' -> l !! c = Some cl ->
  ∃ cl', l' !! c = Some cl' ∧ call_step cl cl' ∧ (¬ C c -> cl' = cl).
Proof. intros Hrel Hl. specialize (Hrel c). by rewrite Hl in Hrel. Qed.

Lemma waiting_effect (o : Op) (c sid tid : nat) (due : N) (A : nat -> Prop) (w w' : World) :
  waiting o c sid tid due w -> effect (fun c' => c' ≠ c) A w w' ->
  waiting o c sid tid due w'.
Proof.
  intros (Hc & Ht & Huniq & Hother & Hloc & Hnow) (Hcalls & _ & Hshrink & Hsub & Hkept & Hn & _).
  split; [|split; [|split; [|split; [|split]]]].
  - destruct (calls_rel_lookup_l _ _ _ _ _ Hcalls Hc) as (cl' & Hcl' & _ & Hsame).
    rewrite Hcl', Hsame; [done|]. by intros Hne.
  - apply Hkept; [done|]. simpl. intros c' cl' Hne Hcl'. by eapply Hother.
  - intros t Hin. apply Huniq. by apply Hsub.
  - intros c' cl' Hne Hcl'.
    destruct (calls_rel_lookup_r _ _ _ _ _ Hcalls Hcl') as (cl & Hcl & (_ & _ & Hto & _) & _).
    rewrite Hto. by eapply Hother.
  - intros sid' s' ev h Hs' Hin Hcall.
    destruct (Hshrink _ _ _ Hs' Hin) as (s0 & Hs0 & Hx). by eapply Hloc.
  - by rewrite Hn.
Qed.

Lemma socket_listeners_elem `{Platform} (sid : nat) (event : string) (w : World) (h : Handler) :
  h ∈ socket_listeners sid event w ->
  ∃ s, sockets w !! sid = Some s ∧ (event, h) ∈ listeners s.
Proof.
  unfold socket_listeners. destruct (sockets w !! sid) as [s|]; [|set_solver].
  intros Hin. apply list_elem_of_fmap in Hin as ([ev h'] & -> & Hin).
  apply list_elem_of_filter in Hin as [Hev Hin]. simpl in *. subst. eauto.
Qed.

Lemma effect_fold_timeouts `{Platform} (C A : nat -> Prop) (l : list Timer) (w : World) :
  (∀ t, t ∈ l -> C (t_call t)) ->
  effect C A w (foldl (fun w t => on_timeout (t_call t) w) w l).
Proof.
  revert w. induction l as [|t l IH]; intros w HC; simpl; [apply effect_refl|].
  eapply effect_trans; [apply effect_on_timeout; apply HC; by left|].
  apply IH. intros t' Hin. apply HC. by right.
Qed.

Lemma step_incoming `{Platform} (w : World) (sid : nat) (event : string) (arg : JsVal) :
  ∃ w0, step w (Incoming sid event arg) = run_listeners (socket_listeners sid event w0) arg w0
        ∧ (∀ C A, effect C A w w0).
Proof.
  cbn [step].
  destruct (decide (event = "connect")); [|destruct (decide (event = "disconnect"))];
    eexists; (split; [reflexivity|]); intros C A;
    auto using effect_set_connected, effect_refl.
Qed.

Lemma waiting_step `{Platform} (o : Op) (c sid tid : nat) (due : N) (w : World) (e : Event) :
  waiting o c sid tid due w -> quiet sid o e ->
  (now w + match e with Elapse ms => ms | _ => 0 end < due)%N ->
  waiting o c sid tid due (step w e).
Proof.
  intros Hw Hq Hdue. destruct e as [sid' event arg|ms].
  - destruct (step_incoming w sid' event arg) as (w0 & -> & Heff).
    assert (waiting o c sid tid due w0) as Hw0
      by (eapply (waiting_effect _ _ _ _ _ (fun _ => True)); [exact Hw|apply Heff]).
    eapply (waiting_effect _ _ _ _ _ (fun _ => True)); [exact Hw0|].
    apply effect_run_listeners; [|done].
    intros h c' Hin Hcall ->.
    apply socket_listeners_elem in Hin as (s & Hs & Hin).
    destruct Hw0 as (_ & _ & _ & _ & Hloc & _).
    destruct (Hloc _ _ _ _ Hs Hin Hcall) as [-> Hev].
    destruct (Hq eq_refl) as (? & ? & ?). by destruct Hev as [?|[?|?]].
  - cbn [step]. unfold fire_timers. store.
    destruct Hw as (Hc & Ht & Huniq & Hother & Hloc & Hnow).
    match goal with
    | |- waiting _ _ _ _ _ (foldl _ ?W ?L) =>
        apply (waiting_effect _ _ _ _ _ (fun _ => True) W)
    end.
    + unfold waiting. store.
      split; [exact Hc|]. split.
      { apply list_elem_of_filter. split; [|done]. fields. lia. }
      split.
      { intros t Hin. apply list_elem_of_filter in Hin as [_ Hin]. by apply Huniq. }
      split; [exact Hother|]. split; [exact Hloc|]. exact Hdue.
    + apply effect_fold_timeouts. intros t Hin Hcall.
      apply list_elem_of_filter in Hin as [Hd Hin].
      rewrite (Huniq t Hin Hcall) in Hd. fields in Hd. lia.
Qed.

Lemma now_step `{Platform} (w : World) (e : Event) :
  now (step w e) = (now w + match e with Elapse ms => ms | _ => 0 end)%N.
Proof.
  destruct e as [sid event arg|ms].
  - destruct (step_incoming w sid event arg) as (w0 & -> & Heff).
    destruct (Heff (fun _ => True) (fun _ => True)) as (_ & _ & _ & _ & _ & Hnow & _).
    rewrite N.add_0_r, <- Hnow.
    apply (effect_run_listeners (fun _ => True) (fun _ => True)); done.
  - cbn [step]. unfold fire_timers. store.
    match goal with
    | |- now (foldl _ ?W ?L) = _ =>
        pose proof (effect_fold_timeouts (fun _ => True) (fun _ => True) L W
                      ltac:(done)) as Heff
    end.
    destruct Heff as (_ & _ & _ & _ & _ & -> & _). reflexivity.
Qed.

Lemma waiting_run `{Platform} (o : Op) (c sid tid : nat) (due : N) (trace : list Event)
      (w : World) :
  waiting o c sid tid due w -> Forall (quiet sid o) trace ->
  (now w + elapsed trace < due)%N ->
  waiting o c sid tid due (run w trace) ∧ now (run w trace) = (now w + elapsed trace)%N.
Proof.
  revert w. induction trace as [|e trace IH]; intros w Hw Hq Hdue.
  - cbn [run foldl elapsed foldr] in *. split; [done|lia].
  - apply Forall_cons in Hq as [Hq Hqs].
    assert (elapsed (e :: trace)
            = (match e with Elapse ms => ms | _ => 0 end + elapsed trace)%N) as Hel
      by (by destruct e).
    rewrite Hel in *.
    pose proof (now_step w e) as Hnow.
    change (run w (e :: trace)) with (run (step w e) trace).
    destruct (IH (step w e)) as [Hw' Hnow'].
    + apply waiting_step; [done..|]. lia.
    + done.
    + rewrite Hnow. lia.
    + split; [done|]. rewrite Hnow', Hnow. lia.
Qed.

Lemma on_timeout_live (o : Op) (c sid tid : nat) (w : World) :
  calls w !! c = Some (live o sid tid) ->
  promise <$> calls (on_timeout c w) !! c = Some (Rejected (Error (timeout_message o))).
Proof.
  intros Hc. unfold on_timeout. rewrite Hc. simpl. unfold reject.
  erewrite call_settle_lookup.
  2: { unfold set_hasResolved. simpl. by rewrite list_lookup_alter_eq, Hc. }
  reflexivity.
Qed.

Lemma settled_effect (C A : nat -> Prop) (c : nat) (p : Promise) (w w' : World) :
  p ≠ Pending -> promise <$> calls w !! c = Some p -> calls_rel C (calls w) (calls w') ->
  promise <$> calls w' !! c = Some p.
Proof.
  intros Hp Hc Hrel. destruct (calls w !! c) as [cl|] eqn:Hcl; simplify_eq/=.
  destruct (calls_rel_lookup_l _ _ _ _ _ Hrel Hcl) as (cl' & -> & (_&_&_&_&Hst&_) & _).
  simpl. by rewrite Hst.
Qed.

Lemma fold_timeouts_fire `{Platform} (o : Op) (c sid tid : nat) (l : list Timer) (w : World) :
  calls w !! c = Some (live o sid tid) -> (∃ t, t ∈ l ∧ t_call t = c) ->
  promise <$> calls (foldl (fun w t => on_timeout (t_call t) w) w l) !! c
  = Some (Rejected (Error (timeout_message o))).
Proof.
  revert w. induction l as [|t l IH]; intros w Hc (t0 & Hin & Hcall); simpl;
    [by apply elem_of_nil in Hin|].
  destruct (decide (t_call t = c)) as [Heq|Hne].
  - rewrite Heq.
    apply (settled_effect (fun _ => True) (fun _ => True) c
             (Rejected (Error (timeout_message o))) (on_timeout c w));
      [done|by eapply on_timeout_live|].
    apply (effect_fold_timeouts (fun _ => True) (fun _ => True)). done.
  - apply IH.
    + destruct (effect_on_timeout (fun c' => c' ≠ c) (fun _ => True) (t_call t) w Hne)
        as (Hrel & _).
      destruct (calls_rel_lookup_l _ _ _ _ _ Hrel Hc) as (cl' & -> & _ & Hsame).
      f_equal. apply Hsame. by intros Hn.
    + exists t0. split; [|done]. apply elem_of_cons in Hin as [->|Hin]; done.
Qed.

Lemma step_calls_rel `{Platform} (w : World) (e : Event) :
  calls_rel (fun _ => True) (calls w) (calls (step w e)).
Proof.
  destruct e as [sid event arg|ms]; simpl.
  - eapply calls_rel_trans.
    2: { apply (effect_run_listeners (fun _ => True) (fun _ => True)); done. }
    repeat case_decide; apply calls_rel_refl.
  - unfold fire_timers.
    apply (effect_fold_timeouts (fun _ => True) (fun _ => True)
             _ (with_timers _ (with_now _ w))). done.
Qed.

Lemma run_calls_rel `{Platform} (w : World) (trace : list Event) :
  calls_rel (fun _ => True) (calls w) (calls (run w trace)).
Proof.
  revert w. induction trace as [|e trace IH]; intros w; simpl; [apply calls_rel_refl|].
  eapply calls_rel_trans; [apply step_calls_rel|apply IH].
Qed.

(** Once settled, the outcome of a call never changes. *)
Lemma settled_forever `{Platform} (c : nat) (p : Promise) (w : World) (trace : list Event) :
  p ≠ Pending -> promise <$> calls w !! c = Some p ->
  promise <$> calls (run w trace) !! c = Some p.
Proof.
  intros Hp Hc.
  apply (settled_effect (fun _ => True) (fun _ => True) c p w);
    [done|done|apply run_calls_rel].
Qed.

Lemma waiting_deadline `{Platform} (o : Op) (c sid tid : nat) (due : N) (w : World) (d : N) :
  waiting o c sid tid due w -> (due <= now w + d)%N ->
  promise <$> calls (step w (Elapse d)) !! c = Some (Rejected (Error (timeout_message o))).
Proof.
  intros (Hc & Ht & _) Hdue. simpl. unfold fire_timers.
  eapply fold_timeouts_fire; [exact Hc|].
  exists (mkTimer tid due c). split; [|done].
  apply list_elem_of_filter. split; [simpl; lia|done].
Qed.

Lemma wf_listener (w : World) (sid : nat) (s : Socket) (ev : string) (h : Handler) :
  wf w -> sockets w !! sid = Some s -> (ev, h) ∈ listeners s -> handler_allocated w h.
Proof.
  intros (Hl & _) Hs Hin.
  rewrite Forall_lookup in Hl. specialize (Hl _ _ Hs).
  rewrite Forall_forall in Hl. by specialize (Hl _ Hin).
Qed.

Lemma send_waiting (r : Request) (w : World) (sid : nat) :
  wf w -> gateway w = Some sid -> valid_request r ->
  waiting (request_op r) (length (calls w)) sid (next_timer w) (now w + 30000)
          (send r w).2.
Proof.
  intros Hwf Hgw Hvalid. rewrite (send_valid r w sid Hgw Hvalid).
  pose proof Hwf as (Hwl & Hwt & Hwc).
  unfold socket_emit, armed_world, waiting. store.
  split; [apply lookup_snoc|].
  split; [apply elem_of_app; right; by left|].
  split.
  { intros t Hin Hcall. apply elem_of_app in Hin as [Hin|Hin].
    - rewrite Forall_forall in Hwt. destruct (Hwt _ Hin). lia.
    - by apply list_elem_of_singleton in Hin. }
  split.
  { intros c' cl' Hne Hcl' Hto.
    apply lookup_app_Some in Hcl' as [Hcl'|[Hge Hcl']].
    - rewrite Forall_lookup in Hwc. specialize (Hwc _ _ Hcl'). rewrite Hto in Hwc.
      simpl in Hwc. lia.
    - apply list_lookup_singleton_Some in Hcl' as [Hidx _]. lia. }
  split; [|lia].
  intros sid' s ev h Hs Hin Hcall.
  rewrite list_alter_alter_eq, list_lookup_alter in Hs.
  case_decide as Hsid; [subst sid'|].
  - destruct (sockets w !! sid) as [s0|] eqn:Hs0; [|done].
    injection Hs as <-. unfold compose in Hin. fields in Hin. split; [done|].
    apply elem_of_app in Hin as [Hold|Hnew].
    + pose proof (wf_listener w _ _ _ _ Hwf Hs0 Hold) as Halloc.
      destruct h; simplify_eq/=; lia.
    + unfold call_listeners in Hnew. rewrite !elem_of_cons in Hnew.
      destruct Hnew as [Heq|[Heq|[Heq|Hnil]]];
        [injection Heq as -> _; auto..|by apply elem_of_nil in Hnil].
  - pose proof (wf_listener w _ _ _ _ Hwf Hs Hin) as Halloc.
    destruct h; simplify_eq/=; lia.
Qed.

(** C5.  A valid call on a stored connection arms a deadline 30000 ms after
    the call.  If until then the transport delivers no reply, no ['error'] and
    no ['disconnect'] on that socket (anything else may happen), the call is
    still pending just before the deadline, is rejected with the timeout error
    once the deadline has passed, and keeps that outcome whatever happens
    later. *)
Theorem deadline_rejects_with_timeout `{Platform} (r : Request) (w : World) (sid : nat)
        (before later : list Event) (d : N) :
  wf w -> gateway w = Some sid -> valid_request r ->
  Forall (quiet sid (request_op r)) before ->
  (elapsed before < 30000)%N -> (30000 <= elapsed before + d)%N ->
  let c := (send r w).1 in
  let timed_out := Some (Rejected (Error (timeout_message (request_op r)))) in
  promise <$> calls (run (send r w).2 before) !! c = Some Pending
  ∧ promise <$> calls (run (send r w).2 (before ++ [Elapse d])) !! c = timed_out
  ∧ promise <$> calls (run (send r w).2 (before ++ [Elapse d] ++ later)) !! c = timed_out.
Proof.
  intros Hwf Hgw Hvalid Hquiet Hlt Hge c timed_out. subst c timed_out. rewrite send_id.
  pose proof (send_waiting r w sid Hwf Hgw Hvalid) as Hw.
  assert (now (send r w).2 = now w) as Hnow.
  { rewrite (send_valid r w sid Hgw Hvalid). reflexivity. }
  destruct (waiting_run _ _ _ _ _ before _ Hw Hquiet) as [Hw' Hnow']; [lia|].
  assert (promise <$> calls (run (send r w).2 (before ++ [Elapse d])) !! length (calls w)
          = Some (Rejected (Error (timeout_message (request_op r))))) as Hout.
  { unfold run. rewrite foldl_app. simpl.
    eapply waiting_deadline; [exact Hw'|]. fold (run (send r w).2 before). lia. }
  split; [|split].
  - destruct Hw' as (-> & _). reflexivity.
  - exact Hout.
  - rewrite app_assoc. unfold run at 1. rewrite foldl_app.
    apply settled_forever; done.
Qed.

Lemma deadline_rejects_with_timeout_witness :
  let r := RequestSwap (JStr "0.0.5") swapObj in
  let before :=
    [Incoming 0 "connect" JUndefined; Elapse 10000;
     Incoming 0 "swapPoolExecute" (JObj [("status", JStr "success")]); Elapse 19999] in
  let later :=
    [Incoming 0 "swapPoolRequest" (JObj [("status", JStr "success"); ("payload", JStr "tx")])] in
  promise <$> calls (@run toy_platform (send r authenticated_world).2
                       (before ++ [Elapse 1] ++ later)) !! 0%nat
  = Some (Rejected (Error "Swap transaction request timed out after 30 seconds")).
Proof.
  intros r before later.
  apply (@deadline_rejects_with_timeout toy_platform r authenticated_world 0
           before later 1).
  - vm_compute. repeat split; repeat constructor.
  - vm_compute. reflexivity.
  - vm_compute. repeat split.
  - vm_compute. repeat constructor; discriminate.
  - vm_compute. reflexivity.
  - vm_compute. discriminate.
Defined.

(** ** The handshake (C6, C7) *)

Lemma operator_prop_of `{Platform} (network : string) (op : Operator)
      (prop : Operator -> string) (name : string) :
  operator_of network = Some op -> operator_prop network prop name = Normal (JStr (prop op)).
Proof.
  unfold operator_of, operator_prop. repeat case_decide; intros; simplify_eq; done.
Qed.

Lemma on_gateway_existing `{Platform} (ns sid : nat) (event : string) (h : Handler)
      (w : World) (o : SmartNodeSocket) :
  nodeSockets w !! ns = Some o -> socket o = Some sid ->
  on_gateway ns event h w = (Normal tt, socket_on sid event h w).
Proof. intros Hns Hs. unfold on_gateway. by rewrite (getSocket_existing _ _ _ _ _ Hns Hs). Qed.

Lemma on_gateway_init `{Platform} (ns : nat) (event : string) (h : Handler) (w : World)
      (n : Node) (wal : JsVal) :
  nodeSockets w !! ns = Some (mkSmartNodeSocket (Some n) wal None) ->
  on_gateway ns event h w
  = (Normal tt,
     socket_on (length (sockets w)) event h
       (with_nodeSockets
          (alter (fun o => mkSmartNodeSocket (node o) (wallet o) (Some (length (sockets w)))) ns)
          (with_sockets (fun l => l ++ [mkSocket (gateway_url n) wal [] [] false]) w))).
Proof.
  intros Hns. unfold on_gateway, getSocket, init. rewrite Hns. fields. reflexivity.
Qed.

Lemma smartNodeSocketOn_started `{Platform} (cat : Catalog) (network : string) (random : Q)
      (w : World) (n : Node) (op : Operator) :
  selectNode cat network random = Normal (Some n) -> operator_of network = Some op ->
  (smartNodeSocketOn cat network random w).2 = started_world network n (JStr (id op)) w.
Proof.
  intros Hsel Hop. unfold smartNodeSocketOn. rewrite Hsel.
  rewrite (operator_prop_of _ _ _ _ Hop).
  unfold new_SmartNodeSocket, set_a_nodeSocket. cbn [snd fst]. store.
  unfold and_then.
  erewrite on_gateway_init by (store; apply lookup_snoc).
  repeat (erewrite on_gateway_existing
            by (store; first [rewrite list_lookup_alter_eq, lookup_snoc; reflexivity
                             | reflexivity])).
  unfold started_world. apply World_ext; store; try reflexivity.
  - rewrite !list_alter_alter_eq, alter_snoc. unfold compose, handshake_listeners. fields.
    reflexivity.
  - by rewrite alter_snoc.
  - by rewrite alter_snoc.
Qed.

Lemma filter_all {A} (P : A -> Prop) `{∀ x, Decision (P x)} (l : list A) :
  (∀ x, x ∈ l -> P x) -> filter P l = l.
Proof.
  induction l as [|x l IH]; intros Hall; [done|].
  rewrite filter_cons_True by (apply Hall; set_solver).
  f_equal. apply IH. intros y Hy. apply Hall. set_solver.
Qed.

Lemma started_awaiting (network : string) (n : Node) (account : JsVal) (w : World) :
  wf w ->
  awaiting (length (auths w)) (length (sockets w)) (length (nodeSockets w)) network n
           (started_world network n account w).
Proof.
  intros Hwf. unfold awaiting, started_world. simpl.
  split; [apply lookup_snoc|]. split; [|split].
  - eexists. split; [apply lookup_snoc|done].
  - intros sid' s ev h Hs Hin Hauth.
    apply lookup_app_Some in Hs as [Hs|[Hge Hs]].
    + pose proof (wf_listener w _ _ _ _ Hwf Hs Hin) as Halloc.
      destruct h; simplify_eq/=; lia.
    + destruct (sid' - length (sockets w))%nat eqn:Hd; simplify_eq/=. lia.
  - eexists. apply lookup_snoc.
Qed.

Lemma awaiting_effect (a sid ns : nat) (network : string) (n : Node) (C : nat -> Prop)
      (w w' : World) :
  awaiting a sid ns network n w -> effect C (fun a' => a' ≠ a) w w' ->
  awaiting a sid ns network n w'.
Proof.
  intros (Ha & (s & Hs & Hfive) & Hloc & (account & Hnode))
         (_ & Hauths & Hshrink & _ & _ & _ & _ & Hkept & Hget).
  split; [|split; [|split]].
  - specialize (Hauths a). rewrite Ha in Hauths.
    destruct Hauths as (au' & Hau' & _ & Hsame). rewrite Hau', Hsame; [done|]. by intros Hne.
  - destruct (Hkept sid s Hs) as (s' & Hs' & Hfilter). exists s'. split; [done|].
    rewrite Hfive in Hfilter.
    rewrite <- (filter_all of_handshake (listeners s')).
    + rewrite Hfilter. reflexivity.
    + intros x Hx. destruct (Hshrink _ _ _ Hs' Hx) as (s0 & Hs0 & Hx0).
      assert (s0 = s) as -> by congruence. rewrite Hfive in Hx0.
      unfold handshake_listeners in Hx0. unfold of_handshake.
      rewrite !elem_of_cons in Hx0.
      destruct Hx0 as [->|[->|[->|[->|[->|Hnil]]]]]; [done..|by apply elem_of_nil in Hnil].
  - intros sid' s' ev h Hs' Hin Hauth.
    destruct (Hshrink _ _ _ Hs' Hin) as (s0 & Hs0 & Hx0). by eapply Hloc.
  - exists account. by apply Hget.
Qed.

Lemma awaiting_step `{Platform} (a sid ns : nat) (network : string) (n : Node)
      (w : World) (e : Event) :
  awaiting a sid ns network n w -> no_verdict sid e -> awaiting a sid ns network n (step w e).
Proof.
  intros Hw Hq. destruct e as [sid' event arg|ms]; simpl in *.
  - set (w0 := if decide (event = "connect") then set_connected sid' true w
               else if decide (event = "disconnect") then set_connected sid' false w
               else w).
    assert (awaiting a sid ns network n w0) as Hw0.
    { eapply (awaiting_effect _ _ _ _ _ (fun _ => True)); [exact Hw|].
      subst w0. repeat case_decide; auto using effect_set_connected, effect_refl. }
    eapply (awaiting_effect _ _ _ _ _ (fun _ => True)); [exact Hw0|].
    apply effect_run_listeners; [done|].
    intros h a' Hin Hauth ->.
    apply socket_listeners_elem in Hin as (s & Hs & Hin).
    destruct Hw0 as (_ & (s0 & Hs0 & Hfive) & Hloc & _).
    pose proof (Hloc _ _ _ _ Hs Hin Hauth) as ->.
    assert (s = s0) as -> by congruence. rewrite Hfive in Hin.
    destruct (Hq eq_refl) as [? ?].
    unfold handshake_listeners in Hin. rewrite !elem_of_cons in Hin.
    destruct Hin as [Heq|[Heq|[Heq|[Heq|[Heq|Hnil]]]]];
      [simplify_eq/=..|by apply elem_of_nil in Hnil].
  - unfold fire_timers.
    eapply (awaiting_effect _ _ _ _ _ (fun _ => True)).
    2: { apply effect_fold_timeouts. done. }
    exact Hw.
Qed.

Lemma awaiting_run `{Platform} (a sid ns : nat) (network : string) (n : Node)
      (trace : list Event) (w : World) :
  awaiting a sid ns network n w -> Forall (no_verdict sid) trace ->
  awaiting a sid ns network n (run w trace).
Proof.
  revert w. induction trace as [|e trace IH]; intros w Hw Hq; simpl; [done|].
  apply Forall_cons in Hq as [Hq Hqs]. apply IH; [|done]. by apply awaiting_step.
Qed.

Lemma awaiting_verdict `{Platform} (a sid ns : nat) (network : string) (n : Node)
      (op : Operator) (event valid : JsVal) (w : World) :
  awaiting a sid ns network n w -> operator_of network = Some op ->
  get_prop event "isValidSignature" = Normal valid ->
  a_promise <$> auths (step w (Incoming sid "authenticate" event)) !! a
  = Some (if truthy valid
          then AuthResolved ("account " +:+ id op +:+ " authenticated to node "
                             +:+ operator n +:+ ".") ns
          else AuthRejected (Error ("Authentication failed: Invalid signature for account "
                                    +:+ id op +:+ " on node " +:+ operator n))).
Proof.
  intros (Ha & (s & Hs & Hfive) & _ & (account & Hnode)) Hop Hvalid. simpl.
  unfold socket_listeners. rewrite Hs, Hfive. simpl.
  unfold on_verdict. rewrite Ha, Hvalid, (operator_prop_of _ _ _ _ Hop).
  unfold node_operator, getNode. rewrite Hnode. simpl.
  destruct (truthy valid); unfold auth_settle; simpl;
    rewrite list_lookup_alter_eq, Ha; reflexivity.
Qed.

Lemma awaiting_challenge `{Platform} (a sid ns : nat) (network : string) (n : Node)
      (op : Operator) (event payload signature : JsVal) (w : World) :
  awaiting a sid ns network n w -> operator_of network = Some op ->
  challenge_payload event = Some (Normal payload) ->
  sign_payload network payload = Normal signature ->
  step w (Incoming sid "authentication" event)
  = socket_emit sid "authenticate"
      (JObj [("signedData",
              JObj [("signedPayload", payload); ("userSignature", signature)]);
             ("walletId", JStr (id op))]) w.
Proof.
  intros (Ha & (s & Hs & Hfive) & _ & (account & Hnode)) Hop Hpayload Hsign. simpl.
  unfold socket_listeners. rewrite Hs, Hfive. simpl.
  unfold on_challenge. rewrite Ha.
  unfold node_operator, getNode. rewrite Hnode. simpl.
  rewrite Hpayload, Hsign, (operator_prop_of _ _ _ _ Hop).
  erewrite getSocket_existing by (first [exact Hnode | reflexivity]).
  reflexivity.
Qed.

Lemma awaiting_undecided `{Platform} (a sid ns : nat) (network : string) (n : Node)
      (op : Operator) (w : World) (e : Event) :
  awaiting a sid ns network n w -> operator_of network = Some op ->
  no_decision network sid e -> awaiting a sid ns network n (step w e).
Proof.
  intros Hw Hop Hq. destruct e as [sid' event arg|ms]; [|by apply awaiting_step].
  destruct (decide (sid' = sid)) as [->|Hsid].
  - destruct (Hq eq_refl) as [Hverdict Hchallenge].
    destruct (decide (event = "authentication")) as [->|Hev].
    + destruct (Hchallenge eq_refl) as (payload & signature & Hpayload & Hsign).
      rewrite (awaiting_challenge _ _ _ _ _ _ _ _ _ _ Hw Hop Hpayload Hsign).
      eapply (awaiting_effect _ _ _ _ _ (fun _ => True)); [exact Hw|].
      apply effect_socket_emit.
    + apply awaiting_step; [done|]. by intros _.
  - apply awaiting_step; [done|]. by intros ->.
Qed.

Lemma awaiting_undecided_run `{Platform} (a sid ns : nat) (network : string) (n : Node)
      (op : Operator) (trace : list Event) (w : World) :
  awaiting a sid ns network n w -> operator_of network = Some op ->
  Forall (no_decision network sid) trace ->
  awaiting a sid ns network n (run w trace).
Proof.
  revert w. induction trace as [|e trace IH]; intros w Hw Hop Hq; simpl; [done|].
  apply Forall_cons in Hq as [Hq Hqs]. apply IH; [|done..].
  by eapply awaiting_undecided.
Qed.

(** C7, as the code has it.  As long as no verdict arrives and every
    challenge that arrives is answered, the promise of [smartNodeSocket]
    stays pending, however much time passes and whatever else the transport
    delivers: the handshake has no deadline.  A verdict with a truthy flag
    then resolves it, naming the account and the node's operator; a verdict
    with a falsy flag rejects it with the authentication-failed error naming
    both. *)
Theorem handshake_verdicts `{Platform} (network : string) (random : Q) (w : World) (n : Node)
        (op : Operator) (trace : list Event) :
  wf w -> selectNode nodes network random = Normal (Some n) ->
  operator_of network = Some op ->
  let a := length (auths w) in
  let sid := length (sockets w) in
  let w1 := run (smartNodeSocket network random w).2 trace in
  Forall (no_decision network sid) trace ->
  a_promise <$> auths w1 !! a = Some AuthPending
  ∧ ∀ event valid : JsVal,
      get_prop event "isValidSignature" = Normal valid ->
      a_promise <$> auths (step w1 (Incoming sid "authenticate" event)) !! a
      = Some (if truthy valid
              then AuthResolved ("account " +:+ id op +:+ " authenticated to node "
                                 +:+ operator n +:+ ".") (length (nodeSockets w))
              else AuthRejected
                     (Error ("Authentication failed: Invalid signature for account "
                             +:+ id op +:+ " on node " +:+ operator n))).
Proof.
  intros Hwf Hsel Hop a sid w1 Hquiet. subst a sid w1.
  unfold smartNodeSocket. rewrite (smartNodeSocketOn_started _ _ _ _ _ _ Hsel Hop).
  pose proof (awaiting_undecided_run _ _ _ _ _ _ trace _
                (started_awaiting network n (JStr (id op)) w Hwf) Hop Hquiet) as Hw.
  split.
  - destruct Hw as (-> & _). reflexivity.
  - intros event valid Hvalid. by eapply awaiting_verdict.
Qed.

Lemma handshake_verdicts_witness :
  a_promise <$> auths
    (@step toy_platform
       (@run toy_platform (@smartNodeSocket toy_platform "testnet" 0%Q empty_world).2
          [Incoming 0 "connect" JUndefined; Incoming 0 "authentication" challenge;
           Elapse 1000])
       (Incoming 0 "authenticate" (JObj [("isValidSignature", JBool false)]))) !! 0%nat
  = Some (AuthRejected
            (Error "Authentication failed: Invalid signature for account 0.0.2002 on node 0.0.467726")).
Proof.
  refine (proj2 (@handshake_verdicts toy_platform "testnet" 0%Q empty_world
                   testnet_sn1
                   (@operator_testnet toy_platform)
                   [Incoming 0 "connect" JUndefined; Incoming 0 "authentication" challenge;
                    Elapse 1000] _ eq_refl eq_refl _)
            (JObj [("isValidSignature", JBool false)]) (JBool false) eq_refl).
  - vm_compute. repeat split; repeat constructor.
  - constructor; [|constructor; [|constructor; [exact I|constructor]]].
    + unfold no_decision. intros _. split; discriminate.
    + unfold no_decision. intros _. split; [discriminate|]. intros _.
      exists (JObj [("serverSignature", JBytes [1; 2; 3]); ("originalPayload", JStr "abc")]).
      eexists. split; reflexivity.
Defined.

(** C7, counterexample.  The challenge has been answered and no verdict
    arrives: a day later the promise is still pending, and no timer was ever
    armed for it. *)
Lemma handshake_never_times_out :
  let w := @run toy_platform handshake_world
             [Incoming 0 "connect" JUndefined; Incoming 0 "authentication" challenge;
              Elapse 86400000] in
  a_promise <$> auths w !! 0%nat = Some AuthPending
  ∧ timers handshake_world = [] ∧ now w = 86400000%N.
Proof. vm_compute. repeat split. Qed.

(** C6.  When the challenge [{payload, signedData: {signature}}] arrives on
    the socket of a handshake that is under way, the only thing that happens
    is one [emit] of ['authenticate'] on that socket.  Its payload carries the
    canonical object [{serverSignature, originalPayload}] built from the
    signature bytes and the challenge payload, the operator's signature over
    the bytes of its JSON serialisation, and the operator's account id as
    [walletId]. *)
Theorem challenge_response `{Platform} (network : string) (random : Q) (w : World) (n : Node)
        (op : Operator) (trace : list Event) (event signedData signature : JsVal)
        (bytes : list Z) (key : PrivateKey) :
  wf w -> selectNode nodes network random = Normal (Some n) ->
  operator_of network = Some op ->
  Forall (no_verdict (length (sockets w))) trace ->
  get_prop event "signedData" = Normal signedData ->
  get_prop signedData "signature" = Normal signature ->
  Uint8Array signature = Some bytes ->
  PrivateKey_fromString (JStr (private_key op)) = Normal key ->
  let sid := length (sockets w) in
  let w1 := run (smartNodeSocket network random w).2 trace in
  let canonical :=
    JObj [("serverSignature", JBytes bytes); ("originalPayload", field event "payload")] in
  let userSignature := JBytes (PrivateKey_sign key (Buffer_from (JSON_stringify canonical))) in
  step w1 (Incoming sid "authentication" event)
  = socket_emit sid "authenticate"
      (JObj [("signedData",
              JObj [("signedPayload", canonical); ("userSignature", userSignature)]);
             ("walletId", JStr (id op))]) w1.
Proof.
  intros Hwf Hsel Hop Hquiet Hsd Hsig Hbytes Hkey sid w1 canonical userSignature.
  subst sid w1 canonical userSignature.
  unfold smartNodeSocket. rewrite (smartNodeSocketOn_started _ _ _ _ _ _ Hsel Hop).
  pose proof (awaiting_run _ _ _ _ _ trace _
                (started_awaiting network n (JStr (id op)) w Hwf) Hquiet) as Hw.
  destruct Hw as (Ha & (s & Hs & Hfive) & _ & (account & Hnode)).
  simpl. unfold socket_listeners. rewrite Hs, Hfive. simpl.
  unfold on_challenge. rewrite Ha.
  unfold node_operator, getNode. rewrite Hnode. simpl.
  unfold challenge_payload. rewrite Hsd, Hsig, Hbytes. simpl.
  unfold sign_payload. rewrite !(operator_prop_of _ _ _ _ Hop), Hkey.
  erewrite getSocket_existing by (first [exact Hnode | reflexivity]).
  reflexivity.
Qed.

Lemma challenge_response_witness :
  (last ∘ emitted) <$>
    sockets (@step toy_platform
               (@run toy_platform (@smartNodeSocket toy_platform "testnet" 0%Q empty_world).2
                  [Incoming 0 "connect" JUndefined])
               (Incoming 0 "authentication" challenge)) !! 0%nat
  = Some (Some ("authenticate",
                JObj [("signedData",
                       JObj [("signedPayload",
                              JObj [("serverSignature", JBytes [1; 2; 3]);
                                    ("originalPayload", JStr "abc")]);
                             ("userSignature",
                              JBytes (@PrivateKey_sign toy_platform "testnet-key"
                                        (Buffer_from
                                           (@JSON_stringify toy_platform
                                              (JObj [("serverSignature", JBytes [1; 2; 3]);
                                                     ("originalPayload", JStr "abc")])))))]);
                      ("walletId", JStr "0.0.2002")])).
Proof.
  pose proof (@challenge_response toy_platform "testnet" 0%Q empty_world
                testnet_sn1
                (@operator_testnet toy_platform) [Incoming 0 "connect" JUndefined]
                challenge (JObj [("signature", JArr [JNum 1; JNum 2; JNum 3])])
                (JArr [JNum 1; JNum 2; JNum 3]) [1; 2; 3] "testnet-key"
                ltac:(vm_compute; repeat split; repeat constructor)
                ltac:(vm_compute; reflexivity)
                ltac:(vm_compute; reflexivity)
                ltac:(vm_compute; repeat constructor; discriminate)
                ltac:(vm_compute; reflexivity)
                ltac:(vm_compute; reflexivity)
                ltac:(vm_compute; reflexivity)
                ltac:(vm_compute; reflexivity)) as Hthm.
  change (length (sockets empty_world)) with 0%nat in Hthm.
  cbv zeta in Hthm. rewrite Hthm. vm_compute. reflexivity.
Defined.

(** ** Settlement and clean-up (C1) *)

Lemma remove_first_app_fresh (x : string * Handler) (l l' : list (string * Handler)) :
  x ∉ l -> remove_first x (l ++ x :: l') = l ++ l'.
Proof.
  induction l as [|y l IH]; intros Hx; simpl.
  - by rewrite decide_True.
  - rewrite decide_False by set_solver. f_equal. apply IH. set_solver.
Qed.

Lemma fresh_call_listener (w : World) (sid : nat) (s : Socket) (ev : string) (h : Handler) :
  wf w -> sockets w !! sid = Some s -> handler_call h = Some (length (calls w)) ->
  (ev, h) ∉ listeners s.
Proof.
  intros Hwf Hs Hcall Hin. pose proof (wf_listener w _ _ _ _ Hwf Hs Hin) as Halloc.
  destruct h; simplify_eq/=; lia.
Qed.

(** C1 at the failing input.  With a connection stored, a call of
    [swapTransactionRequest] whose [senderId] is falsy or not a string rejects
    the promise with the validation error and removes its three listeners,
    but [hasResolved] is still [false] and the 30 s timer is still armed. *)
Theorem invalid_senderId_leaves_timer_armed (senderId swap : JsVal) (w : World) (sid : nat) :
  wf w -> gateway w = Some sid ->
  truthy senderId = false ∨ typeof senderId ≠ "string" ->
  let c := (swapTransactionRequest senderId swap w).1 in
  let w' := (swapTransactionRequest senderId swap w).2 in
  calls w' !! c
  = Some (mkCall SwapRequest (Some sid) false (Some (next_timer w)) true
            (Rejected (Error "Invalid senderId provided - must be a valid account ID string"))
            1)
  ∧ sockets w' = sockets w
  ∧ timers w' = timers w ++ [mkTimer (next_timer w) (now w + 30000) c].
Proof.
  intros Hwf Hgw Hbad c w'. subst c w'.
  unfold swapTransactionRequest. simpl.
  pose proof (arm_gateway SwapRequest w sid Hgw) as Harm. simpl in Harm. rewrite Harm.
  assert (negb (truthy senderId) || negb (bool_decide (typeof senderId = "string")) = true)
    as ->.
  { destruct Hbad as [->|Hty]; [done|].
    rewrite (bool_decide_eq_false_2 _ Hty). apply orb_true_r. }
  unfold reject, call_settle, armed_world. simpl. rewrite lookup_snoc. simpl.
  unfold cleanup, settle. simpl. rewrite lookup_snoc. simpl.
  rewrite alter_snoc. simpl. split; [apply lookup_snoc|]. split; [|done].
  rewrite !list_alter_alter_eq. apply list_eq. intros i.
  rewrite list_lookup_alter. case_decide; [subst i|done].
  destruct (sockets w !! sid) as [s|] eqn:Hs; [simpl|done]. f_equal.
  destruct s as [u wal ls em co]. simpl. f_equal.
  assert (∀ ev h, handler_call h = Some (length (calls w)) -> (ev, h) ∉ ls) as Hfresh.
  { intros ev h Hcall. by apply (fresh_call_listener w sid _ ev h Hwf Hs). }
  unfold call_listeners. simpl.
  rewrite remove_first_app_fresh by (by apply Hfresh).
  rewrite remove_first_app_fresh by (by apply Hfresh).
  rewrite (remove_first_app_fresh _ ls []) by (by apply Hfresh).
  apply app_nil_r.
Qed.

Lemma invalid_senderId_leaves_timer_armed_witness :
  let w' := (swapTransactionRequest (JStr "") swapObj authenticated_world).2 in
  (promise <$> calls w' !! 0%nat)
  = Some (Rejected (Error "Invalid senderId provided - must be a valid account ID string"))
  ∧ (hasResolved <$> calls w' !! 0%nat) = Some false
  ∧ timers w' = [mkTimer 0 30000 0].
Proof.
  intros w'.
  destruct (invalid_senderId_leaves_timer_armed (JStr "") swapObj authenticated_world 0)
    as (Hc & _ & Ht).
  - vm_compute. repeat split; repeat constructor.
  - reflexivity.
  - left. reflexivity.
  - subst w'. change ((swapTransactionRequest (JStr "") swapObj authenticated_world).1)
      with 0%nat in *.
    rewrite Hc, Ht. repeat split.
Defined.

(** The timer left behind fires 30 s later: only then is [hasResolved] set,
    and [originalReject] is called a second time. *)
Lemma stale_timer_fires_after_rejection :
  let w' := (swapTransactionRequest (JStr "") swapObj authenticated_world).2 in
  calls (@run toy_platform w' [Elapse 30000])
  = [mkCall SwapRequest (Some 0%nat) true (Some 0%nat) true
       (Rejected (Error "Invalid senderId provided - must be a valid account ID string")) 2].
Proof. vm_compute. reflexivity. Qed.

(** An ['error'] event without an argument: [error.message] throws inside
    [errorHandler] after [hasResolved] was set and the timer cleared, so the
    call is never settled and its listeners stay. *)
Lemma error_event_without_argument_strands_the_call :
  let w := (swapTransactionRequest (JStr "0.0.5") swapObj authenticated_world).2 in
  let w' := @run toy_platform w [Incoming 0 "error" JUndefined; Elapse 30000;
                                 Incoming 0 "swapPoolRequest"
                                   (JObj [("status", JStr "success"); ("payload", JStr "tx")])] in
  promise <$> calls w' !! 0%nat = Some Pending
  ∧ timers w' = []
  ∧ (drop 5 ∘ listeners) <$> sockets w' !! 0%nat = Some (call_listeners SwapRequest 0).
Proof. vm_compute. repeat split. Qed.

(** ** Every reachable store is well formed *)

Lemma wf_empty : wf empty_world.
Proof. repeat split; constructor. Qed.

Lemma handler_allocated_mono (w w' : World) (h : Handler) :
  (length (calls w) <= length (calls w'))%nat ->
  (length (auths w) <= length (auths w'))%nat ->
  handler_allocated w h -> handler_allocated w' h.
Proof. intros Hc Ha. destruct h; simpl; lia. Qed.

(** A store that only grows stays well formed if what is new is allocated. *)
Lemma wf_grow (w w' : World) :
  wf w ->
  (length (calls w) <= length (calls w'))%nat ->
  (length (auths w) <= length (auths w'))%nat ->
  (next_timer w <= next_timer w')%nat ->
  (∀ sid s' x, sockets w' !! sid = Some s' -> x ∈ listeners s' ->
               (∃ sid0 s, sockets w !! sid0 = Some s ∧ x ∈ listeners s)
               ∨ handler_allocated w' x.2) ->
  (∀ t, t ∈ timers w' ->
        t ∈ timers w ∨ ((t_id t < next_timer w')%nat ∧ (t_call t < length (calls w'))%nat)) ->
  (∀ c cl', calls w' !! c = Some cl' ->
            (∃ c0 cl, calls w !! c0 = Some cl ∧ timeout cl' = timeout cl)
            ∨ from_option (fun tid => (tid < next_timer w')%nat) True (timeout cl')) ->
  wf w'.
Proof.
  intros Hwf Hlc Hla Hnt Hls Hts Hcs. pose proof Hwf as (Hwl & Hwt & Hwc).
  split; [|split].
  - apply Forall_lookup. intros sid s' Hs'. apply Forall_forall. intros [ev h] Hx.
    destruct (Hls _ _ _ Hs' Hx) as [(sid0 & s & Hs & Hin)|Hnew]; [|done].
    eapply handler_allocated_mono; [done..|]. by eapply wf_listener.
  - apply Forall_forall. intros t Ht.
    destruct (Hts _ Ht) as [Hold|Hnew]; [|done].
    rewrite Forall_forall in Hwt. destruct (Hwt _ Hold). lia.
  - apply Forall_lookup. intros c cl' Hcl'.
    destruct (Hcs _ _ Hcl') as [(c0 & cl & Hcl & Heq)|Hnew]; [|done].
    rewrite Forall_lookup in Hwc. specialize (Hwc _ _ Hcl). rewrite Heq.
    destruct (timeout cl); simpl in *; [lia|done].
Qed.

Lemma calls_rel_length (C : nat -> Prop) (l l' : list Call) :
  calls_rel C l l' -> length l' = length l.
Proof.
  intros Hrel. apply Nat.le_antisymm.
  - apply Nat.nlt_ge. intros Hlt. apply lookup_lt_is_Some in Hlt as [cl' Hcl'].
    specialize (Hrel (length l)). rewrite (lookup_ge_None_2 l (length l)) in Hrel by lia.
    congruence.
  - apply Nat.nlt_ge. intros Hlt. apply lookup_lt_is_Some in Hlt as [cl Hcl].
    specialize (Hrel (length l')). rewrite Hcl in Hrel. destruct Hrel as (cl' & Hcl' & _).
    apply lookup_lt_Some in Hcl'. lia.
Qed.

Lemma auths_rel_length (A : nat -> Prop) (l l' : list Auth) :
  auths_rel A l l' -> length l' = length l.
Proof.
  intros Hrel. apply Nat.le_antisymm.
  - apply Nat.nlt_ge. intros Hlt. apply lookup_lt_is_Some in Hlt as [au' Hau'].
    specialize (Hrel (length l)). rewrite (lookup_ge_None_2 l (length l)) in Hrel by lia.
    congruence.
  - apply Nat.nlt_ge. intros Hlt. apply lookup_lt_is_Some in Hlt as [au Hau].
    specialize (Hrel (length l')). rewrite Hau in Hrel. destruct Hrel as (au' & Hau' & _).
    apply lookup_lt_Some in Hau'. lia.
Qed.

Lemma wf_effect (C A : nat -> Prop) (w w' : World) : wf w -> effect C A w w' -> wf w'.
Proof.
  intros Hwf (Hc & Ha & Hl & Ht & _ & _ & Hn & _).
  apply (wf_grow w w' Hwf).
  - by rewrite (calls_rel_length _ _ _ Hc).
  - by rewrite (auths_rel_length _ _ _ Ha).
  - by rewrite Hn.
  - intros sid s' x Hs' Hx. left. destruct (Hl _ _ _ Hs' Hx) as (s & Hs & Hin). eauto.
  - intros t Hin. left. by apply Ht.
  - intros c cl' Hcl'. left.
    destruct (calls_rel_lookup_r _ _ _ _ _ Hc Hcl') as (cl & Hcl & (_ & _ & Hto & _) & _).
    eauto.
Qed.

Lemma wf_step `{Platform} (w : World) (e : Event) : wf w -> wf (step w e).
Proof.
  intros Hwf. destruct e as [sid event arg|ms].
  - destruct (step_incoming w sid event arg) as (w0 & -> & Heff).
    eapply (wf_effect (fun _ => True) (fun _ => True)).
    + eapply wf_effect; [exact Hwf|apply (Heff (fun _ => True) (fun _ => True))].
    + apply effect_run_listeners; done.
  - cbn [step]. unfold fire_timers. store.
    match goal with
    | |- wf (foldl _ ?W ?L) => apply (wf_effect (fun _ => True) (fun _ => True) W)
    end.
    + apply (wf_grow w); store; try done.
      * intros sid s' x Hs' Hx. left. eauto.
      * intros t Hin. left. apply list_elem_of_filter in Hin. tauto.
      * intros c cl' Hcl'. left. eauto.
    + apply effect_fold_timeouts. done.
Qed.

Lemma wf_run `{Platform} (w : World) (trace : list Event) : wf w -> wf (run w trace).
Proof.
  revert w. induction trace as [|e trace IH]; intros w Hwf; [done|].
  apply IH. by apply wf_step.
Qed.

Lemma wf_await_connection (a : nat) (w : World) : wf w -> wf (await_connection a w).
Proof.
  intros Hwf. unfold await_connection. destruct (auths w !! a) as [au|]; [|done].
  by destruct (a_promise au).
Qed.

Lemma effect_catch_init (C A : nat -> Prop) c error w :
  C c -> effect C A w (catch_init c error w).
Proof.
  intros HC. unfold catch_init. destruct (calls w !! c) as [cl|] eqn:Hcl; [|apply effect_refl].
  destruct (hasResolved cl); [apply effect_refl|].
  eapply effect_trans; [by eapply effect_mark_and_clear|].
  destruct (get_prop error "message") as [m|exn]; [|apply effect_report_uncaught].
  destruct (ToString m); [by apply effect_call_settle|apply effect_report_uncaught].
Qed.

Lemma wf_open_call (o : Op) (w : World) : wf w -> wf (open_call o w).2.
Proof.
  intros Hwf. unfold open_call. cbn [snd].
  apply (wf_grow w); store; try done.
  - rewrite length_app. lia.
  - intros sid s' x Hs' Hx. left. eauto.
  - intros t Hin. by left.
  - intros c cl' Hcl'. apply lookup_app_Some in Hcl' as [Hcl'|[_ Hcl']]; [left; eauto|].
    apply list_lookup_singleton_Some in Hcl' as [_ <-]. by right.
Qed.

Lemma wf_arm (o : Op) (c : nat) (w : World) :
  wf w -> (c < length (calls w))%nat -> wf (arm o c w).2.
Proof.
  intros Hwf Hc. unfold arm. destruct (socketConnection w) as [conn|]; [|done].
  pose proof (effect_getSocket (fun _ => True) (fun _ => True) (c_nodeSocket conn)
                "gateway" w) as Heff.
  destruct (getSocket (c_nodeSocket conn) "gateway" w) as [[sid|e] w2]; cbn [snd] in *.
  2: { by eapply wf_effect. }
  pose proof (wf_effect _ _ _ _ Hwf Heff) as Hwf2.
  assert (length (calls w2) = length (calls w)) as Hlen
    by (destruct Heff as (Hrel & _); by apply calls_rel_length in Hrel).
  apply (wf_grow w2); store; try done.
  - by rewrite !length_alter.
  - lia.
  - intros sid' s' x Hs' Hx. rewrite !list_alter_alter_eq, list_lookup_alter in Hs'.
    case_decide as Hsid; [subst sid'|left; eauto].
    destruct (sockets w2 !! sid) as [s|] eqn:Hs; [|done].
    injection Hs' as <-. unfold compose in Hx. fields in Hx.
    rewrite !elem_of_app in Hx. rewrite !list_elem_of_singleton in Hx.
    destruct Hx as [[[Hold| ->]| ->]| ->]; [left; eauto|right..];
      cbn [snd handler_allocated]; store; rewrite !length_alter; lia.
  - intros t Hin. apply elem_of_app in Hin as [Hin|Hin]; [by left|right].
    apply list_elem_of_singleton in Hin as ->. fields. rewrite !length_alter. lia.
  - intros c' cl' Hcl'. rewrite !list_alter_alter_eq, list_lookup_alter in Hcl'.
    case_decide as Hc'; [subst c'|left; eauto].
    destruct (calls w2 !! c) as [cl|]; [|done]. injection Hcl' as <-.
    right. unfold compose. fields. simpl. lia.
Qed.

Lemma wf_send (r : Request) (w : World) : wf w -> wf (send r w).2.
Proof.
  intros Hwf.
  assert (∀ o, wf (arm o (length (calls w)) (open_call o w).2).2) as Harm.
  { intros o. apply wf_arm; [by apply wf_open_call|].
    unfold open_call. store. rewrite length_app. simpl. lia. }
  destruct r as [senderId swap|tx]; cbn [send].
  - unfold swapTransactionRequest. specialize (Harm SwapRequest).
    destruct (open_call SwapRequest w) as [c w1] eqn:Hopen.
    injection Hopen as <- <-. cbn [snd] in *.
    destruct (arm SwapRequest _ _) as [[sid|e] w2]; cbn [snd] in *.
    + repeat case_match;
        eapply (wf_effect (fun _ => True) (fun _ => True)); try exact Harm;
        first [by apply effect_call_settle | apply effect_socket_emit].
    + eapply (wf_effect (fun _ => True) (fun _ => True)); [exact Harm|].
      by apply effect_catch_init.
  - unfold swapTransactionExecute. specialize (Harm SwapExecute).
    destruct (open_call SwapExecute w) as [c w1] eqn:Hopen.
    injection Hopen as <- <-. cbn [snd] in *.
    destruct (arm SwapExecute _ _) as [[sid|e] w2]; cbn [snd] in *.
    + repeat case_match; try exact Harm;
        eapply (wf_effect (fun _ => True) (fun _ => True)); try exact Harm;
        first [by apply effect_call_settle | apply effect_socket_emit
              | by apply effect_catch_init].
    + eapply (wf_effect (fun _ => True) (fun _ => True)); [exact Harm|].
      by apply effect_catch_init.
Qed.

Lemma wf_socket_on (sid : nat) (event : string) (h : Handler) (w : World) :
  wf w -> handler_allocated w h -> wf (socket_on sid event h w).
Proof.
  intros Hwf Hh. apply (wf_grow w); store; try done.
  - intros sid' s' x Hs' Hx. rewrite list_lookup_alter in Hs'.
    case_decide as Hsid; [subst sid'|left; eauto].
    destruct (sockets w !! sid) as [s|] eqn:Hs; [|done].
    injection Hs' as <-. fields in Hx.
    apply elem_of_app in Hx as [Hold|Hnew]; [left; eauto|right].
    apply list_elem_of_singleton in Hnew as ->. exact Hh.
  - intros t Hin. by left.
  - intros c cl' Hcl'. left. eauto.
Qed.

Lemma wf_on_gateway `{Platform} (a ns : nat) (event : string) (h : Handler) (w : World) :
  handler_auth h = Some a ∨ h ∈ [connectLogger a; disconnectLogger a; errorsLogger a] ->
  wf w ∧ (a < length (auths w))%nat ->
  wf (on_gateway ns event h w).2 ∧ (a < length (auths (on_gateway ns event h w).2))%nat.
Proof.
  intros Hh [Hwf Ha]. unfold on_gateway.
  pose proof (effect_getSocket (fun _ => True) (fun _ => True) ns "gateway" w) as Heff.
  destruct (getSocket ns "gateway" w) as [[sid|e] w1]; cbn [snd] in *.
  - assert (length (auths w1) = length (auths w)) as Hlen
      by (destruct Heff as (_ & Hrel & _); by apply auths_rel_length in Hrel).
    split; [|store; lia]. apply wf_socket_on; [by eapply wf_effect|].
    destruct Hh as [Hh|Hh].
    + destruct h; simplify_eq/=; lia.
    + rewrite !elem_of_cons in Hh.
      destruct Hh as [->|[->|[->|Hnil]]]; [simpl; lia..|by apply elem_of_nil in Hnil].
  - split; [by eapply wf_effect|].
    destruct Heff as (_ & Hrel & _). apply auths_rel_length in Hrel. lia.
Qed.

Lemma wf_and_then (P : World -> Prop) (m k : World -> Completion unit * World) (w : World) :
  (∀ w, P w -> P (m w).2) -> (∀ w, P w -> P (k w).2) -> P w -> P (and_then m k w).2.
Proof.
  intros Hm Hk Hw. unfold and_then. specialize (Hm w Hw).
  destruct (m w) as [[[]|e] w1]; cbn [snd] in *; [by apply Hk|done].
Qed.

Lemma wf_smartNodeSocketOn `{Platform} (cat : Catalog) (network : string) (random : Q)
      (w : World) :
  wf w -> wf (smartNodeSocketOn cat network random w).2.
Proof.
  intros Hwf. unfold smartNodeSocketOn. cbn [snd].
  set (a := length (auths w)).
  set (w0 := with_auths (fun l => l ++ [mkAuth network None AuthPending]) w).
  assert (wf w0) as Hwf0.
  { apply (wf_grow w); subst w0; store; try done.
    - rewrite length_app. lia.
    - intros sid s' x Hs' Hx. left. eauto.
    - intros t Hin. by left.
    - intros c cl' Hcl'. left. eauto. }
  assert (a < length (auths w0))%nat as Ha0
    by (subst w0 a; store; rewrite length_app; simpl; lia).
  destruct (selectNode cat network random) as [[randomNode|]|e];
    try (eapply (wf_effect (fun _ => True) (fun _ => True));
         [exact Hwf0|by apply effect_auth_settle]).
  destruct (operator_prop network id "id") as [account|e];
    try (eapply (wf_effect (fun _ => True) (fun _ => True));
         [exact Hwf0|by apply effect_auth_settle]).
  unfold new_SmartNodeSocket, set_a_nodeSocket.
  set (ns := length (nodeSockets w0)).
  set (w1 := with_auths _ (with_nodeSockets _ w0)).
  assert (wf w1 ∧ (a < length (auths w1))%nat) as Hw1.
  { split.
    - apply (wf_grow w0); subst w1; store; try done.
      + by rewrite length_alter.
      + intros sid s' x Hs' Hx. left. eauto.
      + intros t Hin. by left.
      + intros c cl' Hcl'. left. eauto.
    - subst w1. store. by rewrite length_alter. }
  match goal with
  | |- wf (match ?M w1 with _ => _ end) =>
      assert (wf (M w1).2 ∧ (a < length (auths (M w1).2))%nat) as [Hwf2 _]
  end.
  { set (P := fun w => wf w ∧ (a < length (auths w))%nat).
    assert (∀ h event, h ∈ [connectLogger a; disconnectLogger a; errorsLogger a] ->
                       ∀ w', P w' -> P (on_gateway ns event h w').2) as Hlog
      by (intros h event Hh w' Hw'; apply wf_on_gateway; [by right|exact Hw']).
    assert (∀ h event, handler_auth h = Some a ->
                       ∀ w', P w' -> P (on_gateway ns event h w').2) as Hauth
      by (intros h event Hh w' Hw'; apply wf_on_gateway; [by left|exact Hw']).
    apply (wf_and_then P); [apply Hlog; rewrite !elem_of_cons; auto| |exact Hw1].
    intros w2 Hw2.
    apply (wf_and_then P); [apply Hlog; rewrite !elem_of_cons; auto| |exact Hw2].
    intros w3 Hw3.
    apply (wf_and_then P); [apply Hlog; rewrite !elem_of_cons; auto| |exact Hw3].
    intros w4 Hw4.
    apply (wf_and_then P); [by apply Hauth|by apply Hauth|exact Hw4]. }
  match goal with
  | |- wf (match ?M w1 with _ => _ end) => destruct (M w1) as [[[]|e] w2]
  end; cbn [snd] in *; [done|].
  eapply (wf_effect (fun _ => True) (fun _ => True)); [exact Hwf2|by apply effect_auth_settle].
Qed.

(** The stores a program can reach from the empty one are well formed. *)
Lemma wf_reachable `{Platform} (acts : list Action) : wf (foldl perform empty_world acts).
Proof.
  assert (∀ w, wf w -> wf (foldl perform w acts)) as Hall.
  { induction acts as [|act acts IH]; intros w Hwf; [done|]. apply IH.
    destruct act; cbn [perform].
    - unfold smartNodeSocket. by apply wf_smartNodeSocketOn.
    - by apply wf_await_connection.
    - by apply wf_send.
    - by apply wf_step. }
  apply Hall, wf_empty.
Qed.

(** ** Every reachable store is consistent *)

(** Code that leaves calls, timers and the clock alone, keeps the listeners
    of every call where they are and opens sockets without listeners. *)
Lemma consistent_frame (D : nat -> Prop) (w w' : World) :
  consistent_but D w ->
  calls w' = calls w -> timers w' = timers w -> now w' = now w ->
  (∀ sid s, sockets w !! sid = Some s ->
     ∃ s', sockets w' !! sid = Some s'
           ∧ ∀ c, filter (of_call c) (listeners s') = filter (of_call c) (listeners s)) ->
  (∀ sid s', sockets w' !! sid = Some s' -> sockets w !! sid = None ->
     ∀ c, filter (of_call c) (listeners s') = []) ->
  (∀ ns o sid, nodeSockets w' !! ns = Some o -> socket o = Some sid ->
     is_Some (sockets w' !! sid)) ->
  consistent_but D w'.
Proof.
  intros [Hids Hdue Hns Hcalls] Hc Ht Hn Hkeep Hnew Hns'.
  constructor.
  - by rewrite Ht.
  - intros t Hin. rewrite Ht in Hin. rewrite Hn. by apply Hdue.
  - exact Hns'.
  - intros c cl Hcl. rewrite Hc in Hcl. destruct (Hcalls c cl Hcl) as [Hl Hs Hw Htm Ha Hacc].
    constructor; try done.
    + intros sid s' Hs'. destruct (sockets w !! sid) as [s|] eqn:Hsw.
      * destruct (Hkeep sid s Hsw) as (s'' & Hs'' & Hf). simplify_eq. rewrite Hf. by eapply Hl.
      * rewrite (Hnew sid s' Hs' Hsw). case_decide as Hlis; [|done].
        destruct Hlis as (_ & _ & Hsock). apply Hs in Hsock. rewrite Hsw in Hsock.
        by destruct Hsock.
    + intros sid Hsock. destruct (Hs sid Hsock) as [s Hsw].
      destruct (Hkeep sid s Hsw) as (s' & -> & _). eauto.
    + intros t Hin. rewrite Ht in Hin. by apply Htm.
    + intros Hres. destruct (Ha Hres) as [Hwr Htimer]. split; [done|]. by rewrite Ht.
Qed.

Lemma consistent_same (D : nat -> Prop) (w w' : World) :
  consistent_but D w ->
  sockets w' = sockets w -> nodeSockets w' = nodeSockets w ->
  calls w' = calls w -> timers w' = timers w -> now w' = now w ->
  consistent_but D w'.
Proof.
  intros Hw Hs Hns Hc Ht Hn. apply (consistent_frame D w); try done.
  - intros sid s Hsw. exists s. by rewrite Hs.
  - intros sid s' Hs' Hnone. congruence.
  - intros ns o sid Hns' Hsock. rewrite Hs. rewrite Hns in Hns'.
    by eapply (socket_ids D w Hw).
Qed.

Lemma consistent_alter_socket (D : nat -> Prop) (f : Socket -> Socket) (sid : nat) (w : World) :
  (∀ s c, filter (of_call c) (listeners (f s)) = filter (of_call c) (listeners s)) ->
  consistent_but D w -> consistent_but D (with_sockets (alter f sid) w).
Proof.
  intros Hf Hw. apply (consistent_frame D w); try done; store.
  - intros sid' s Hs. rewrite list_lookup_alter. case_decide; subst; rewrite Hs; simpl; eauto.
  - intros sid' s' Hs' Hnone. rewrite list_lookup_alter in Hs'.
    case_decide; subst; rewrite Hnone in Hs'; done.
  - intros ns o sid' Hns Hsock. rewrite list_lookup_alter.
    destruct (socket_ids D w Hw ns o sid' Hns Hsock) as [s Hs].
    case_decide; subst; rewrite Hs; simpl; eauto.
Qed.

Lemma consistent_socket_emit (D : nat -> Prop) sid event payload w :
  consistent_but D w -> consistent_but D (socket_emit sid event payload w).
Proof. by apply consistent_alter_socket. Qed.

Lemma consistent_set_connected (D : nat -> Prop) sid b w :
  consistent_but D w -> consistent_but D (set_connected sid b w).
Proof. by apply consistent_alter_socket. Qed.

Lemma consistent_socket_on (D : nat -> Prop) sid event h w :
  handler_call h = None -> consistent_but D w -> consistent_but D (socket_on sid event h w).
Proof.
  intros Hh. apply consistent_alter_socket. intros s c. fields.
  rewrite filter_app, filter_cons_False, filter_nil, app_nil_r; [done|].
  unfold of_call. simpl. by rewrite Hh.
Qed.

Lemma consistent_report_uncaught (D : nat -> Prop) e w :
  consistent_but D w -> consistent_but D (report_uncaught e w).
Proof. intros Hw. by apply (consistent_same D w). Qed.

Lemma consistent_auth_settle `{Platform} (D : nat -> Prop) a outcome w :
  consistent_but D w -> consistent_but D (auth_settle a outcome w).
Proof. intros Hw. by apply (consistent_same D w). Qed.

Lemma getSocket_throws (ns : nat) (path : string) (w w' : World) (e : JsVal) :
  getSocket ns path w = (Throw e, w') -> w' = w.
Proof.
  unfold getSocket, init. destruct (nodeSockets w !! ns) as [o|]; [|congruence].
  destruct (socket o); [congruence|]. destruct (node o); [|congruence].
  unfold io. cbn [fst snd]. congruence.
Qed.

Lemma consistent_getSocket (D : nat -> Prop) ns path w :
  consistent_but D w ->
  consistent_but D (getSocket ns path w).2
  ∧ ∀ sid, (getSocket ns path w).1 = Normal sid -> is_Some (sockets (getSocket ns path w).2 !! sid).
Proof.
  intros Hw. unfold getSocket. destruct (nodeSockets w !! ns) as [o|] eqn:Hns; [|done].
  destruct (socket o) as [sid0|] eqn:Hsock.
  { split; [done|]. cbn [fst snd]. intros sid [= <-]. by eapply (socket_ids D w Hw). }
  unfold init. rewrite Hns. destruct (node o) as [n|]; [|done].
  unfold io. cbn [fst snd]. store. split.
  - apply (consistent_frame D w); try done; store.
    + intros sid s Hs. exists s. split; [by apply lookup_app_l_Some|done].
    + intros sid s' Hs' Hnone. apply lookup_app_Some in Hs' as [Hs'|[_ Hs']]; [congruence|].
      apply list_lookup_singleton_Some in Hs' as [_ <-]. done.
    + intros ns' o' sid Hns' Hs. rewrite list_lookup_alter in Hns'.
      case_decide; subst.
      * rewrite Hns in Hns'. simplify_eq/=. rewrite lookup_snoc. eauto.
      * destruct (socket_ids D w Hw ns' o' sid Hns' Hs) as [s Hsw].
        exists s. by apply lookup_app_l_Some.
  - intros sid [= <-]. rewrite lookup_snoc. eauto.
Qed.

Lemma consistent_on_verdict `{Platform} (D : nat -> Prop) a event w :
  consistent_but D w -> consistent_but D (on_verdict a event w).
Proof.
  intros Hw. unfold on_verdict.
  destruct (auths w !! a) as [[network [ns|] p]|]; try done.
  destruct (get_prop event "isValidSignature") as [valid|e],
    (operator_prop network id "id") as [account|e'],
    (node_operator ns w); try by apply consistent_report_uncaught.
  destruct (ToString account); [|by apply consistent_report_uncaught].
  destruct (truthy valid); by apply consistent_auth_settle.
Qed.

Lemma consistent_on_challenge `{Platform} (D : nat -> Prop) a event w :
  consistent_but D w -> consistent_but D (on_challenge a event w).
Proof.
  intros Hw. unfold on_challenge.
  destruct (auths w !! a) as [[network [ns|] p]|]; try done.
  assert (∀ e w', consistent_but D w' ->
            consistent_but D
              match get_prop e "message" with
              | Normal m =>
                  match ToString m with
                  | Normal text =>
                      auth_settle a
                        (AuthRejected (Error ("Authentication process failed: " +:+ text)))
                        w'
                  | Throw exn => report_uncaught exn w'
                  end
              | Throw exn => report_uncaught exn w'
              end) as Hfailed.
  { intros e w' Hw'.
    destruct (get_prop e "message") as [m|exn]; [|by apply consistent_report_uncaught].
    destruct (ToString m);
      [by apply consistent_auth_settle | by apply consistent_report_uncaught]. }
  destruct (node_operator ns w), (challenge_payload event) as [[payload|]|];
    try done; try (by apply Hfailed).
  destruct (sign_payload network payload), (operator_prop network id "id");
    try (by apply Hfailed).
  destruct (consistent_getSocket D ns "gateway" w Hw) as [Hget _].
  destruct (getSocket ns "gateway" w) as [[sid|e] w1]; cbn [snd] in Hget.
  - by apply consistent_socket_emit.
  - by apply Hfailed.
Qed.

(** *** Lists *)

Lemma NoDup_fmap_inj {A B} (f : A -> B) (l : list A) (x y : A) :
  NoDup (f <$> l) -> x ∈ l -> y ∈ l -> f x = f y -> x = y.
Proof.
  induction l as [|z l IH]; intros Hnd Hx Hy Heq; [by apply elem_of_nil in Hx|].
  rewrite fmap_cons in Hnd. apply NoDup_cons in Hnd as [Hz Hnd].
  apply elem_of_cons in Hx as [->|Hx]; apply elem_of_cons in Hy as [->|Hy]; auto.
  - exfalso. apply Hz. rewrite Heq. by apply list_elem_of_fmap_2.
  - exfalso. apply Hz. rewrite <- Heq. by apply list_elem_of_fmap_2.
Qed.

Lemma remove_first_notin (x : string * Handler) (l : list (string * Handler)) :
  x ∉ l -> remove_first x l = l.
Proof.
  induction l as [|y l IH]; intros Hx; simpl; [done|].
  rewrite decide_False by set_solver. f_equal. apply IH. set_solver.
Qed.

(** Unregistering the first of one's registrations. *)
Lemma remove_first_retire (P : string * Handler -> Prop) `{∀ x, Decision (P x)}
      (x : string * Handler) (l : list (string * Handler)) :
  P x -> (filter P l = [] ∨ ∃ rest, filter P l = x :: rest) ->
  filter P (remove_first x l) = tail (filter P l).
Proof.
  intros Hx [Hnil|[rest Hcons]].
  - rewrite remove_first_notin; [by rewrite Hnil|].
    intros Hin. assert (x ∈ filter P l) as Hf by (by apply list_elem_of_filter).
    rewrite Hnil in Hf. by apply elem_of_nil in Hf.
  - revert Hcons. induction l as [|y l IH]; intros Hcons; [done|]. simpl.
    destruct (decide (P y)) as [Hy|Hy].
    + rewrite filter_cons_True in Hcons by done. injection Hcons as -> Hrest.
      rewrite decide_True by done. by rewrite filter_cons_True.
    + rewrite filter_cons_False in Hcons by done.
      rewrite decide_False by (intros ->; done).
      rewrite !filter_cons_False by done. by apply IH.
Qed.

(** *** The guard, the timer and the settlement of one call *)

Lemma consistent_but_change (D D' : nat -> Prop) (w : World) :
  consistent_but D w ->
  (∀ c cl, calls w !! c = Some cl -> hasResolved cl = false -> (D c ↔ D' c)) ->
  (∀ c t, D' c -> t ∈ timers w -> t_call t ≠ c) ->
  consistent_but D' w.
Proof.
  intros [Hids Hdue Hns Hcalls] Hiff Hfree. constructor; try done.
  intros c cl Hcl. destruct (Hcalls c cl Hcl) as [Hl Hs Hw Htm Ha Hacc].
  constructor; try done.
  - intros t Hin Hcall. destruct (Htm t Hin Hcall) as (_ & Hres & Hto).
    split; [|done]. intros HD. by apply (Hfree c t HD Hin).
  - intros Hres. destruct (Ha Hres) as [Hwr [HD|Ht]]; [|by auto].
    split; [done|]. left. by apply (Hiff c cl Hcl Hres).
Qed.

Lemma clearTimeout_set_hasResolved (h : option nat) (c : nat) (w : World) :
  clearTimeout h (set_hasResolved c w) = set_hasResolved c (clearTimeout h w).
Proof. by destruct h. Qed.

(** [clearTimeout(timeout)] by a call whose guard is not set takes its own
    timer, and only that one, off the queue. *)
Lemma consistent_clearTimeout (c : nat) (cl : Call) (w : World) :
  consistent w -> calls w !! c = Some cl -> hasResolved cl = false ->
  consistent_but (fun c' => c' = c) (clearTimeout (timeout cl) w).
Proof.
  intros Hw Hcl Hres. pose proof Hw as [Hids Hdue Hns Hcalls].
  destruct (ok_armed _ _ _ _ (Hcalls c cl Hcl) Hres) as [_ [[]|(t0 & Ht0 & Hcall0)]].
  destruct (ok_timer _ _ _ _ (Hcalls c cl Hcl) t0 Ht0 Hcall0) as (_ & _ & Hto).
  rewrite Hto. unfold clearTimeout. constructor; store.
  - eapply sublist_NoDup; [exact Hids|]. apply fmap_sublist, sublist_filter.
  - intros t Hin. apply list_elem_of_filter in Hin as [_ Hin]. by apply Hdue.
  - exact Hns.
  - intros c' cl' Hcl'. destruct (Hcalls c' cl' Hcl') as [Hl Hs Hwr Htm Ha Hacc].
    constructor; try done; store.
    + intros t Hin Hcall. apply list_elem_of_filter in Hin as [Hne Hin].
      destruct (Htm t Hin Hcall) as (_ & Hres' & Hto'). split; [|done].
      intros ->; simplify_eq; congruence.
    + intros Hres'. destruct (Ha Hres') as [Hwr' [[]|(t & Hin & Hcall)]].
      split; [done|]. destruct (decide (c' = c)) as [->|Hne]; [by left|right].
      exists t. split; [|done]. apply list_elem_of_filter. split; [|done].
      intros Heq. apply Hne. rewrite <- Hcall, <- Hcall0. f_equal.
      by apply (NoDup_fmap_inj t_id (timers w)).
Qed.

(** [hasResolved = true] on a call whose timer is off the queue. *)
Lemma consistent_set_hasResolved (D : nat -> Prop) (c : nat) (w : World) :
  consistent_but D w -> D c ->
  consistent_but (fun c' => D c' ∧ c' ≠ c) (set_hasResolved c w).
Proof.
  intros [Hids Hdue Hns Hcalls] HD. constructor; try done; store.
  intros c' cl' Hcl'. rewrite list_lookup_alter in Hcl'.
  case_decide as Hc; [subst c'|].
  - destruct (calls w !! c) as [cl|] eqn:Hcl; simplify_eq/=.
    destruct (Hcalls c cl Hcl) as [Hl Hs Hwr Htm Ha Hacc].
    constructor; store; fields; try done.
    + intros t Hin Hcall. by destruct (Htm t Hin Hcall) as (HnD & _).
    + destruct Hacc as [(? & ?)|[(? & ? & _)|(? & ? & _)]];
        [left|right; left|right; right]; fields; auto.
  - destruct (Hcalls c' cl' Hcl') as [Hl Hs Hwr Htm Ha Hacc].
    constructor; store; try done.
    + intros t Hin Hcall. destruct (Htm t Hin Hcall) as (HnD & ? & ?).
      split; [|done]. intros [? _]. done.
    + intros Hres. destruct (Ha Hres) as [? [?|?]]; auto.
Qed.

Lemma sockets_cleanup (c : nat) (cl : Call) (sid : nat) (w : World) :
  calls w !! c = Some cl -> c_socket cl = Some sid ->
  sockets (cleanup c w)
  = alter (fun s => mkSocket (s_url s) (s_wallet s)
                      (remove_first ("disconnect", disconnectHandler c)
                         (remove_first ("error", errorHandler c)
                            (remove_first (op_event (c_op cl), responseHandler c)
                               (listeners s))))
                      (emitted s) (connected s)) sid (sockets w).
Proof.
  intros Hcl Hsock. unfold cleanup. rewrite Hcl, Hsock. store.
  rewrite !list_alter_alter_eq. by apply list_alter_ext.
Qed.

Lemma cleanup_same (c : nat) (w : World) :
  calls (cleanup c w) = calls w ∧ timers (cleanup c w) = timers w
  ∧ now (cleanup c w) = now w ∧ nodeSockets (cleanup c w) = nodeSockets w.
Proof.
  unfold cleanup. destruct (calls w !! c) as [cl|]; [|done]. by destruct (c_socket cl).
Qed.

(** After [cleanup] none of the call's listeners is registered anywhere, and
    the listeners of the other calls are where they were. *)
Lemma cleanup_listeners (D : nat -> Prop) (c : nat) (cl : Call) (w : World) :
  consistent_but D w -> calls w !! c = Some cl ->
  let w1 := if wrapped cl then cleanup c w else w in
  ∀ sid s1, sockets w1 !! sid = Some s1 ->
    ∃ s, sockets w !! sid = Some s
         ∧ (promise cl ≠ Pending ∨ wrapped cl = true -> filter (of_call c) (listeners s1) = [])
         ∧ ∀ c', c' ≠ c -> filter (of_call c') (listeners s1) = filter (of_call c') (listeners s).
Proof.
  intros Hw Hcl w1 sid s1 Hs1. pose proof (calls_ok D w Hw c cl Hcl) as [Hl Hs Hwr _ _ _].
  assert (∀ s, sockets w !! sid = Some s -> ¬ listening cl sid ->
               filter (of_call c) (listeners s) = []) as Hquiet.
  { intros s Hsw Hno. rewrite (Hl sid s Hsw). by rewrite decide_False. }
  subst w1. destruct (wrapped cl) eqn:Hwrapped.
  2: { exists s1. split; [done|]. split; [|done]. intros [Hp|?]; [|done].
       apply Hquiet; [done|]. by intros (? & _). }
  destruct (Hwr eq_refl) as [sid0 Hsock].
  rewrite (sockets_cleanup c cl sid0 w Hcl Hsock), list_lookup_alter in Hs1.
  case_decide as Hsid; [subst sid|].
  2: { exists s1. split; [done|]. split; [|done]. intros _.
       apply Hquiet; [done|]. intros (_ & _ & Hsock'). congruence. }
  destruct (sockets w !! sid0) as [s|] eqn:Hsw; simplify_eq/=.
  exists s. split; [done|]. split.
  - intros _. specialize (Hl sid0 s Hsw). unfold call_listeners in Hl.
    assert (∀ ev h, handler_call h = Some c -> of_call c (ev, h)) as Hmine by done.
    case_decide.
    + rewrite (remove_first_retire (of_call c)); [|by apply Hmine|right].
      * rewrite (remove_first_retire (of_call c)); [|by apply Hmine|right].
        -- rewrite (remove_first_retire (of_call c)); [|by apply Hmine|right; eauto].
           by rewrite Hl.
        -- rewrite (remove_first_retire (of_call c)); [|by apply Hmine|right; eauto].
           rewrite Hl. eauto.
      * rewrite (remove_first_retire (of_call c)); [|by apply Hmine|right].
        -- rewrite (remove_first_retire (of_call c)); [|by apply Hmine|right; eauto].
           rewrite Hl. eauto.
        -- rewrite (remove_first_retire (of_call c)); [|by apply Hmine|right; eauto].
           rewrite Hl. eauto.
    + rewrite !(remove_first_retire (of_call c)), Hl; try done; try (by apply Hmine);
        left; rewrite ?(remove_first_retire (of_call c)), ?Hl; try done; try (by apply Hmine);
        left; rewrite ?(remove_first_retire (of_call c)), ?Hl; try done; try (by apply Hmine);
        by left.
  - intros c' Hne. rewrite !remove_first_filter; [done|..];
      unfold of_call; simpl; congruence.
Qed.

(** A call of [resolve] / [reject] with a settled outcome. *)
Lemma consistent_call_settle (D : nat -> Prop) (c : nat) (cl : Call) (outcome : Promise)
      (w : World) :
  consistent_but D w -> calls w !! c = Some cl -> outcome ≠ Pending ->
  settle_account
    (mkCall (c_op cl) (c_socket cl) (hasResolved cl) (timeout cl) (wrapped cl)
            (match promise cl with Pending => outcome | p => p end) (S (settle_calls cl))) ->
  consistent_but D (call_settle c outcome w).
Proof.
  intros Hw Hcl Hout Hacc'. pose proof (cleanup_listeners D c cl w Hw Hcl) as Hclean.
  unfold call_settle. rewrite Hcl. cbv zeta in Hclean.
  set (w1 := if wrapped cl then cleanup c w else w) in *.
  assert (calls w1 = calls w ∧ timers w1 = timers w ∧ now w1 = now w
          ∧ nodeSockets w1 = nodeSockets w) as (Hc1 & Ht1 & Hn1 & Hns1).
  { subst w1. destruct (wrapped cl); [apply cleanup_same|done]. }
  assert (∀ sid, is_Some (sockets w !! sid) -> is_Some (sockets w1 !! sid)) as Hexists.
  { intros sid [s Hs]. subst w1. destruct (wrapped cl); [|eauto].
    pose proof (calls_ok D w Hw c cl Hcl) as [_ _ Hwr _ _ _].
    destruct (c_socket cl) as [sid0|] eqn:Hsock.
    - rewrite (sockets_cleanup c cl sid0 w Hcl Hsock), list_lookup_alter.
      case_decide; subst; rewrite Hs; simpl; eauto.
    - unfold cleanup. rewrite Hcl, Hsock. eauto. }
  pose proof Hw as [Hids Hdue Hns Hcalls].
  constructor; store; rewrite ?Ht1, ?Hn1, ?Hns1; try done.
  - intros ns o sid Hno Hs. by eapply Hexists, Hns.
  - intros c' cl' Hcl'. rewrite Hc1, list_lookup_alter in Hcl'.
    case_decide as Hc; [subst c'|].
    + rewrite Hcl in Hcl'. simplify_eq/=.
      destruct (Hcalls c cl Hcl) as [Hl Hs Hwr Htm Ha Hacc].
      constructor; store; fields; rewrite ?Ht1; try done.
      * intros sid s1 Hs1. destruct (Hclean sid s1 Hs1) as (s & Hsw & Hmine & _).
        rewrite decide_False.
        2: { unfold listening. fields. intros (Hp & _). by destruct (promise cl). }
        destruct (decide (promise cl = Pending)) as [Hp|Hp]; [|by apply Hmine; left].
        destruct (wrapped cl) eqn:Hwrapped; [by apply Hmine; right|].
        subst w1. rewrite ?Hwrapped in Hs1. rewrite (Hl sid s1 Hs1).
        rewrite decide_False; [done|]. intros (_ & ? & _). congruence.
      * intros sid Hsock. by apply Hexists, Hs.
    + destruct (Hcalls c' cl' Hcl') as [Hl Hs Hwr Htm Ha Hacc].
      constructor; store; rewrite ?Ht1; try done.
      * intros sid s1 Hs1. destruct (Hclean sid s1 Hs1) as (s & Hsw & _ & Hother).
        rewrite Hother by done. by apply Hl.
      * intros sid Hsock. by apply Hexists, Hs.
Qed.

Lemma set_hasResolved_lookup (c : nat) (cl : Call) (h : option nat) (w : World) :
  calls w !! c = Some cl ->
  calls (clearTimeout h (set_hasResolved c w)) !! c
  = Some (mkCall (c_op cl) (c_socket cl) true (timeout cl) (wrapped cl) (promise cl)
                 (settle_calls cl)).
Proof.
  intros Hcl. rewrite calls_clearTimeout. unfold set_hasResolved. store.
  by rewrite list_lookup_alter_eq, Hcl.
Qed.

(** The guard is set and the timer cleared; nothing has been settled yet. *)
Lemma consistent_marked (c : nat) (cl : Call) (w : World) :
  consistent w -> calls w !! c = Some cl -> hasResolved cl = false ->
  consistent (clearTimeout (timeout cl) (set_hasResolved c w)).
Proof.
  intros Hw Hcl Hres. rewrite clearTimeout_set_hasResolved.
  pose proof (consistent_clearTimeout c cl w Hw Hcl Hres) as H1.
  pose proof (consistent_set_hasResolved _ c _ H1 eq_refl) as H2.
  apply (consistent_but_change _ _ _ H2); [|done].
  intros c' cl' _ _. split; [by intros [-> ?]|done].
Qed.

Lemma settled_account (cl : Call) (outcome : Promise) :
  settle_account cl -> hasResolved cl = false -> outcome ≠ Pending ->
  settle_account
    (mkCall (c_op cl) (c_socket cl) true (timeout cl) (wrapped cl)
            (match promise cl with Pending => outcome | p => p end) (S (settle_calls cl))).
Proof.
  intros [(Hp & Hn)|[(Hp & Hn & [Hres|Hv])|(_ & _ & Hres)]] Hfalse Hout; try congruence.
  - right; left. fields. rewrite Hp, Hn. auto.
  - right; right. fields. destruct Hv as (m & Hm & Hrej).
    rewrite Hrej, Hn. split; [|done]. exists m. by fields.
Qed.

(** The guard is set, the timer cleared and the promise settled: the common
    end of [responseHandler], [errorHandler], [disconnectHandler] and of the
    [catch] block. *)
Lemma consistent_finish (c : nat) (cl : Call) (outcome : Promise) (w : World) :
  consistent w -> calls w !! c = Some cl -> hasResolved cl = false -> outcome ≠ Pending ->
  consistent (call_settle c outcome (clearTimeout (timeout cl) (set_hasResolved c w))).
Proof.
  intros Hw Hcl Hres Hout.
  eapply consistent_call_settle;
    [by apply consistent_marked|by apply set_hasResolved_lookup|done|].
  fields. apply settled_account; [|done..]. by apply (ok_account _ _ _ _ (calls_ok _ _ Hw c cl Hcl)).
Qed.

Lemma response_outcome_settled (o : Op) (response : JsVal) (outcome : Promise) :
  response_outcome o response = Normal outcome -> outcome ≠ Pending.
Proof.
  unfold response_outcome, parse_failure.
  repeat case_match; intros; simplify_eq; discriminate.
Qed.

Lemma consistent_on_response (c : nat) (response : JsVal) (w : World) :
  consistent w -> consistent (on_response c response w).1.
Proof.
  intros Hw. unfold on_response. destruct (calls w !! c) as [cl|] eqn:Hcl; [|done].
  destruct (hasResolved cl) eqn:Hres; [done|].
  destruct (response_outcome (c_op cl) response) as [outcome|exn] eqn:Hout; cbn [fst].
  - apply consistent_finish; eauto using response_outcome_settled.
  - by apply consistent_marked.
Qed.

Lemma consistent_on_error (c : nat) (error : JsVal) (w : World) :
  consistent w -> consistent (on_error c error w).1.
Proof.
  intros Hw. unfold on_error. destruct (calls w !! c) as [cl|] eqn:Hcl; [|done].
  destruct (hasResolved cl) eqn:Hres; [done|].
  destruct (get_prop error "message") as [m|exn]; [|by apply consistent_marked].
  destruct (ToString (js_or m error)); cbn [fst].
  - by apply consistent_finish.
  - by apply consistent_marked.
Qed.

Lemma consistent_on_disconnect (c : nat) (reason : JsVal) (w : World) :
  consistent w -> consistent (on_disconnect c reason w).1.
Proof.
  intros Hw. unfold on_disconnect. destruct (calls w !! c) as [cl|] eqn:Hcl; [|done].
  destruct (hasResolved cl) eqn:Hres; [done|].
  destruct (ToString reason); cbn [fst].
  - by apply consistent_finish.
  - by apply consistent_marked.
Qed.

Lemma consistent_catch_init (c : nat) (error : JsVal) (w : World) :
  consistent w -> consistent (catch_init c error w).
Proof.
  intros Hw. unfold catch_init. destruct (calls w !! c) as [cl|] eqn:Hcl; [|done].
  destruct (hasResolved cl) eqn:Hres; [done|].
  destruct (get_prop error "message") as [m|exn];
    [|by apply consistent_report_uncaught, consistent_marked].
  destruct (ToString m).
  - by apply consistent_finish.
  - by apply consistent_report_uncaught, consistent_marked.
Qed.

Lemma consistent_run_handler `{Platform} (h : Handler) (arg : JsVal) (w : World) :
  consistent w -> consistent (run_handler h arg w).1.
Proof.
  intros Hw. destruct h; cbn [run_handler fst]; try done.
  - by apply consistent_on_verdict.
  - by apply consistent_on_challenge.
  - by apply consistent_on_response.
  - by apply consistent_on_error.
  - by apply consistent_on_disconnect.
Qed.

Lemma consistent_run_listeners `{Platform} (hs : list Handler) (arg : JsVal) (w : World) :
  consistent w -> consistent (run_listeners hs arg w).
Proof.
  revert w. induction hs as [|h hs IH]; intros w Hw; cbn [run_listeners]; [done|].
  pose proof (consistent_run_handler h arg w Hw) as Hh.
  destruct (run_handler h arg w) as [w1 [exn|]]; cbn [fst] in Hh.
  - by apply consistent_report_uncaught.
  - by apply IH.
Qed.

(** *** Timers that fire *)

Lemma timers_on_timeout (c : nat) (w : World) : timers (on_timeout c w) = timers w.
Proof.
  unfold on_timeout. destruct (calls w !! c) as [cl|]; [|done].
  destruct (hasResolved cl); [done|].
  unfold reject, call_settle. destruct (calls (set_hasResolved c w) !! c) as [cl'|]; [|done].
  unfold settle. store. destruct (wrapped cl'); [|done].
  by destruct (cleanup_same c (set_hasResolved c w)) as (_ & -> & _).
Qed.

Lemma on_timeout_guarded (c : nat) (cl' : Call) (w : World) :
  calls (on_timeout c w) !! c = Some cl' -> hasResolved cl' = true.
Proof.
  unfold on_timeout. destruct (calls w !! c) as [cl|] eqn:Hcl; [|congruence].
  destruct (hasResolved cl) eqn:Hres; [congruence|].
  unfold reject. erewrite call_settle_lookup.
  2: { unfold set_hasResolved. store. by rewrite list_lookup_alter_eq, Hcl. }
  by intros [= <-].
Qed.

Lemma wf_timer_call (w : World) (t : Timer) :
  wf w -> t ∈ timers w -> is_Some (calls w !! t_call t).
Proof.
  intros (_ & Ht & _) Hin. rewrite Forall_forall in Ht.
  destruct (Ht t Hin) as [_ Hlt]. by apply lookup_lt_is_Some.
Qed.

(** The timeout callback of a call whose timer has been taken off the queue. *)
Lemma consistent_on_timeout (D : nat -> Prop) (c : nat) (w : World) :
  wf w -> consistent_but D w -> D c ->
  consistent_but (fun c' => D c' ∧ c' ≠ c) (on_timeout c w).
Proof.
  intros Hwf Hw HD.
  assert (∀ c' t, D c' ∧ c' ≠ c -> t ∈ timers w -> t_call t ≠ c') as Hfree.
  { intros c' t [HD' _] Hin Hcall. destruct (wf_timer_call w t Hwf Hin) as [cl' Hcl'].
    rewrite Hcall in Hcl'.
    by destruct (ok_timer _ _ _ _ (calls_ok _ _ Hw c' cl' Hcl') t Hin Hcall) as (HnD & _). }
  unfold on_timeout. destruct (calls w !! c) as [cl|] eqn:Hcl.
  2: { apply (consistent_but_change D); [done| |done].
       intros c' cl' Hcl' _. split; [|tauto]. intros HD'. split; [done|congruence]. }
  destruct (hasResolved cl) eqn:Hres.
  { apply (consistent_but_change D); [done| |done].
    intros c' cl' Hcl' Hres'. split; [|tauto]. intros HD'. split; [done|]. congruence. }
  unfold reject. eapply consistent_call_settle.
  - by apply consistent_set_hasResolved.
  - unfold set_hasResolved. store. by rewrite list_lookup_alter_eq, Hcl.
  - done.
  - fields. apply settled_account; [|done..].
    by apply (ok_account _ _ _ _ (calls_ok _ _ Hw c cl Hcl)).
Qed.

Lemma consistent_fold_timeouts `{Platform} (l : list Timer) (w : World) :
  wf w -> consistent_but (owners l) w ->
  (∀ t t', t ∈ l -> t' ∈ timers w -> t_call t' ≠ t_call t) ->
  consistent (foldl (fun w t => on_timeout (t_call t) w) w l).
Proof.
  revert w. induction l as [|t l IH]; intros w Hwf Hw Hfree; cbn [foldl].
  - apply (consistent_but_change (owners [])); [done| |done].
    intros c cl _ _. split; [|done]. intros (t & Hin & _). by apply elem_of_nil in Hin.
  - apply IH.
    + eapply (wf_effect (fun _ => True) (fun _ => True)); [exact Hwf|].
      by apply effect_on_timeout.
    + pose proof (consistent_on_timeout _ (t_call t) w Hwf Hw) as Hstep.
      eapply consistent_but_change; [apply Hstep; exists t; split; [by left|done]| |].
      * intros c cl Hcl Hres. split.
        -- intros [(t' & Hin & Hcall) Hne]. exists t'. split; [|done].
           apply elem_of_cons in Hin as [->|Hin]; [done|done].
        -- intros (t' & Hin & Hcall). split; [exists t'; split; [by right|done]|].
           intros ->. rewrite (on_timeout_guarded _ _ _ Hcl) in Hres. done.
      * intros c t' (t0 & Hin & Hcall) Ht'. rewrite timers_on_timeout in Ht'.
        rewrite <- Hcall. apply Hfree; [by right|done].
    + intros t0 t' Hin Ht'. rewrite timers_on_timeout in Ht'. apply Hfree; [by right|done].
Qed.

(** Time passes: the timers that are due leave the queue and their callbacks
    run. *)
Lemma consistent_elapse `{Platform} (ms : N) (w : World) :
  wf w -> consistent w -> consistent (step w (Elapse ms)).
Proof.
  intros Hwf Hw. pose proof Hw as [Hids Hdue Hns Hcalls].
  cbn [step]. unfold fire_timers. store.
  set (is_due := fun t : Timer => (t_due t <= now w + ms)%N).
  assert (∀ t t', t ∈ timers w -> t' ∈ timers w -> t_call t' = t_call t -> t' = t) as Hone.
  { intros t t' Hin Hin' Hcall. destruct (wf_timer_call w t Hwf Hin) as [cl Hcl].
    destruct (ok_timer _ _ _ _ (Hcalls _ cl Hcl) t Hin eq_refl) as (_ & _ & Hto).
    destruct (ok_timer _ _ _ _ (Hcalls _ cl Hcl) t' Hin' Hcall) as (_ & _ & Hto').
    apply (NoDup_fmap_inj t_id (timers w)); [done..|congruence]. }
  apply consistent_fold_timeouts.
  - apply (wf_grow w); store; try done.
    + intros sid s' x Hs' Hx. left. eauto.
    + intros t Hin. left. apply list_elem_of_filter in Hin. tauto.
    + intros c cl' Hcl'. left. eauto.
  - constructor; store.
    + eapply sublist_NoDup; [exact Hids|]. apply fmap_sublist, sublist_filter.
    + intros t Hin. apply list_elem_of_filter in Hin as [Hnot Hin].
      destruct (Hdue t Hin). split; lia.
    + exact Hns.
    + intros c cl Hcl. destruct (Hcalls c cl Hcl) as [Hl Hs Hwr Htm Ha Hacc].
      constructor; store; try done.
      * intros t Hin Hcall. apply list_elem_of_filter in Hin as [Hnot Hin].
        destruct (Htm t Hin Hcall) as (_ & ? & ?). split; [|done].
        intros (t' & Hin' & Hcall'). apply list_elem_of_filter in Hin' as [Hd Hin'].
        assert (t' = t) as -> by (apply Hone; congruence). done.
      * intros Hres. destruct (Ha Hres) as [? [[]|(t & Hin & Hcall)]]. split; [done|].
        destruct (decide (is_due t)) as [Hd|Hd].
        -- left. exists t. split; [|done]. by apply list_elem_of_filter.
        -- right. exists t. split; [|done]. by apply list_elem_of_filter.
  - store. intros t t' Hin Hin' Hcall.
    apply list_elem_of_filter in Hin as [Hd Hin].
    apply list_elem_of_filter in Hin' as [Hnot Hin'].
    assert (t' = t) as -> by (by apply Hone). done.
Qed.

Lemma consistent_step `{Platform} (w : World) (e : Event) :
  wf w -> consistent w -> consistent (step w e).
Proof.
  intros Hwf Hw. destruct e as [sid event arg|ms]; [|by apply consistent_elapse].
  cbn [step]. apply consistent_run_listeners.
  repeat case_decide; try done; by apply consistent_set_connected.
Qed.

(** *** Starting a call *)

Lemma getSocket_with_calls (F : list Call -> list Call) (ns : nat) (path : string) (w : World) :
  getSocket ns path (with_calls F w)
  = ((getSocket ns path w).1, with_calls F (getSocket ns path w).2).
Proof.
  unfold getSocket, init, io. store.
  destruct (nodeSockets w !! ns) as [o|]; [|done].
  destruct (socket o); [done|]. by destruct (node o).
Qed.

Lemma calls_getSocket (ns : nat) (path : string) (w : World) :
  calls (getSocket ns path w).2 = calls w.
Proof.
  unfold getSocket, init, io.
  destruct (nodeSockets w !! ns) as [o|]; [|done].
  destruct (socket o); [done|]. by destruct (node o).
Qed.

Lemma arm_armed (o : Op) (w w2 : World) (conn : Connection) (sid : nat) :
  socketConnection w = Some conn ->
  getSocket (c_nodeSocket conn) "gateway" w = (Normal sid, w2) ->
  arm o (length (calls w)) (open_call o w).2 = (Normal sid, armed_world o sid w2).
Proof.
  intros Hconn Hget. unfold arm, open_call. cbn [snd]. store. rewrite Hconn.
  rewrite getSocket_with_calls, Hget. cbn [fst snd].
  pose proof (calls_getSocket (c_nodeSocket conn) "gateway" w) as Hcalls.
  rewrite Hget in Hcalls. cbn [snd] in Hcalls.
  store. f_equal. unfold armed_world. rewrite Hcalls.
  apply World_ext; store; try reflexivity.
  - rewrite !list_alter_alter_eq. apply list_alter_ext; [|done].
    intros s _. unfold compose. fields. unfold call_listeners. by rewrite <- !app_assoc.
  - rewrite Hcalls, !alter_snoc. fields. reflexivity.
Qed.

Lemma arm_throws (o : Op) (w w1 : World) (e : JsVal) :
  arm o (length (calls w)) (open_call o w).2 = (Throw e, w1) -> w1 = (open_call o w).2.
Proof.
  unfold arm. destruct (socketConnection (open_call o w).2) as [conn|]; [|congruence].
  destruct (getSocket (c_nodeSocket conn) "gateway" (open_call o w).2) as [[sid|e'] w'] eqn:Hget.
  - store. discriminate.
  - intros [= _ <-]. by apply getSocket_throws in Hget.
Qed.

Lemma filter_none {A} (P : A -> Prop) `{∀ x, Decision (P x)} (l : list A) :
  (∀ x, x ∈ l -> ¬ P x) -> filter P l = [].
Proof.
  induction l as [|x l IH]; intros Hall; [done|].
  rewrite filter_cons_False by (apply Hall; by left). apply IH. intros y Hy. apply Hall. by right.
Qed.

Lemma fresh_call_filter (w : World) (sid : nat) (s : Socket) :
  wf w -> sockets w !! sid = Some s -> filter (of_call (length (calls w))) (listeners s) = [].
Proof.
  intros Hwf Hs. apply filter_none. intros [ev h] Hin Hcall.
  by apply (fresh_call_listener w sid s ev h Hwf Hs Hcall).
Qed.

(** A call that never got as far as its listeners and timer. *)
Lemma consistent_new_call (D : nat -> Prop) (cl : Call) (w w' : World) :
  wf w -> consistent_but D w ->
  sockets w' = sockets w -> nodeSockets w' = nodeSockets w -> timers w' = timers w ->
  now w' = now w -> calls w' = calls w ++ [cl] ->
  hasResolved cl = true -> wrapped cl = false -> c_socket cl = None -> settle_account cl ->
  consistent_but D w'.
Proof.
  intros Hwf [Hids Hdue Hns Hcalls] Hs Hn Ht Hnow Hc Hres Hwr Hsock Hacc.
  constructor; rewrite ?Hs, ?Hn, ?Ht, ?Hnow; try done.
  intros c' cl' Hcl'. rewrite Hc in Hcl'.
  apply lookup_app_Some in Hcl' as [Hcl'|[Hge Hcl']].
  - destruct (Hcalls c' cl' Hcl'). constructor; rewrite ?Hs, ?Ht; done.
  - apply list_lookup_singleton_Some in Hcl' as [Hidx <-].
    assert (c' = length (calls w)) as -> by lia.
    constructor; rewrite ?Hs, ?Ht; try done; try congruence.
    + intros sid s Hsw. rewrite (fresh_call_filter w sid s Hwf Hsw).
      rewrite decide_False; [done|]. intros (_ & ? & _). congruence.
    + intros t Hin Hcall. destruct Hwf as (_ & Hwt & _). rewrite Forall_forall in Hwt.
      destruct (Hwt t Hin). lia.
Qed.

Lemma consistent_failed_start (o : Op) (e : JsVal) (w : World) :
  wf w -> consistent w -> consistent (catch_init (length (calls w)) e (open_call o w).2).
Proof.
  intros Hwf Hw. unfold catch_init, open_call. cbn [snd]. store.
  rewrite lookup_snoc. fields. cbn [clearTimeout].
  assert (∀ exn, consistent
            (report_uncaught exn
               (set_hasResolved (length (calls w))
                  (with_calls (fun l => l ++ [mkCall o None false None false Pending 0]) w))))
    as Huncaught.
  { intros exn. eapply (consistent_new_call _ _ w); try done; store.
    + by rewrite !alter_snoc.
    + done.
    + done.
    + done.
    + left. fields. auto. }
  destruct (get_prop e "message") as [m|exn]; [|apply Huncaught].
  destruct (ToString m) as [text|exn]; [|apply Huncaught].
  unfold reject, call_settle. store. rewrite alter_snoc, lookup_snoc. fields.
  eapply (consistent_new_call _ _ w); try done; store.
  + by rewrite !alter_snoc.
  + done.
  + done.
  + done.
  + right; left. fields. auto.
Qed.

(** The store right after timer and listeners are in place. *)
Lemma consistent_armed (o : Op) (sid : nat) (w : World) :
  wf w -> consistent w -> is_Some (sockets w !! sid) -> consistent (armed_world o sid w).
Proof.
  intros Hwf Hw [s0 Hs0]. pose proof Hw as [Hids Hdue Hns Hcalls].
  pose proof Hwf as (_ & Hwt & _). rewrite Forall_forall in Hwt.
  assert (∀ (l : list (string * Handler)) c', c' ≠ length (calls w) ->
            filter (of_call c') (l ++ call_listeners o (length (calls w)))
            = filter (of_call c') l) as Hother.
  { intros l c' Hne. rewrite filter_app. unfold call_listeners.
    rewrite !filter_cons_False, filter_nil, app_nil_r; [done|..];
      unfold of_call; simpl; congruence. }
  assert (filter (of_call (length (calls w))) (call_listeners o (length (calls w)))
          = call_listeners o (length (calls w))) as Hmine.
  { unfold call_listeners. by rewrite !filter_cons_True by done. }
  unfold armed_world. constructor; store.
  - rewrite fmap_app. apply NoDup_app. split; [done|]. split; [|apply NoDup_singleton].
    intros x Hx Hnew. apply list_elem_of_singleton in Hnew. subst x.
    apply list_elem_of_fmap in Hx as (t & Hid & Hin). destruct (Hwt t Hin). fields in Hid. lia.
  - intros t Hin. apply elem_of_app in Hin as [Hin|Hin]; [by apply Hdue|].
    apply list_elem_of_singleton in Hin as ->. fields. lia.
  - intros ns o' sid' Hno Hsock. rewrite list_lookup_alter.
    destruct (Hns ns o' sid' Hno Hsock) as [s Hs]. case_decide; subst; rewrite Hs; simpl; eauto.
  - intros c' cl' Hcl'. apply lookup_app_Some in Hcl' as [Hcl'|[Hge Hcl']].
    + assert (c' ≠ length (calls w)) as Hne by (apply lookup_lt_Some in Hcl'; lia).
      destruct (Hcalls c' cl' Hcl') as [Hl Hs Hwr Htm Ha Hacc].
      constructor; store; try done.
      * intros sid' s' Hs'. rewrite list_lookup_alter in Hs'.
        case_decide; [subst sid'|by apply Hl].
        rewrite Hs0 in Hs'. simplify_eq/=. rewrite Hother by done. by apply Hl.
      * intros sid' Hsock. rewrite list_lookup_alter.
        destruct (Hs sid' Hsock) as [s Hsw]. case_decide; subst; rewrite Hsw; simpl; eauto.
      * intros t Hin Hcall. apply elem_of_app in Hin as [Hin|Hin]; [by apply Htm|].
        apply list_elem_of_singleton in Hin as ->. fields in Hcall. congruence.
      * intros Hres. destruct (Ha Hres) as [? [[]|(t & Hin & Hcall)]]. split; [done|].
        right. exists t. split; [|done]. apply elem_of_app. by left.
    + apply list_lookup_singleton_Some in Hcl' as [Hidx <-].
      assert (c' = length (calls w)) as -> by lia.
      constructor; store; fields; try done.
      * intros sid' s' Hs'. rewrite list_lookup_alter in Hs'.
        case_decide; [subst sid'|].
        -- rewrite Hs0 in Hs'. simplify_eq/=. rewrite filter_app, Hmine.
           rewrite (fresh_call_filter w sid s0 Hwf Hs0). by rewrite decide_True.
        -- rewrite (fresh_call_filter w sid' s' Hwf Hs').
           rewrite decide_False; [done|]. intros (_ & _ & Hsock). fields in Hsock. congruence.
      * intros sid' [= <-]. rewrite list_lookup_alter_eq, Hs0. simpl. eauto.
      * intros t Hin Hcall. apply elem_of_app in Hin as [Hin|Hin].
        -- destruct (Hwt t Hin). lia.
        -- apply list_elem_of_singleton in Hin as ->. split; [by intros []|done].
      * intros _. split; [done|]. right. eexists. split; [apply elem_of_app; right; by left|done].
      * by left.
Qed.

Lemma armed_lookup (o : Op) (sid : nat) (w : World) :
  calls (armed_world o sid w) !! length (calls w)
  = Some (mkCall o (Some sid) false (Some (next_timer w)) true Pending 0).
Proof. unfold armed_world. store. apply lookup_snoc. Qed.

Lemma consistent_invalid (o : Op) (sid : nat) (m : string) (w : World) :
  wf w -> consistent w -> is_Some (sockets w !! sid) -> m ∈ validation_messages ->
  consistent (reject (length (calls w)) (Error m) (armed_world o sid w)).
Proof.
  intros Hwf Hw Hs Hm. unfold reject. eapply consistent_call_settle.
  - by apply consistent_armed.
  - apply armed_lookup.
  - done.
  - right; left. fields. split; [done|]. split; [done|]. right. exists m. by fields.
Qed.

Lemma consistent_send (r : Request) (w : World) :
  wf w -> consistent w -> consistent (send r w).2.
Proof.
  intros Hwf Hw.
  assert (∀ o, (∃ e, arm o (length (calls w)) (open_call o w).2 = (Throw e, (open_call o w).2))
               ∨ ∃ sid w2, arm o (length (calls w)) (open_call o w).2
                           = (Normal sid, armed_world o sid w2)
                           ∧ wf w2 ∧ consistent w2 ∧ is_Some (sockets w2 !! sid)
                           ∧ calls w2 = calls w) as Harm.
  { intros o. destruct (arm o (length (calls w)) (open_call o w).2) as [[sid|e] w1] eqn:Ha.
    - right. unfold arm in Ha. cbn [open_call snd] in Ha. store in Ha.
      destruct (socketConnection w) as [conn|] eqn:Hconn; [|discriminate].
      destruct (getSocket (c_nodeSocket conn) "gateway" w) as [[sid'|e'] w2] eqn:Hget.
      2: { rewrite getSocket_with_calls, Hget in Ha. discriminate. }
      pose proof (arm_armed o w w2 conn sid' Hconn Hget) as Harmed.
      unfold arm in Harmed. cbn [open_call snd] in Harmed. store in Harmed.
      rewrite Hconn in Harmed. rewrite Harmed in Ha. injection Ha as <- <-.
      exists sid', w2. split; [done|].
      destruct (consistent_getSocket _ (c_nodeSocket conn) "gateway" w Hw) as [Hc2 Hex].
      pose proof (effect_getSocket (fun _ => True) (fun _ => True)
                    (c_nodeSocket conn) "gateway" w) as Heff.
      pose proof (calls_getSocket (c_nodeSocket conn) "gateway" w) as Hcalls.
      rewrite Hget in Hc2, Hex, Heff, Hcalls. cbn [fst snd] in *.
      split; [by eapply wf_effect|]. split; [done|]. split; [by apply Hex|done].
    - left. exists e. f_equal. by apply arm_throws in Ha. }
  assert (∀ o sid w2 w',
            wf w2 -> consistent w2 -> is_Some (sockets w2 !! sid) -> calls w2 = calls w ->
            w' = armed_world o sid w2
            ∨ (∃ ev p, w' = socket_emit sid ev p (armed_world o sid w2))
            ∨ (∃ m, m ∈ validation_messages
                    ∧ w' = reject (length (calls w)) (Error m) (armed_world o sid w2))
            ∨ (∃ exn, w' = catch_init (length (calls w)) exn (armed_world o sid w2)) ->
            consistent w') as Hafter.
  { intros o sid w2 w' Hwf2 Hw2 Hs Hcalls [->|[(ev & p & ->)|[(m & Hm & ->)|(exn & ->)]]].
    - by apply consistent_armed.
    - by apply consistent_socket_emit, consistent_armed.
    - rewrite <- Hcalls. by apply consistent_invalid.
    - by apply consistent_catch_init, consistent_armed. }
  destruct r as [senderId swap|tx]; cbn [send].
  - unfold swapTransactionRequest. cbn [open_call fst snd].
    destruct (Harm SwapRequest) as [(e & Ha)|(sid & w2 & Ha & Hwf2 & Hw2 & Hs & Hcalls)];
      cbn [open_call fst snd] in Ha; store in Ha; store; rewrite Ha.
    + by apply consistent_failed_start.
    + apply (Hafter SwapRequest sid w2); try done.
      repeat case_match;
        first [ by left
              | by (right; left; eauto)
              | by (right; right; left; eexists; split; [|reflexivity];
                    unfold validation_messages; set_solver)
              | by (right; right; right; eauto) ].
  - unfold swapTransactionExecute. cbn [open_call fst snd].
    destruct (Harm SwapExecute) as [(e & Ha)|(sid & w2 & Ha & Hwf2 & Hw2 & Hs & Hcalls)];
      cbn [open_call fst snd] in Ha; store in Ha; store; rewrite Ha.
    + by apply consistent_failed_start.
    + apply (Hafter SwapExecute sid w2); try done.
      repeat case_match;
        first [ by left
              | by (right; left; eauto)
              | by (right; right; left; eexists; split; [|reflexivity];
                    unfold validation_messages; set_solver)
              | by (right; right; right; eauto) ].
Qed.

(** *** Handshakes and the stored connection *)

Lemma consistent_on_gateway `{Platform} (D : nat -> Prop) (ns : nat) (event : string)
      (h : Handler) (w : World) :
  handler_call h = None -> consistent_but D w -> consistent_but D (on_gateway ns event h w).2.
Proof.
  intros Hh Hw. unfold on_gateway.
  destruct (consistent_getSocket D ns "gateway" w Hw) as [Hget _].
  destruct (getSocket ns "gateway" w) as [[sid|e] w1]; cbn [snd] in *; [|done].
  by apply consistent_socket_on.
Qed.

Lemma consistent_smartNodeSocketOn `{Platform} (cat : Catalog) (network : string) (random : Q)
      (w : World) :
  consistent w -> consistent (smartNodeSocketOn cat network random w).2.
Proof.
  intros Hw. unfold smartNodeSocketOn. cbn [snd].
  set (a := length (auths w)).
  set (w0 := with_auths (fun l => l ++ [mkAuth network None AuthPending]) w).
  assert (consistent w0) as Hw0 by (by apply (consistent_same _ w)).
  destruct (selectNode cat network random) as [[randomNode|]|e];
    try (by apply consistent_auth_settle).
  destruct (operator_prop network id "id") as [account|e];
    try (by apply consistent_auth_settle).
  unfold new_SmartNodeSocket, set_a_nodeSocket.
  set (ns := length (nodeSockets w0)).
  set (w1 := with_auths _ (with_nodeSockets _ w0)).
  assert (consistent w1) as Hw1.
  { apply (consistent_frame _ w0); subst w1; store; try done.
    - intros sid s Hs. eauto.
    - intros sid s' Hs' Hnone. congruence.
    - intros ns' o sid Hns Hsock.
      apply lookup_app_Some in Hns as [Hns|[_ Hns]]; [by eapply (socket_ids _ w0 Hw0)|].
      apply list_lookup_singleton_Some in Hns as [_ <-]. done. }
  match goal with
  | |- consistent (match ?M w1 with _ => _ end) => assert (consistent (M w1).2) as Hw2
  end.
  { apply (wf_and_then consistent); [intros; by apply consistent_on_gateway| |exact Hw1].
    intros w2 Hw2.
    apply (wf_and_then consistent); [intros; by apply consistent_on_gateway| |exact Hw2].
    intros w3 Hw3.
    apply (wf_and_then consistent); [intros; by apply consistent_on_gateway| |exact Hw3].
    intros w4 Hw4.
    apply (wf_and_then consistent); [intros; by apply consistent_on_gateway| |exact Hw4].
    intros; by apply consistent_on_gateway. }
  match goal with
  | |- consistent (match ?M w1 with _ => _ end) => destruct (M w1) as [[[]|e] w2]
  end; cbn [snd] in *; [done|]. by apply consistent_auth_settle.
Qed.

Lemma consistent_await_connection (a : nat) (w : World) :
  consistent w -> consistent (await_connection a w).
Proof.
  intros Hw. unfold await_connection. destruct (auths w !! a) as [au|]; [|done].
  destruct (a_promise au); try done. by apply (consistent_same _ w).
Qed.

Lemma consistent_empty : consistent empty_world.
Proof.
  constructor; cbn [timers now nodeSockets calls empty_world].
  - apply NoDup_nil_2.
  - intros t Hin. by apply elem_of_nil in Hin.
  - intros ns o sid Hns. by rewrite lookup_nil in Hns.
  - intros c cl Hcl. by rewrite lookup_nil in Hcl.
Qed.

(** Whatever a program does, the store stays well formed and consistent. *)
Lemma reach_stable `{Platform} (acts : list Action) : wf (reach acts) ∧ consistent (reach acts).
Proof.
  unfold reach.
  assert (∀ w, wf w ∧ consistent w -> wf (foldl perform w acts) ∧ consistent (foldl perform w acts))
    as Hall.
  { induction acts as [|act acts IH]; intros w Hw; [done|]. apply IH. destruct Hw as [Hwf Hw].
    destruct act; cbn [perform].
    - unfold smartNodeSocket.
      split; [by apply wf_smartNodeSocketOn|by apply consistent_smartNodeSocketOn].
    - split; [by apply wf_await_connection|by apply consistent_await_connection].
    - split; [by apply wf_send|by apply consistent_send].
    - split; [by apply wf_step|by apply consistent_step]. }
  apply Hall. split; [apply wf_empty|apply consistent_empty].
Qed.

(** ** What one event does to the calls *)

(** The listeners of a call that an event finds on a socket. *)
Lemma snapshot_of_call `{Platform} (w : World) (sid : nat) (ev : string) (h : Handler) (c : nat) :
  wf w -> consistent w -> h ∈ socket_listeners sid ev w -> handler_call h = Some c ->
  ∃ cl, calls w !! c = Some cl ∧ listening cl sid ∧ (ev, h) ∈ call_listeners (c_op cl) c.
Proof.
  intros Hwf Hw Hin Hcall. apply socket_listeners_elem in Hin as (s & Hs & Hin).
  pose proof (wf_listener w sid s ev h Hwf Hs Hin) as Halloc.
  assert (c < length (calls w))%nat as Hlt by (destruct h; simplify_eq/=; lia).
  apply lookup_lt_is_Some in Hlt as [cl Hcl]. exists cl. split; [done|].
  pose proof (ok_listeners _ _ _ _ (calls_ok _ _ Hw c cl Hcl) sid s Hs) as Hl.
  assert ((ev, h) ∈ filter (of_call c) (listeners s)) as Hf
    by (by apply list_elem_of_filter).
  rewrite Hl in Hf. case_decide; [done|]. by apply elem_of_nil in Hf.
Qed.

Lemma snapshot_has `{Platform} (w : World) (sid : nat) (ev : string) (h : Handler) (c : nat)
      (cl : Call) :
  consistent w -> calls w !! c = Some cl -> listening cl sid ->
  (ev, h) ∈ call_listeners (c_op cl) c -> h ∈ socket_listeners sid ev w.
Proof.
  intros Hw Hcl Hlis Hin. pose proof (calls_ok _ _ Hw c cl Hcl) as [Hl Hs _ _ _ _].
  destruct Hlis as (Hp & Hwr & Hsock). destruct (Hs sid Hsock) as [s Hsw].
  specialize (Hl sid s Hsw). rewrite decide_True in Hl by done.
  rewrite <- Hl in Hin. apply list_elem_of_filter in Hin as [_ Hin].
  unfold socket_listeners. rewrite Hsw. apply list_elem_of_fmap. exists (ev, h).
  split; [done|]. by apply list_elem_of_filter.
Qed.

Lemma untouched_by_effect (A : nat -> Prop) (c : nat) (cl : Call) (w w' : World) :
  effect (fun c' => c' ≠ c) A w w' -> calls w !! c = Some cl -> calls w' !! c = Some cl.
Proof.
  intros (Hrel & _) Hcl.
  destruct (calls_rel_lookup_l _ _ _ _ _ Hrel Hcl) as (cl' & -> & _ & Hsame).
  f_equal. apply Hsame. by intros Hne.
Qed.

Lemma run_listeners_untouched `{Platform} (hs : list Handler) (arg : JsVal) (w : World)
      (c : nat) (cl : Call) :
  (∀ h, h ∈ hs -> handler_call h ≠ Some c) -> calls w !! c = Some cl ->
  calls (run_listeners hs arg w) !! c = Some cl.
Proof.
  intros Hnone Hcl. apply (untouched_by_effect (fun _ => True) c cl w); [|done].
  apply effect_run_listeners; [|done]. intros h c' Hin Hcall ->. by apply (Hnone h).
Qed.

(** If no listener of the snapshot throws, the listener of call [c] in it
    gets its turn, and what it decides is final. *)
Lemma run_listeners_reaches `{Platform} (hs : list Handler) (arg : JsVal) (w : World)
      (c : nat) (cl : Call) (h : Handler) (p : Promise) :
  h ∈ hs -> handler_call h = Some c ->
  (∀ h', h' ∈ hs -> handler_call h' = Some c -> h' = h) ->
  (∀ h' w', h' ∈ hs -> (run_handler h' arg w').2 = None) ->
  calls w !! c = Some cl ->
  (∀ w', calls w' !! c = Some cl -> promise <$> calls (run_handler h arg w').1 !! c = Some p) ->
  p ≠ Pending ->
  promise <$> calls (run_listeners hs arg w) !! c = Some p.
Proof.
  intros Hin Hcall Honly Hquiet Hcl Hrun Hp. revert w Hin Hcl.
  induction hs as [|h0 hs IH]; intros w Hin Hcl; [by apply elem_of_nil in Hin|].
  cbn [run_listeners].
  pose proof (Hquiet h0 w ltac:(by left)) as Hnone.
  destruct (run_handler h0 arg w) as [w1 exn] eqn:Hh0. cbn [snd] in Hnone. subst exn.
  destruct (decide (h0 = h)) as [->|Hne].
  - apply (settled_effect (fun _ => True) (fun _ => True) c p w1); [done| |].
    + specialize (Hrun w Hcl). by rewrite Hh0 in Hrun.
    + by apply (effect_run_listeners (fun _ => True) (fun _ => True)).
  - apply IH.
    + intros h' Hin' Hcall'. apply Honly; [by right|done].
    + intros h' w' Hin'. apply Hquiet. by right.
    + apply elem_of_cons in Hin as [->|Hin]; done.
    + apply (untouched_by_effect (fun _ => True) c cl w); [|done].
      pose proof (effect_run_handler (fun c' => c' ≠ c) (fun _ => True) h0 arg w) as Heff.
      rewrite Hh0 in Heff. apply Heff; [|done].
      intros c' Hcall' ->. apply Hne. apply Honly; [by left|done].
Qed.

Lemma on_disconnect_lookup (c : nat) (reason : JsVal) (text : string) (w : World)
      (cl : Call) :
  calls w !! c = Some cl -> hasResolved cl = false -> promise cl = Pending ->
  ToString reason = Normal text ->
  promise <$> calls (on_disconnect c reason w).1 !! c
  = Some (Rejected
            (JError "Error"
               ("Socket disconnected during " +:+ op_what (c_op cl) +:+ ": " +:+ text)
               [("code", JStr "SOCKET_DISCONNECT"); ("reason", reason)])).
Proof.
  intros Hcl Hres Hp Htext. unfold on_disconnect, reject. rewrite Hcl, Hres, Htext. cbn [fst].
  erewrite call_settle_lookup by (by apply set_hasResolved_lookup).
  fields. by rewrite Hp.
Qed.

Lemma on_error_lookup (c : nat) (error m : JsVal) (text : string) (w : World) (cl : Call) :
  calls w !! c = Some cl -> hasResolved cl = false -> promise cl = Pending ->
  get_prop error "message" = Normal m -> ToString (js_or m error) = Normal text ->
  promise <$> calls (on_error c error w).1 !! c
  = Some (Rejected
            (JError "Error"
               ("Socket error during " +:+ op_what (c_op cl) +:+ ": " +:+ text)
               [("code", JStr "SOCKET_ERROR"); ("originalError", error)])).
Proof.
  intros Hcl Hres Hp Hm Htext. unfold on_error, reject. rewrite Hcl, Hres, Hm, Htext.
  cbn [fst].
  erewrite call_settle_lookup by (by apply set_hasResolved_lookup).
  fields. by rewrite Hp.
Qed.

(** Whether [responseHandler] throws on a reply does not depend on the
    operation: the default message, the only difference, is a string. *)
Lemma response_outcome_any_op (o o' : Op) (response : JsVal) (outcome : Promise) :
  response_outcome o response = Normal outcome ->
  ∃ outcome', response_outcome o' response = Normal outcome'.
Proof.
  unfold response_outcome, js_or.
  destruct (negb (truthy response) || negb (bool_decide (typeof response = "object")));
    [eauto|].
  destruct (is_str "success" (field response "status")).
  { destruct o'; [|eauto]. destruct (negb (truthy (field response "payload"))); eauto. }
  destruct (truthy (field response "error"));
    [destruct (ToString (field response "error")); eauto|].
  destruct (truthy (field response "message"));
    [destruct (ToString (field response "message")); eauto|].
  rewrite !ToString_str. eauto.
Qed.

Lemma op_event_inj (o o' : Op) : op_event o = op_event o' -> o = o'.
Proof. by destruct o, o'. Qed.

Lemma op_event_names (o : Op) :
  op_event o ≠ "error" ∧ op_event o ≠ "disconnect" ∧ op_event o ≠ "connect".
Proof. by destruct o. Qed.

(** ** The shapes a started call can have *)

Lemma send_cases (r : Request) (w : World) :
  let c := length (calls w) in
  let o := request_op r in
  (∃ e, (send r w).2 = catch_init c e (open_call o w).2)
  ∨ ∃ sid w2,
      (∃ conn, socketConnection w = Some conn
               ∧ getSocket (c_nodeSocket conn) "gateway" w = (Normal sid, w2))
      ∧ ((send r w).2 = armed_world o sid w2
         ∨ (∃ ev p, (send r w).2 = socket_emit sid ev p (armed_world o sid w2))
         ∨ (∃ m, m ∈ validation_messages
                 ∧ (send r w).2 = reject c (Error m) (armed_world o sid w2))
         ∨ (∃ exn, (send r w).2 = catch_init c exn (armed_world o sid w2))).
Proof.
  intros c o.
  assert ((∃ e, arm o c (open_call o w).2 = (Throw e, (open_call o w).2))
          ∨ ∃ sid w2 conn, socketConnection w = Some conn
                           ∧ getSocket (c_nodeSocket conn) "gateway" w = (Normal sid, w2)
                           ∧ arm o c (open_call o w).2 = (Normal sid, armed_world o sid w2))
    as Harm.
  { destruct (arm o c (open_call o w).2) as [[sid|e] w1] eqn:Ha.
    - right. unfold arm in Ha. cbn [open_call snd] in Ha. store in Ha.
      destruct (socketConnection w) as [conn|] eqn:Hconn; [|discriminate].
      destruct (getSocket (c_nodeSocket conn) "gateway" w) as [[sid'|e'] w2] eqn:Hget.
      2: { rewrite getSocket_with_calls, Hget in Ha. discriminate. }
      pose proof (arm_armed o w w2 conn sid' Hconn Hget) as Harmed.
      unfold arm in Harmed. cbn [open_call snd] in Harmed. store in Harmed.
      rewrite Hconn in Harmed. subst c. rewrite Harmed in Ha. injection Ha as <- <-.
      exists sid', w2, conn. done.
    - left. exists e. f_equal. by apply arm_throws in Ha. }
  destruct Harm as [(e & Ha)|(sid & w2 & conn & Hconn & Hget & Ha)].
  - left. exists e. subst c o.
    destruct r; cbn [send request_op] in *;
      unfold swapTransactionRequest, swapTransactionExecute; cbn [open_call fst snd] in *;
      store in Ha; store; by rewrite Ha.
  - right. exists sid, w2. split; [eauto|]. subst c o.
    destruct r; cbn [send request_op] in *;
      unfold swapTransactionRequest, swapTransactionExecute; cbn [open_call fst snd] in *;
      store in Ha; store; rewrite Ha;
      repeat case_match;
      first [ by left
            | by (right; left; eauto)
            | by (right; right; left; eexists; split; [|reflexivity];
                  unfold validation_messages; set_solver)
            | by (right; right; right; eauto) ].
Qed.

Lemma armed_old_call (o : Op) (sid : nat) (w : World) (c : nat) (cl : Call) :
  calls w !! c = Some cl -> calls (armed_world o sid w) !! c = Some cl.
Proof. intros Hcl. unfold armed_world. store. by apply lookup_app_l_Some. Qed.

(** A new call leaves the calls before it alone. *)
Lemma send_old_calls (r : Request) (w : World) (c : nat) (cl : Call) :
  calls w !! c = Some cl -> calls (send r w).2 !! c = Some cl.
Proof.
  intros Hcl. pose proof (lookup_lt_Some _ _ _ Hcl) as Hlt.
  assert (∀ w1 w', calls w1 !! c = Some cl ->
            effect (fun c' => c' = length (calls w)) (fun _ => True) w1 w' ->
            calls w' !! c = Some cl) as Hkeep.
  { intros w1 w' Hcl1 (Hrel & _).
    destruct (calls_rel_lookup_l _ _ _ _ _ Hrel Hcl1) as (cl' & -> & _ & Hsame).
    f_equal. apply Hsame. lia. }
  destruct (send_cases r w) as [(e & ->)|(sid & w2 & (conn & Hconn & Hget) & Hshape)].
  - eapply Hkeep; [|by apply effect_catch_init].
    cbn [open_call snd]. store. by apply lookup_app_l_Some.
  - pose proof (calls_getSocket (c_nodeSocket conn) "gateway" w) as Hcalls.
    rewrite Hget in Hcalls. cbn [snd] in Hcalls. rewrite <- Hcalls in Hcl.
    pose proof (armed_old_call (request_op r) sid w2 c cl Hcl) as Harmed.
    destruct Hshape as [->|[(ev & p & ->)|[(m & _ & ->)|(exn & ->)]]]; [done|done|..].
    + eapply Hkeep; [exact Harmed|]. by apply effect_call_settle.
    + eapply Hkeep; [exact Harmed|]. by apply effect_catch_init.
Qed.

(** ** The guard *)

Lemma run_handler_frozen `{Platform} (h : Handler) (arg : JsVal) (w : World) (c : nat)
      (cl : Call) :
  calls w !! c = Some cl -> hasResolved cl = true ->
  calls (run_handler h arg w).1 !! c = Some cl.
Proof.
  intros Hcl Hres. destruct (decide (handler_call h = Some c)) as [Hmine|Hother].
  - destruct h; simplify_eq/=;
      unfold on_response, on_error, on_disconnect; by rewrite Hcl, Hres.
  - apply (untouched_by_effect (fun _ => True) c cl w); [|done].
    apply effect_run_handler; [|done]. by intros c' Hcall ->.
Qed.

Lemma run_listeners_frozen `{Platform} (hs : list Handler) (arg : JsVal) (w : World) (c : nat)
      (cl : Call) :
  calls w !! c = Some cl -> hasResolved cl = true ->
  calls (run_listeners hs arg w) !! c = Some cl.
Proof.
  revert w. induction hs as [|h hs IH]; intros w Hcl Hres; cbn [run_listeners]; [done|].
  pose proof (run_handler_frozen h arg w c cl Hcl Hres) as Hh.
  destruct (run_handler h arg w) as [w1 [exn|]]; cbn [fst] in Hh; [done|]. by apply IH.
Qed.

Lemma fold_timeouts_frozen (l : list Timer) (w : World) (c : nat) (cl : Call) :
  calls w !! c = Some cl -> hasResolved cl = true ->
  calls (foldl (fun w t => on_timeout (t_call t) w) w l) !! c = Some cl.
Proof.
  revert w. induction l as [|t l IH]; intros w Hcl Hres; cbn [foldl]; [done|].
  apply IH; [|done]. destruct (decide (t_call t = c)) as [->|Hne].
  - unfold on_timeout. by rewrite Hcl, Hres.
  - apply (untouched_by_effect (fun _ => True) c cl w); [|done]. by apply effect_on_timeout.
Qed.

Lemma step_frozen `{Platform} (w : World) (e : Event) (c : nat) (cl : Call) :
  calls w !! c = Some cl -> hasResolved cl = true -> calls (step w e) !! c = Some cl.
Proof.
  intros Hcl Hres. destruct e as [sid event arg|ms]; cbn [step].
  - apply run_listeners_frozen; [|done]. by repeat case_decide.
  - unfold fire_timers. by apply fold_timeouts_frozen.
Qed.

Lemma calls_on_gateway `{Platform} (ns : nat) (event : string) (h : Handler) (w : World) :
  calls (on_gateway ns event h w).2 = calls w.
Proof.
  unfold on_gateway. pose proof (calls_getSocket ns "gateway" w) as Hc.
  by destruct (getSocket ns "gateway" w) as [[sid|e] w1].
Qed.

Lemma calls_smartNodeSocketOn `{Platform} (cat : Catalog) (network : string) (random : Q)
      (w : World) :
  calls (smartNodeSocketOn cat network random w).2 = calls w.
Proof.
  unfold smartNodeSocketOn. cbn [snd].
  destruct (selectNode cat network random) as [[randomNode|]|e]; try done.
  destruct (operator_prop network id "id") as [account|e]; try done.
  unfold new_SmartNodeSocket, set_a_nodeSocket.
  set (w1 := with_auths _ (with_nodeSockets _ _)).
  assert (calls w1 = calls w) as Hw1 by done.
  match goal with
  | |- calls (match ?M w1 with _ => _ end) = _ => assert (calls (M w1).2 = calls w) as Hw2
  end.
  { set (P := fun w' => calls w' = calls w).
    assert (∀ ns event h w', P w' -> P (on_gateway ns event h w').2) as Hstep
      by (intros ns event h w' Hw'; unfold P; by rewrite calls_on_gateway).
    apply (wf_and_then P); [apply Hstep| |exact Hw1]. intros w2 Hw2.
    apply (wf_and_then P); [apply Hstep| |exact Hw2]. intros w3 Hw3.
    apply (wf_and_then P); [apply Hstep| |exact Hw3]. intros w4 Hw4.
    apply (wf_and_then P); [apply Hstep|apply Hstep|exact Hw4]. }
  match goal with
  | |- calls (match ?M w1 with _ => _ end) = _ => by destruct (M w1) as [[[]|e] w2]
  end.
Qed.

Lemma perform_frozen `{Platform} (act : Action) (w : World) (c : nat) (cl : Call) :
  calls w !! c = Some cl -> hasResolved cl = true -> calls (perform w act) !! c = Some cl.
Proof.
  intros Hcl Hres. destruct act; cbn [perform].
  - unfold smartNodeSocket. by rewrite calls_smartNodeSocketOn.
  - unfold await_connection. destruct (auths w !! a) as [au|]; [|done]. by destruct (a_promise au).
  - by apply send_old_calls.
  - by apply step_frozen.
Qed.

(** ** An ['error'] event without a readable argument *)

Lemma calls_rel_none (l l' : list Call) : calls_rel (fun _ => False) l l' -> l' = l.
Proof.
  intros Hrel. apply list_eq. intros c. specialize (Hrel c).
  destruct (l !! c) as [cl|]; [|done].
  destruct Hrel as (cl' & -> & _ & Hsame). f_equal. apply Hsame. tauto.
Qed.

Lemma run_handler_no_call `{Platform} (h : Handler) (arg : JsVal) (w : World) :
  handler_call h = None ->
  calls (run_handler h arg w).1 = calls w ∧ (run_handler h arg w).2 = None.
Proof.
  intros Hnone. split; [|by destruct h].
  apply calls_rel_none.
  apply (effect_run_handler (fun _ => False) (fun _ => True)); [|done]. congruence.
Qed.

Lemma on_error_throws (c : nat) (cl : Call) (error exn : JsVal) (w : World) :
  error_text error = Throw exn -> calls w !! c = Some cl -> hasResolved cl = false ->
  on_error c error w = (clearTimeout (timeout cl) (set_hasResolved c w), Some exn).
Proof.
  intros Htext Hcl Hres. unfold on_error, error_text in *. rewrite Hcl, Hres.
  destruct (get_prop error "message") as [m|exn0]; [by rewrite Htext|congruence].
Qed.

(** [errorHandler] builds its message after it has set the guard and cleared
    the timer: when that throws, the first call of the snapshot whose guard
    was not set is left guarded and unsettled, the exception leaves the
    emitter, and no other call changes. *)
Lemma run_listeners_error_throws `{Platform} (hs : list Handler) (error exn : JsVal)
      (w : World) :
  error_text error = Throw exn ->
  (∀ h, h ∈ hs -> handler_call h ≠ None -> ∃ c, h = errorHandler c) ->
  (∃ c0 cl0, errorHandler c0 ∈ hs ∧ calls w !! c0 = Some cl0 ∧ hasResolved cl0 = false
             ∧ calls (run_listeners hs error w) = alter guarded c0 (calls w)
             ∧ last (uncaught (run_listeners hs error w)) = Some exn)
  ∨ (calls (run_listeners hs error w) = calls w
     ∧ ∀ c cl, errorHandler c ∈ hs -> calls w !! c = Some cl -> hasResolved cl = true).
Proof.
  intros Htext. revert w. induction hs as [|h hs IH]; intros w Hall.
  { right. split; [done|]. intros c cl Hin. by apply elem_of_nil in Hin. }
  assert (∀ h', h' ∈ hs -> handler_call h' ≠ None -> ∃ c, h' = errorHandler c) as Hall'
    by (intros h' Hin; apply Hall; by right).
  cbn [run_listeners].
  destruct (handler_call h) as [c0|] eqn:Hcall.
  - destruct (Hall h ltac:(by left) ltac:(congruence)) as [c0' ->]. cbn [run_handler].
    destruct (calls w !! c0') as [cl0|] eqn:Hcl0.
    + destruct (hasResolved cl0) eqn:Hres0.
      * assert (on_error c0' error w = (w, None)) as ->
          by (unfold on_error; by rewrite Hcl0, Hres0).
        destruct (IH w Hall') as [(c1 & cl1 & Hin1 & Hrest)|[Hsame Hguarded]].
        -- left. exists c1, cl1. split; [by right|done].
        -- right. split; [done|]. intros c cl Hin Hcl.
           apply elem_of_cons in Hin as [[= ->]|Hin]; [congruence|by eapply Hguarded].
      * rewrite (on_error_throws _ _ _ _ _ Htext Hcl0 Hres0). left.
        exists c0', cl0. split; [by left|]. split; [done|]. split; [done|].
        store. split; [by rewrite calls_clearTimeout|apply last_snoc].
    + assert (on_error c0' error w = (w, None)) as -> by (unfold on_error; by rewrite Hcl0).
      destruct (IH w Hall') as [(c1 & cl1 & Hin1 & Hrest)|[Hsame Hguarded]].
      * left. exists c1, cl1. split; [by right|done].
      * right. split; [done|]. intros c cl Hin Hcl.
        apply elem_of_cons in Hin as [[= ->]|Hin]; [congruence|by eapply Hguarded].
  - destruct (run_handler_no_call h error w Hcall) as [Hcalls Hnone].
    destruct (run_handler h error w) as [w1 exn']. cbn [fst snd] in *. subst exn'.
    destruct (IH w1 Hall') as [(c1 & cl1 & Hin1 & Hrest)|[Hsame Hguarded]];
      rewrite Hcalls in *.
    + left. exists c1, cl1. split; [by right|done].
    + right. split; [done|]. intros c cl Hin Hcl.
      apply elem_of_cons in Hin as [<-|Hin]; [done|by eapply Hguarded].
Qed.

(** ** A call that ends before it has sent anything *)

Lemma timers_call_settle (c : nat) (outcome : Promise) (w : World) :
  timers (call_settle c outcome w) = timers w.
Proof.
  unfold call_settle. destruct (calls w !! c) as [cl|]; [|done]. unfold settle. store.
  destruct (wrapped cl); [|done]. by destruct (cleanup_same c w) as (_ & -> & _).
Qed.

Lemma sockets_call_settle (c : nat) (cl : Call) (outcome : Promise) (w : World) :
  calls w !! c = Some cl -> wrapped cl = true ->
  sockets (call_settle c outcome w) = sockets (cleanup c w).
Proof. intros Hcl Hwr. unfold call_settle. by rewrite Hcl, Hwr. Qed.

(** [cleanup] takes away exactly what the call registered. *)
Lemma cleanup_restores (o : Op) (sid : nat) (cl : Call) (w w1 : World) :
  wf w ->
  sockets w1
  = alter (fun s => mkSocket (s_url s) (s_wallet s)
                      (listeners s ++ call_listeners o (length (calls w)))
                      (emitted s) (connected s)) sid (sockets w) ->
  calls w1 !! length (calls w) = Some cl -> c_socket cl = Some sid -> c_op cl = o ->
  sockets (cleanup (length (calls w)) w1) = sockets w.
Proof.
  intros Hwf Hs1 Hcl Hsock Hop.
  rewrite (sockets_cleanup _ cl sid w1 Hcl Hsock), Hs1, Hop, list_alter_alter_eq.
  apply list_eq. intros i. rewrite list_lookup_alter. case_decide; [subst i|done].
  destruct (sockets w !! sid) as [s|] eqn:Hs; [|done].
  cbn [fmap option_fmap option_map]. f_equal.
  destruct s as [u wal ls em co]. unfold compose. fields. f_equal.
  assert (∀ ev h, handler_call h = Some (length (calls w)) -> (ev, h) ∉ ls) as Hfresh.
  { intros ev h Hcall. by apply (fresh_call_listener w sid _ ev h Hwf Hs). }
  unfold call_listeners.
  rewrite remove_first_app_fresh by (by apply Hfresh).
  rewrite remove_first_app_fresh by (by apply Hfresh).
  rewrite (remove_first_app_fresh _ ls []) by (by apply Hfresh).
  apply app_nil_r.
Qed.

Lemma filter_armed_timer (w : World) (t : Timer) :
  wf w -> t_id t = next_timer w ->
  filter (fun t' => t_id t' ≠ next_timer w) (timers w ++ [t]) = timers w.
Proof.
  intros (_ & Hwt & _) Hid. rewrite Forall_forall in Hwt.
  rewrite filter_app, filter_cons_False, filter_nil, app_nil_r by (intros Hne; by apply Hne).
  apply filter_all. intros t' Hin. destruct (Hwt t' Hin). lia.
Qed.

Lemma emitted_alter (f : Socket -> Socket) (sid : nat) (l : list Socket) :
  (∀ s, emitted (f s) = emitted s) -> emitted <$> alter f sid l = emitted <$> l.
Proof.
  intros Hf. apply list_eq. intros i. rewrite !list_lookup_fmap, list_lookup_alter.
  case_decide; [subst i|done]. destruct (l !! sid); [|done]. simpl. by rewrite Hf.
Qed.

Lemma uncaught_call_settle (c : nat) (outcome : Promise) (w : World) :
  uncaught (call_settle c outcome w) = uncaught w.
Proof.
  unfold call_settle. destruct (calls w !! c) as [cl|] eqn:Hcl; [|done]. unfold settle. store.
  destruct (wrapped cl); [|done]. unfold cleanup. rewrite Hcl.
  by destruct (c_socket cl).
Qed.

(** ** Listeners, timers and settlements in every reachable store *)

(** X1.  In every store a program can reach, a call whose promise is settled
    has none of its listeners registered on any socket, and a call that is
    pending with its guard unset has exactly its three listeners, once each
    and in registration order, on its own socket and nowhere else. *)
Theorem listeners_follow_the_promise `{Platform} (acts : list Action) (c : nat) (cl : Call)
        (sid : nat) (s : Socket) :
  calls (reach acts) !! c = Some cl -> sockets (reach acts) !! sid = Some s ->
  (promise cl ≠ Pending -> filter (of_call c) (listeners s) = [])
  ∧ (promise cl = Pending -> hasResolved cl = false ->
     filter (of_call c) (listeners s)
     = if decide (c_socket cl = Some sid) then call_listeners (c_op cl) c else []).
Proof.
  intros Hcl Hs. destruct (reach_stable acts) as [_ Hw].
  destruct (calls_ok _ _ Hw c cl Hcl) as [Hl _ _ _ Ha _]. rewrite (Hl sid s Hs). split.
  - intros Hp. rewrite decide_False; [done|]. by intros (? & _).
  - intros Hp Hres. destruct (Ha Hres) as [Hwr _].
    destruct (decide (c_socket cl = Some sid)) as [Hsock|Hsock].
    + by rewrite decide_True.
    + rewrite decide_False; [done|]. by intros (_ & _ & ?).
Qed.

Lemma listeners_follow_the_promise_witness :
  let w := reach (sign_in ++ [request_swap; execute_swap;
                              Environment (Incoming 0 "swapPoolRequest" swap_reply)]) in
  (filter (of_call 0) ∘ listeners) <$> sockets w !! 0%nat = Some []
  ∧ (filter (of_call 1) ∘ listeners) <$> sockets w !! 0%nat
    = Some (call_listeners SwapExecute 1).
Proof.
  set (acts := sign_in ++ [request_swap; execute_swap;
                           Environment (Incoming 0 "swapPoolRequest" swap_reply)]).
  intros w.
  set (s := default (mkSocket "" JUndefined [] [] false) (sockets w !! 0%nat)).
  assert (sockets w !! 0%nat = Some s) as Hs by (vm_compute; reflexivity).
  destruct (@listeners_follow_the_promise toy_platform acts 0
              (mkCall SwapRequest (Some 0%nat) true (Some 0%nat) true (Fulfilled (JStr "tx")) 1)
              0 s) as [Hdone _]; [vm_compute; reflexivity|exact Hs|].
  destruct (@listeners_follow_the_promise toy_platform acts 1
              (mkCall SwapExecute (Some 0%nat) false (Some 1%nat) true Pending 0)
              0 s) as [_ Hlive]; [vm_compute; reflexivity|exact Hs|].
  rewrite Hs. cbn [fmap option_fmap option_map compose].
  rewrite Hdone by discriminate. rewrite Hlive by reflexivity. split; reflexivity.
Defined.

(** X2.  In every reachable store each armed timer is due within the next
    30000 ms and belongs to a call whose guard is not set and whose handle it
    is; that call is still pending or was rejected by input validation. *)
Theorem armed_timer_owner `{Platform} (acts : list Action) (t : Timer) :
  t ∈ timers (reach acts) ->
  (now (reach acts) < t_due t)%N ∧ (t_due t <= now (reach acts) + 30000)%N
  ∧ ∃ cl, calls (reach acts) !! t_call t = Some cl
          ∧ hasResolved cl = false ∧ timeout cl = Some (t_id t)
          ∧ (promise cl = Pending ∨ rejected_by_validation cl).
Proof.
  intros Hin. destruct (reach_stable acts) as [Hwf Hw].
  destruct (timer_due _ _ Hw t Hin) as [Hlo Hhi]. split; [done|]. split; [done|].
  destruct (wf_timer_call _ t Hwf Hin) as [cl Hcl]. exists cl. split; [done|].
  destruct (calls_ok _ _ Hw _ cl Hcl) as [_ _ _ Htm _ Hacc].
  destruct (Htm t Hin eq_refl) as (_ & Hres & Hto). split; [done|]. split; [done|].
  destruct Hacc as [(? & _)|[(_ & _ & [?|?])|(_ & _ & ?)]]; auto; congruence.
Qed.

Lemma armed_timer_owner_witness :
  let w := reach (sign_in ++ [Send (RequestSwap (JStr "") swapObj)]) in
  ∃ cl, calls w !! 0%nat = Some cl ∧ hasResolved cl = false ∧ rejected_by_validation cl.
Proof.
  intros w.
  destruct (@armed_timer_owner toy_platform
              (sign_in ++ [Send (RequestSwap (JStr "") swapObj)]) (mkTimer 0 30000 0))
    as (_ & _ & cl & Hcl & Hres & _ & [Hp|Hv]).
  - apply (list_elem_of_lookup_2 _ 0%nat). vm_compute. reflexivity.
  - exfalso. fields in Hcl. vm_compute in Hcl. injection Hcl as <-. discriminate.
  - exists cl. auto.
Defined.

(** X3.  In every reachable store a call whose guard is not set has exactly
    one timer armed, the one whose handle it holds: no call can stay
    unguarded without a deadline. *)
Theorem unguarded_call_has_its_timer `{Platform} (acts : list Action) (c : nat) (cl : Call) :
  calls (reach acts) !! c = Some cl -> hasResolved cl = false ->
  ∃ t, t ∈ timers (reach acts) ∧ t_call t = c ∧ timeout cl = Some (t_id t)
       ∧ ∀ t', t' ∈ timers (reach acts) -> t_call t' = c -> t' = t.
Proof.
  intros Hcl Hres. destruct (reach_stable acts) as [_ Hw].
  destruct (calls_ok _ _ Hw c cl Hcl) as [_ _ _ Htm Ha _].
  destruct (Ha Hres) as [_ [[]|(t & Hin & Hcall)]].
  destruct (Htm t Hin Hcall) as (_ & _ & Hto).
  exists t. split; [done|]. split; [done|]. split; [done|].
  intros t' Hin' Hcall'. destruct (Htm t' Hin' Hcall') as (_ & _ & Hto').
  apply (NoDup_fmap_inj t_id (timers (reach acts))); [by apply (timer_ids _ _ Hw)|done..|congruence].
Qed.

Lemma unguarded_call_has_its_timer_witness :
  ∃ t, t ∈ timers (reach (sign_in ++ [request_swap; execute_swap])) ∧ t_call t = 1%nat.
Proof.
  destruct (@unguarded_call_has_its_timer toy_platform
              (sign_in ++ [request_swap; execute_swap]) 1
              (mkCall SwapExecute (Some 0%nat) false (Some 1%nat) true Pending 0))
    as (t & Hin & Hcall & _).
  - vm_compute. reflexivity.
  - reflexivity.
  - exists t. auto.
Defined.

(** X4.  In every reachable store the promise of a call is pending exactly
    when neither [originalResolve] nor [originalReject] has been called;
    they are called at most twice, and a second time only for a call that
    was rejected by input validation (when its stale timer fires). *)
Theorem settlement_count `{Platform} (acts : list Action) (c : nat) (cl : Call) :
  calls (reach acts) !! c = Some cl ->
  (promise cl = Pending ↔ settle_calls cl = 0%nat)
  ∧ (settle_calls cl <= 2)%nat
  ∧ (settle_calls cl = 2%nat -> rejected_by_validation cl ∧ hasResolved cl = true).
Proof.
  intros Hcl. destruct (reach_stable acts) as [_ Hw].
  destruct (ok_account _ _ _ _ (calls_ok _ _ Hw c cl Hcl))
    as [(Hp & Hn)|[(Hp & Hn & _)|(Hv & Hn & Hres)]].
  - rewrite Hp, Hn. split; [done|]. split; [lia|]. discriminate.
  - rewrite Hn. split; [split; [done|discriminate]|]. split; [lia|]. discriminate.
  - rewrite Hn. destruct Hv as (m & Hm & Hrej). rewrite Hrej.
    split; [split; discriminate|]. split; [lia|]. intros _. split; [|done]. by exists m.
Qed.

Lemma settlement_count_witness :
  ∃ cl, calls (reach (sign_in ++ [Send (RequestSwap (JStr "") swapObj);
                                  Environment (Elapse 30000)])) !! 0%nat = Some cl
        ∧ settle_calls cl = 2%nat ∧ rejected_by_validation cl.
Proof.
  eexists. split; [vm_compute; reflexivity|]. split; [reflexivity|].
  apply (@settlement_count toy_platform
           (sign_in ++ [Send (RequestSwap (JStr "") swapObj); Environment (Elapse 30000)]) 0).
  - vm_compute. reflexivity.
  - reflexivity.
Defined.

(** ** What one event settles *)

(** X5.  Replies are matched to calls by socket and operation name only: in
    every reachable store, one reply event that [responseHandler] classifies
    without throwing settles every call of that operation on that socket that
    is pending with its guard unset, each with the outcome the reply
    classifies to.  Every other call is left as it is: the calls of the other
    operation, the calls on other sockets, the settled calls and the calls
    that are pending with their guard already set, which no reply settles
    any more. *)
Theorem reply_settles_every_pending_call `{Platform} (acts : list Action) (o : Op) (sid : nat)
        (response : JsVal) (outcome : Promise) (c : nat) (cl : Call) :
  let w := reach acts in
  let w' := step w (Incoming sid (op_event o) response) in
  response_outcome o response = Normal outcome ->
  calls w !! c = Some cl ->
  (hasResolved cl = false -> promise cl = Pending -> c_op cl = o -> c_socket cl = Some sid ->
   promise <$> calls w' !! c = Some outcome)
  ∧ (hasResolved cl = true ∨ promise cl ≠ Pending ∨ c_op cl ≠ o ∨ c_socket cl ≠ Some sid ->
     calls w' !! c = Some cl).
Proof.
  intros w w' Hout Hcl. destruct (reach_stable acts) as [Hwf Hw]. fold w in Hwf, Hw.
  destruct (op_event_names o) as (Herr & Hdis & Hcon).
  assert (w' = run_listeners (socket_listeners sid (op_event o) w) response w) as ->.
  { subst w'. cbn [step]. by rewrite !decide_False. }
  assert (∀ h c', h ∈ socket_listeners sid (op_event o) w -> handler_call h = Some c' ->
            ∃ cl', calls w !! c' = Some cl' ∧ listening cl' sid ∧ c_op cl' = o
                   ∧ h = responseHandler c') as Hsnap.
  { intros h c' Hin Hcall.
    destruct (snapshot_of_call w sid _ h c' Hwf Hw Hin Hcall) as (cl' & Hcl' & Hlis & Hmem).
    exists cl'. split; [done|]. split; [done|].
    unfold call_listeners in Hmem. rewrite !elem_of_cons in Hmem.
    destruct Hmem as [[= Hev ->]|[[= Hev _]|[[= Hev _]|Hnil]]];
      [|congruence|congruence|by apply elem_of_nil in Hnil].
    split; [|done]. symmetry. by apply op_event_inj. }
  split.
  - intros Hres Hp Hop Hsock.
    apply (run_listeners_reaches _ _ _ c cl (responseHandler c)); try done.
    + eapply snapshot_has; try done.
      * split; [done|]. split; [|done].
        by destruct (ok_armed _ _ _ _ (calls_ok _ _ Hw c cl Hcl) Hres).
      * rewrite Hop. by left.
    + intros h' Hin Hcall. by destruct (Hsnap h' c Hin Hcall) as (_ & _ & _ & _ & ->).
    + intros h' w1 Hin. destruct h' as [| | | | |c'|c'|c']; try done.
      * cbn [run_handler]. unfold on_response.
        destruct (calls w1 !! c') as [cl1|]; [|done]. destruct (hasResolved cl1); [done|].
        destruct (response_outcome_any_op o (c_op cl1) response outcome Hout) as [p ->].
        done.
      * by destruct (Hsnap (errorHandler c') c' Hin eq_refl) as (_ & _ & _ & _ & ?).
      * by destruct (Hsnap (disconnectHandler c') c' Hin eq_refl) as (_ & _ & _ & _ & ?).
    + intros w1 Hcl1. cbn [run_handler].
      rewrite <- Hop in Hout.
      destruct (on_response_lookup _ response _ _ _ Hcl1 Hres Hout) as [_ ->].
      by rewrite Hp.
    + rewrite <- Hop in Hout. by eapply response_outcome_settled.
  - intros [Hres|Hother]; [by apply run_listeners_frozen|].
    apply run_listeners_untouched; [|done]. intros h Hin Hcall.
    destruct (Hsnap h c Hin Hcall) as (cl' & Hcl' & (Hp & _ & Hsock) & Hop & _). simplify_eq.
    by destruct Hother as [?|[?|?]].
Qed.

Lemma reply_settles_every_pending_call_witness :
  let acts := sign_in ++ [request_swap; request_swap; execute_swap] in
  let w' := @step toy_platform (reach acts) (Incoming 0 "swapPoolRequest" swap_reply) in
  promise <$> calls w' !! 0%nat = Some (Fulfilled (JStr "tx"))
  ∧ promise <$> calls w' !! 1%nat = Some (Fulfilled (JStr "tx"))
  ∧ promise <$> calls w' !! 2%nat = Some Pending.
Proof.
  intros acts w'.
  pose proof (@reply_settles_every_pending_call toy_platform acts SwapRequest 0 swap_reply
                (Fulfilled (JStr "tx"))) as Hthm.
  cbv zeta in Hthm.
  destruct (Hthm 0%nat (mkCall SwapRequest (Some 0%nat) false (Some 0%nat) true Pending 0)
              eq_refl) as [H0 _]; [vm_compute; reflexivity|].
  destruct (Hthm 1%nat (mkCall SwapRequest (Some 0%nat) false (Some 1%nat) true Pending 0)
              eq_refl) as [H1 _]; [vm_compute; reflexivity|].
  destruct (Hthm 2%nat (mkCall SwapExecute (Some 0%nat) false (Some 2%nat) true Pending 0)
              eq_refl) as [_ H2]; [vm_compute; reflexivity|].
  split; [|split].
  - by apply H0.
  - by apply H1.
  - subst w'. cbn [op_event] in H2. rewrite H2; [done|]. right; right; left. discriminate.
Defined.

(** X6.  In every reachable store a ['disconnect'] event whose reason has a
    string form rejects every call on that socket that is pending with its
    guard unset, of either operation, with the error coded
    [SOCKET_DISCONNECT] whose message ends in that string and which carries
    the reason.  Every other call is left as it is: the calls on other
    sockets, the settled calls and the calls that are pending with their
    guard already set, which a disconnect does not reject. *)
Theorem disconnect_rejects_every_pending_call `{Platform} (acts : list Action) (sid : nat)
        (reason : JsVal) (text : string) (c : nat) (cl : Call) :
  let w := reach acts in
  let w' := step w (Incoming sid "disconnect" reason) in
  ToString reason = Normal text ->
  calls w !! c = Some cl ->
  (hasResolved cl = false -> promise cl = Pending -> c_socket cl = Some sid ->
   promise <$> calls w' !! c
   = Some (Rejected
             (JError "Error"
                ("Socket disconnected during " +:+ op_what (c_op cl) +:+ ": " +:+ text)
                [("code", JStr "SOCKET_DISCONNECT"); ("reason", reason)])))
  ∧ (hasResolved cl = true ∨ promise cl ≠ Pending ∨ c_socket cl ≠ Some sid ->
     calls w' !! c = Some cl).
Proof.
  intros w w' Htext Hcl0. destruct (reach_stable acts) as [Hwf0 Hw0]. fold w in Hwf0, Hw0.
  set (w0 := set_connected sid false w).
  assert (w' = run_listeners (socket_listeners sid "disconnect" w0) reason w0) as ->
    by done.
  assert (wf w0) as Hwf
    by (eapply (wf_effect (fun _ => True) (fun _ => True)); [done|apply effect_set_connected]).
  assert (consistent w0) as Hw by (by apply consistent_set_connected).
  assert (calls w0 !! c = Some cl) as Hcl by done.
  clearbody w0. clear Hcl0 Hwf0 Hw0.
  assert (∀ h c', h ∈ socket_listeners sid "disconnect" w0 -> handler_call h = Some c' ->
            ∃ cl', calls w0 !! c' = Some cl' ∧ listening cl' sid
                   ∧ h = disconnectHandler c') as Hsnap.
  { intros h c' Hin Hcall.
    destruct (snapshot_of_call w0 sid _ h c' Hwf Hw Hin Hcall) as (cl' & Hcl' & Hlis & Hmem).
    exists cl'. split; [done|]. split; [done|].
    destruct (op_event_names (c_op cl')) as (_ & Hdis & _).
    unfold call_listeners in Hmem. rewrite !elem_of_cons in Hmem.
    destruct Hmem as [Heq|[Heq|[Heq|Hnil]]]; [| | |by apply elem_of_nil in Hnil];
      simplify_eq; first [done|congruence]. }
  split.
  - intros Hres Hp Hsock.
    apply (run_listeners_reaches _ _ _ c cl (disconnectHandler c)); try done.
    + eapply snapshot_has; try done.
      * split; [done|]. split; [|done].
        by destruct (ok_armed _ _ _ _ (calls_ok _ _ Hw c cl Hcl) Hres).
      * unfold call_listeners. rewrite !elem_of_cons. auto.
    + intros h' Hin Hcall. by destruct (Hsnap h' c Hin Hcall) as (_ & _ & _ & ->).
    + intros h' w1 Hin. destruct h' as [| | | | |c'|c'|c']; try done.
      * by destruct (Hsnap (responseHandler c') c' Hin eq_refl) as (_ & _ & _ & ?).
      * by destruct (Hsnap (errorHandler c') c' Hin eq_refl) as (_ & _ & _ & ?).
      * cbn [run_handler]. unfold on_disconnect. rewrite Htext. by repeat case_match.
    + intros w1 Hcl1. cbn [run_handler]. by apply on_disconnect_lookup.
  - intros [Hres|Hother]; [by apply run_listeners_frozen|].
    apply run_listeners_untouched; [|done]. intros h Hin Hcall.
    destruct (Hsnap h c Hin Hcall) as (cl' & Hcl' & (Hp & _ & Hsock) & _). simplify_eq.
    by destruct Hother.
Qed.

Lemma disconnect_rejects_every_pending_call_witness :
  let acts := sign_in ++ [request_swap; execute_swap] in
  let w' := @step toy_platform (reach acts) (Incoming 0 "disconnect" (JStr "transport close")) in
  promise <$> calls w' !! 1%nat
  = Some (Rejected
            (JError "Error" "Socket disconnected during swap execution: transport close"
               [("code", JStr "SOCKET_DISCONNECT"); ("reason", JStr "transport close")])).
Proof.
  intros acts w'.
  destruct (@disconnect_rejects_every_pending_call toy_platform acts 0 (JStr "transport close")
              "transport close"
              1 (mkCall SwapExecute (Some 0%nat) false (Some 1%nat) true Pending 0))
    as [H1 _]; [reflexivity|vm_compute; reflexivity|].
  by apply H1.
Defined.

(** X7.  In every reachable store an ['error'] event for which
    [error.message || error] has a string form rejects every call on that
    socket that is pending with its guard unset with the error coded
    [SOCKET_ERROR]; its message ends in that string and the argument is
    attached as [originalError].  Every other call is left as it is: the
    calls on other sockets, the settled calls and the calls that are pending
    with their guard already set. *)
Theorem error_rejects_every_pending_call `{Platform} (acts : list Action) (sid : nat)
        (error : JsVal) (text : string) (c : nat) (cl : Call) :
  let w := reach acts in
  let w' := step w (Incoming sid "error" error) in
  error_text error = Normal text ->
  calls w !! c = Some cl ->
  (hasResolved cl = false -> promise cl = Pending -> c_socket cl = Some sid ->
   promise <$> calls w' !! c
   = Some (Rejected
             (JError "Error"
                ("Socket error during " +:+ op_what (c_op cl) +:+ ": " +:+ text)
                [("code", JStr "SOCKET_ERROR"); ("originalError", error)])))
  ∧ (hasResolved cl = true ∨ promise cl ≠ Pending ∨ c_socket cl ≠ Some sid ->
     calls w' !! c = Some cl).
Proof.
  intros w w' Htext Hcl. destruct (reach_stable acts) as [Hwf Hw]. fold w in Hwf, Hw.
  unfold error_text in Htext.
  destruct (get_prop error "message") as [m|exn] eqn:Hm; [|discriminate].
  assert (w' = run_listeners (socket_listeners sid "error" w) error w) as -> by done.
  assert (∀ h c', h ∈ socket_listeners sid "error" w -> handler_call h = Some c' ->
            ∃ cl', calls w !! c' = Some cl' ∧ listening cl' sid
                   ∧ h = errorHandler c') as Hsnap.
  { intros h c' Hin Hcall.
    destruct (snapshot_of_call w sid _ h c' Hwf Hw Hin Hcall) as (cl' & Hcl' & Hlis & Hmem).
    exists cl'. split; [done|]. split; [done|].
    destruct (op_event_names (c_op cl')) as (Herr & _ & _).
    unfold call_listeners in Hmem. rewrite !elem_of_cons in Hmem.
    destruct Hmem as [Heq|[Heq|[Heq|Hnil]]]; [| | |by apply elem_of_nil in Hnil];
      simplify_eq; first [done|congruence]. }
  split.
  - intros Hres Hp Hsock.
    apply (run_listeners_reaches _ _ _ c cl (errorHandler c)); try done.
    + eapply snapshot_has; try done.
      * split; [done|]. split; [|done].
        by destruct (ok_armed _ _ _ _ (calls_ok _ _ Hw c cl Hcl) Hres).
      * unfold call_listeners. rewrite !elem_of_cons. auto.
    + intros h' Hin Hcall. by destruct (Hsnap h' c Hin Hcall) as (_ & _ & _ & ->).
    + intros h' w1 Hin. destruct h' as [| | | | |c'|c'|c']; try done.
      * by destruct (Hsnap (responseHandler c') c' Hin eq_refl) as (_ & _ & _ & ?).
      * cbn [run_handler]. unfold on_error. rewrite Hm, Htext. by repeat case_match.
      * by destruct (Hsnap (disconnectHandler c') c' Hin eq_refl) as (_ & _ & _ & ?).
    + intros w1 Hcl1. cbn [run_handler]. by eapply on_error_lookup.
  - intros [Hres|Hother]; [by apply run_listeners_frozen|].
    apply run_listeners_untouched; [|done]. intros h Hin Hcall.
    destruct (Hsnap h c Hin Hcall) as (cl' & Hcl' & (Hp & _ & Hsock) & _). simplify_eq.
    by destruct Hother.
Qed.

Lemma error_rejects_every_pending_call_witness :
  let acts := sign_in ++ [request_swap] in
  let w' := @step toy_platform (reach acts) (Incoming 0 "error" (JStr "boom")) in
  promise <$> calls w' !! 0%nat
  = Some (Rejected
            (JError "Error" "Socket error during swap request: boom"
               [("code", JStr "SOCKET_ERROR"); ("originalError", JStr "boom")])).
Proof.
  intros acts w'.
  destruct (@error_rejects_every_pending_call toy_platform acts 0 (JStr "boom") "boom"
              0 (mkCall SwapRequest (Some 0%nat) false (Some 0%nat) true Pending 0))
    as [H0 _]; [reflexivity|vm_compute; reflexivity|].
  by apply H0.
Defined.

(** X8.  In every reachable store an ['error'] event for which
    [error.message || error] cannot be produced ([undefined], [null], or a
    value without a string form) settles no call at all.  If some call on
    that socket is pending with its guard unset, exactly one such call is
    affected: its [errorHandler] sets the guard and clears the timer that was
    armed for it, then the exception leaves the emitter and the listeners
    after it are skipped, so that this call is left guarded, unsettled and
    without a timer while every other call is as it was.  If every call
    pending on that socket has its guard set already, no call changes. *)
Theorem error_without_message_settles_nothing `{Platform} (acts : list Action) (sid : nat)
        (error exn : JsVal) :
  error_text error = Throw exn ->
  let w := reach acts in
  let w' := step w (Incoming sid "error" error) in
  (∀ c, promise <$> calls w' !! c = promise <$> calls w !! c)
  ∧ ((∃ c cl, calls w !! c = Some cl ∧ open_on sid cl) ->
     ∃ c0 cl0, calls w !! c0 = Some cl0 ∧ open_on sid cl0
               ∧ calls w' = alter guarded c0 (calls w)
               ∧ (∃ t, t ∈ timers w ∧ t_call t = c0)
               ∧ (∀ t, t ∈ timers w' -> t_call t ≠ c0)
               ∧ last (uncaught w') = Some exn)
  ∧ ((∀ c cl, calls w !! c = Some cl -> promise cl = Pending -> c_socket cl = Some sid ->
              hasResolved cl = true) ->
     calls w' = calls w).
Proof.
  intros Htext w w'. destruct (reach_stable acts) as [Hwf Hw]. fold w in Hwf, Hw.
  destruct (reach_stable (acts ++ [Environment (Incoming sid "error" error)])) as [_ Hw'].
  unfold reach in Hw'. rewrite foldl_app in Hw'. cbn [foldl perform] in Hw'.
  fold (reach acts) in Hw'. fold w in Hw'. fold w' in Hw'.
  assert (w' = run_listeners (socket_listeners sid "error" w) error w) as Hstep by done.
  assert (∀ h c', h ∈ socket_listeners sid "error" w -> handler_call h = Some c' ->
            ∃ cl', calls w !! c' = Some cl' ∧ listening cl' sid ∧ h = errorHandler c') as Hsnap.
  { intros h c' Hin Hcall.
    destruct (snapshot_of_call w sid _ h c' Hwf Hw Hin Hcall) as (cl' & Hcl' & Hlis & Hmem).
    exists cl'. split; [done|]. split; [done|].
    destruct (op_event_names (c_op cl')) as (Herr & _ & _).
    unfold call_listeners in Hmem. rewrite !elem_of_cons in Hmem.
    destruct Hmem as [Heq|[Heq|[Heq|Hnil]]]; [| | |by apply elem_of_nil in Hnil];
      simplify_eq; first [done|congruence]. }
  assert (∀ c cl, calls w !! c = Some cl -> open_on sid cl ->
            errorHandler c ∈ socket_listeners sid "error" w) as Hopen.
  { intros c cl Hcl (Hres & Hp & Hsock). eapply snapshot_has; try done.
    - split; [done|]. split; [|done].
      by destruct (ok_armed _ _ _ _ (calls_ok _ _ Hw c cl Hcl) Hres).
    - unfold call_listeners. rewrite !elem_of_cons. auto. }
  destruct (run_listeners_error_throws (socket_listeners sid "error" w) error exn w Htext)
    as [(c0 & cl0 & Hin0 & Hcl0 & Hres0 & Hcalls & Hlast)|[Hsame Hguarded]].
  { intros h Hin Hcall. destruct (handler_call h) as [c'|] eqn:Hc; [|done].
    destruct (Hsnap h c' Hin Hc) as (_ & _ & _ & ->). eauto. }
  - rewrite <- Hstep in Hcalls, Hlast.
    destruct (Hsnap _ c0 Hin0 eq_refl) as (cl1 & Hcl1 & (Hp1 & _ & Hsock1) & _). simplify_eq.
    split; [|split].
    + intros c. rewrite Hcalls, list_lookup_alter. case_decide; [subst c|done].
      by rewrite Hcl0.
    + intros _. exists c0, cl0. split; [done|]. split; [done|]. split; [done|].
      split; [by destruct (ok_armed _ _ _ _ (calls_ok _ _ Hw c0 cl0 Hcl0) Hres0) as [_ [[]|?]]|].
      split; [|done]. intros t Hin Hcall.
      assert (calls (step w (Incoming sid "error" error)) !! c0 = Some (guarded cl0)) as Hcl0'
        by (by rewrite Hcalls, list_lookup_alter_eq, Hcl0).
      destruct (ok_timer _ _ _ _ (calls_ok _ _ Hw' c0 _ Hcl0') t Hin Hcall) as (_ & Hfalse & _).
      discriminate.
    + intros Hall. by rewrite (Hall c0 cl0 Hcl0 Hp1 Hsock1) in Hres0.
  - rewrite <- Hstep in Hsame. split; [by rewrite Hsame|]. split; [|done].
    intros (c & cl & Hcl & Hop). pose proof Hop as (Hres & _).
    by rewrite (Hguarded c cl (Hopen c cl Hcl Hop) Hcl) in Hres.
Qed.

Lemma error_without_message_settles_nothing_witness :
  let w := reach (sign_in ++ [request_swap]) in
  let w' := @step toy_platform w (Incoming 0 "error" (JObj [("toString", JNum 1)])) in
  calls w' = alter guarded 0%nat (calls w)
  ∧ promise <$> calls w' !! 0%nat = Some Pending
  ∧ last (uncaught w') = Some (TypeError "Cannot convert object to primitive value").
Proof.
  intros w w'.
  destruct (@error_without_message_settles_nothing toy_platform (sign_in ++ [request_swap]) 0
              (JObj [("toString", JNum 1)])
              (TypeError "Cannot convert object to primitive value")
              eq_refl) as (Hsame & Hstrand & _).
  destruct Hstrand as (c0 & cl0 & Hcl0 & _ & Hcalls & _ & _ & Hlast).
  { exists 0%nat, (mkCall SwapRequest (Some 0%nat) false (Some 0%nat) true Pending 0).
    split; [vm_compute; reflexivity|]. by repeat split. }
  split; [|split].
  - destruct c0 as [|c0]; [exact Hcalls|]. vm_compute in Hcl0. discriminate Hcl0.
  - subst w'. rewrite Hsame. vm_compute. reflexivity.
  - exact Hlast.
Defined.

(** ** The guard and the deadline *)

(** X9.  Once the guard of a call is set, nothing a program or the transport
    does later changes that call: its outcome stays what it was, and a call
    whose guard was set without settling it stays pending for ever. *)
Theorem guarded_call_is_frozen `{Platform} (acts more : list Action) (c : nat) (cl : Call) :
  calls (reach acts) !! c = Some cl -> hasResolved cl = true ->
  calls (reach (acts ++ more)) !! c = Some cl.
Proof.
  intros Hcl Hres. unfold reach in *. rewrite foldl_app.
  generalize dependent (foldl perform empty_world acts). clear acts.
  induction more as [|act more IH]; intros w Hcl; [done|].
  cbn [foldl]. apply IH. by apply perform_frozen.
Qed.

Lemma guarded_call_is_frozen_witness :
  let stranded := sign_in ++ [request_swap; Environment (Incoming 0 "error" JNull)] in
  let later := [Environment (Incoming 0 "swapPoolRequest" swap_reply);
                Environment (Elapse 60000);
                Environment (Incoming 0 "disconnect" (JStr "transport close"))] in
  promise <$> calls (reach (stranded ++ later)) !! 0%nat = Some Pending.
Proof.
  intros stranded later.
  rewrite (@guarded_call_is_frozen toy_platform stranded later 0
             (mkCall SwapRequest (Some 0%nat) true (Some 0%nat) true Pending 0)).
  - reflexivity.
  - vm_compute. reflexivity.
  - reflexivity.
Defined.

(** X10.  Whatever state a program is in, once 30000 ms (or more) pass in
    one go no timer is left armed and the guard of every call is set: no
    call outlives its deadline unguarded. *)
Theorem silence_flushes_every_call `{Platform} (acts : list Action) (d : N) :
  (30000 <= d)%N ->
  let w' := step (reach acts) (Elapse d) in
  timers w' = [] ∧ ∀ c cl, calls w' !! c = Some cl -> hasResolved cl = true.
Proof.
  intros Hd w'. destruct (reach_stable acts) as [_ Hw].
  destruct (reach_stable (acts ++ [Environment (Elapse d)])) as [_ Hw'].
  unfold reach in Hw'. rewrite foldl_app in Hw'. cbn [foldl perform] in Hw'.
  fold (reach acts) in Hw'. fold w' in Hw'.
  assert (timers w' = []) as Hnone.
  { apply elem_of_nil_inv. intros t Hin. subst w'. cbn [step] in Hin. unfold fire_timers in Hin.
    match type of Hin with
    | t ∈ timers (foldl _ ?W ?L) =>
        pose proof (effect_fold_timeouts (fun _ => True) (fun _ => True) L W ltac:(done))
          as (_ & _ & _ & Hsub & _)
    end.
    apply Hsub in Hin. store in Hin. apply list_elem_of_filter in Hin as [Hnot Hin].
    destruct (timer_due _ _ Hw t Hin). lia. }
  split; [done|]. intros c cl Hcl.
  destruct (hasResolved cl) eqn:Hres; [done|].
  destruct (ok_armed _ _ _ _ (calls_ok _ _ Hw' c cl Hcl) Hres) as [_ [[]|(t & Hin & _)]].
  rewrite Hnone in Hin. by apply elem_of_nil in Hin.
Qed.

Lemma silence_flushes_every_call_witness :
  let w' := @step toy_platform (reach (sign_in ++ [request_swap; execute_swap]))
              (Elapse 30000) in
  timers w' = [] ∧ hasResolved <$> calls w' !! 1%nat = Some true.
Proof.
  intros w'.
  destruct (@silence_flushes_every_call toy_platform (sign_in ++ [request_swap; execute_swap])
              30000 ltac:(lia)) as [Hnone Hall].
  split; [done|].
  destruct (calls w' !! 1%nat) as [cl|] eqn:Hcl; [|vm_compute in Hcl; discriminate].
  cbn [fmap option_fmap option_map]. f_equal. by apply (Hall 1%nat).
Defined.

(** ** Calls that end before anything is sent *)

(** X11.  With a connection stored, a call whose input fails validation
    ([senderId] is looked at before [swap]) rejects with the message of
    that validation and reaches the wire in no way: what has been sent on the
    socket and the listeners registered on it are exactly what they were.
    The guard stays unset and the 30 s timer armed. *)
Theorem invalid_input_is_not_sent (r : Request) (w : World) (sid : nat) (m : string) :
  wf w -> gateway w = Some sid -> validation_failure r = Some m ->
  let c := (send r w).1 in
  let w' := (send r w).2 in
  calls w' !! c
  = Some (mkCall (request_op r) (Some sid) false (Some (next_timer w)) true
                 (Rejected (Error m)) 1)
  ∧ sockets w' = sockets w
  ∧ timers w' = timers w ++ [mkTimer (next_timer w) (now w + 30000) c].
Proof.
  intros Hwf Hgw Hbad c w'. subst c w'. rewrite send_id.
  assert ((send r w).2
          = reject (length (calls w)) (Error m) (armed_world (request_op r) sid w)) as ->.
  { destruct r as [senderId swap|tx]; cbn [send request_op validation_failure] in *.
    - unfold swapTransactionRequest. cbn [open_call fst snd].
      pose proof (arm_gateway SwapRequest w sid Hgw) as Harm.
      cbn [open_call snd] in Harm. rewrite Harm.
      destruct (negb (truthy senderId) || negb (bool_decide (typeof senderId = "string")));
        [by injection Hbad as <-|].
      destruct (negb (truthy swap) || negb (bool_decide (typeof swap = "object")));
        [by injection Hbad as <-|done].
    - unfold swapTransactionExecute. cbn [open_call fst snd].
      pose proof (arm_gateway SwapExecute w sid Hgw) as Harm.
      cbn [open_call snd] in Harm. rewrite Harm. cbv zeta.
      destruct (negb (truthy tx)
                || negb (bool_decide (typeof (field tx "toBytes") = "function")));
        [by injection Hbad as <-|done]. }
  unfold reject. split; [|split].
  - by rewrite (call_settle_lookup _ _ _ _ (armed_lookup _ _ _)).
  - rewrite (sockets_call_settle _ _ _ _ (armed_lookup _ _ _) eq_refl).
    by apply (cleanup_restores (request_op r) sid _ w (armed_world (request_op r) sid w)
                Hwf eq_refl (armed_lookup _ _ _)).
  - by rewrite timers_call_settle.
Qed.

Lemma invalid_input_is_not_sent_witness :
  let r := RequestSwap (JStr "0.0.5") (JStr "not an object") in
  promise <$> calls (send r authenticated_world).2 !! 0%nat
  = Some (Rejected (Error "Invalid swap object provided"))
  ∧ sockets (send r authenticated_world).2 = sockets authenticated_world.
Proof.
  intros r.
  destruct (invalid_input_is_not_sent r authenticated_world 0 "Invalid swap object provided")
    as (Hc & Hs & _).
  - vm_compute. repeat split; repeat constructor.
  - reflexivity.
  - reflexivity.
  - change ((send r authenticated_world).1) with 0%nat in Hc. rewrite Hc.
    split; [reflexivity|exact Hs].
Defined.

(** X12.  With a connection stored, if [signedTransaction.toBytes()] throws
    a value with a readable message, nothing is sent, the guard is set and,
    unlike on the validation path, the timer is cleared.  When the message
    has a string form, [swapTransactionExecute] rejects with the error coded
    [INITIALIZATION_ERROR] whose message ends in that string and which
    carries the thrown value, and the three listeners are removed again.
    When it has none, the template literal throws inside the [catch]: the
    promise is never settled, the exception is an unhandled rejection and
    the three listeners stay registered. *)
Theorem throwing_toBytes_is_caught (tx exn m : JsVal) (src : string) (w : World) (sid : nat) :
  wf w -> gateway w = Some sid ->
  truthy tx = true -> field tx "toBytes" = JFun src true exn ->
  get_prop exn "message" = Normal m ->
  let c := (swapTransactionExecute tx w).1 in
  let w' := (swapTransactionExecute tx w).2 in
  let call p n := mkCall SwapExecute (Some sid) true (Some (next_timer w)) true p n in
  timers w' = timers w
  ∧ (emitted <$> sockets w') = (emitted <$> sockets w)
  ∧ match ToString m with
    | Normal text =>
        calls w' !! c
        = Some (call (Rejected
                        (JError "Error" ("Failed to initiate swap execution: " +:+ text)
                           [("code", JStr "INITIALIZATION_ERROR"); ("originalError", exn)])) 1%nat)
        ∧ sockets w' = sockets w ∧ uncaught w' = uncaught w
    | Throw exn' =>
        calls w' !! c = Some (call Pending 0%nat)
        ∧ sockets w' = sockets (armed_world SwapExecute sid w)
        ∧ uncaught w' = uncaught w ++ [exn']
    end.
Proof.
  intros Hwf Hgw Htx Hfun Hm c w' call. subst c w' call.
  unfold swapTransactionExecute. cbn [open_call fst snd].
  pose proof (arm_gateway SwapExecute w sid Hgw) as Harm.
  cbn [open_call snd] in Harm. rewrite Harm. cbv zeta. rewrite Htx, Hfun. cbn [typeof negb orb].
  rewrite bool_decide_eq_true_2 by done. cbn [negb].
  unfold catch_init. rewrite armed_lookup. fields. rewrite Hm.
  set (w1 := clearTimeout _ (set_hasResolved _ _)).
  assert (calls w1 !! length (calls w)
          = Some (mkCall SwapExecute (Some sid) true (Some (next_timer w)) true Pending 0))
    as Hcl by (subst w1; by rewrite (set_hasResolved_lookup _ _ _ _ (armed_lookup _ _ _))).
  assert (timers w1 = timers w) as Ht.
  { subst w1. unfold clearTimeout, armed_world. store. by apply filter_armed_timer. }
  assert (sockets w1 = sockets (armed_world SwapExecute sid w)) as Hs by (subst w1; by store).
  assert (uncaught w1 = uncaught w) as Hu by (subst w1; by store).
  assert (emitted <$> sockets (armed_world SwapExecute sid w) = emitted <$> sockets w) as He.
  { unfold armed_world. store. by rewrite !emitted_alter. }
  destruct (ToString m) as [text|exn'].
  - unfold reject.
    assert (∀ outcome, sockets (call_settle (length (calls w)) outcome w1) = sockets w)
      as Hsock.
    { intros outcome. rewrite (sockets_call_settle _ _ _ _ Hcl eq_refl).
      by apply (cleanup_restores SwapExecute sid _ w w1 Hwf eq_refl Hcl). }
    split; [by rewrite timers_call_settle|]. split; [by rewrite Hsock|].
    split; [by rewrite (call_settle_lookup _ _ _ _ Hcl)|]. split; [apply Hsock|].
    by rewrite uncaught_call_settle.
  - store. rewrite Ht, Hs, Hu, Hcl, He. done.
Qed.

Lemma throwing_toBytes_is_caught_witness :
  let tx := JObj [("toBytes", JFun "toBytes" true (Error "not frozen"))] in
  promise <$> calls (swapTransactionExecute tx authenticated_world).2 !! 0%nat
  = Some (Rejected
            (JError "Error" "Failed to initiate swap execution: not frozen"
               [("code", JStr "INITIALIZATION_ERROR"); ("originalError", Error "not frozen")]))
  ∧ timers (swapTransactionExecute tx authenticated_world).2 = [].
Proof.
  intros tx.
  destruct (throwing_toBytes_is_caught tx (Error "not frozen") (JStr "not frozen") "toBytes"
              authenticated_world 0) as (Ht & _ & Hc & _).
  - vm_compute. repeat split; repeat constructor.
  - reflexivity.
  - reflexivity.
  - reflexivity.
  - reflexivity.
  - change ((swapTransactionExecute tx authenticated_world).1) with 0%nat in Hc.
    rewrite Hc, Ht. split; [reflexivity|]. vm_compute. reflexivity.
Defined.

(** ** The challenge listener *)

Lemma get_prop_throws (v e : JsVal) (k : string) :
  get_prop v k = Throw e -> ∃ msg, e = TypeError msg.
Proof. destruct v; simpl; intros [= <-]; eauto. Qed.

Lemma awaiting_engaged (a sid ns : nat) (network : string) (n : Node) (w : World) :
  awaiting a sid ns network n w -> engaged a sid ns network n w.
Proof. intros (Ha & Hs & _ & Hn). split; [eauto|]. split; done. Qed.

Lemma engaged_effect (a sid ns : nat) (network : string) (n : Node) (C A : nat -> Prop)
      (w w' : World) :
  engaged a sid ns network n w -> effect C A w w' -> engaged a sid ns network n w'.
Proof.
  intros ((p & Ha) & (s & Hs & Hfive) & (account & Hnode))
         (_ & Hauths & Hshrink & _ & _ & _ & _ & Hkept & Hget).
  split; [|split].
  - specialize (Hauths a). rewrite Ha in Hauths.
    destruct Hauths as ([network' ns' p'] & Hau' & (Hnet & Hns & _) & _).
    fields in Hnet. fields in Hns. subst. eauto.
  - destruct (Hkept sid s Hs) as (s' & Hs' & Hfilter). exists s'. split; [done|].
    rewrite Hfive in Hfilter.
    rewrite <- (filter_all of_handshake (listeners s')).
    + rewrite Hfilter. reflexivity.
    + intros x Hx. destruct (Hshrink _ _ _ Hs' Hx) as (s0 & Hs0 & Hx0).
      assert (s0 = s) as -> by congruence. rewrite Hfive in Hx0.
      unfold handshake_listeners in Hx0. unfold of_handshake.
      rewrite !elem_of_cons in Hx0.
      destruct Hx0 as [->|[->|[->|[->|[->|Hnil]]]]]; [done..|by apply elem_of_nil in Hnil].
  - exists account. by apply Hget.
Qed.

Lemma engaged_step `{Platform} (a sid ns : nat) (network : string) (n : Node)
      (w : World) (e : Event) :
  engaged a sid ns network n w -> engaged a sid ns network n (step w e).
Proof.
  intros Hw. destruct e as [sid' event arg|ms].
  - destruct (step_incoming w sid' event arg) as (w0 & -> & Heff).
    eapply (engaged_effect _ _ _ _ _ (fun _ => True) (fun _ => True)).
    + eapply engaged_effect; [exact Hw|apply (Heff (fun _ => True) (fun _ => True))].
    + by apply effect_run_listeners.
  - cbn [step]. unfold fire_timers.
    eapply (engaged_effect _ _ _ _ _ (fun _ => True) (fun _ => True)).
    2: { by apply effect_fold_timeouts. }
    exact Hw.
Qed.

Lemma engaged_run `{Platform} (a sid ns : nat) (network : string) (n : Node)
      (trace : list Event) (w : World) :
  engaged a sid ns network n w -> engaged a sid ns network n (run w trace).
Proof.
  revert w. induction trace as [|e trace IH]; intros w Hw; [done|].
  apply IH. by apply engaged_step.
Qed.



(** X14.  The challenge listener stays registered and does not look at the
    state of the handshake: whatever the transport has delivered since
    [smartNodeSocket] was called, verdicts and earlier challenges included,
    a challenge with a signature is answered by one [emit] of
    ['authenticate'] carrying the operator's signature over it. *)
Theorem every_challenge_is_answered `{Platform} (network : string) (random : Q) (w : World)
        (n : Node) (op : Operator) (trace : list Event) (event signedData signature : JsVal)
        (bytes : list Z) (key : PrivateKey) :
  wf w -> selectNode nodes network random = Normal (Some n) ->
  operator_of network = Some op ->
  get_prop event "signedData" = Normal signedData ->
  get_prop signedData "signature" = Normal signature ->
  Uint8Array signature = Some bytes ->
  PrivateKey_fromString (JStr (private_key op)) = Normal key ->
  let sid := length (sockets w) in
  let w1 := run (smartNodeSocket network random w).2 trace in
  let canonical :=
    JObj [("serverSignature", JBytes bytes); ("originalPayload", field event "payload")] in
  let userSignature := JBytes (PrivateKey_sign key (Buffer_from (JSON_stringify canonical))) in
  step w1 (Incoming sid "authentication" event)
  = socket_emit sid "authenticate"
      (JObj [("signedData",
              JObj [("signedPayload", canonical); ("userSignature", userSignature)]);
             ("walletId", JStr (id op))]) w1.
Proof.
  intros Hwf Hsel Hop Hsd Hsig Hbytes Hkey sid w1 canonical userSignature.
  subst sid w1 canonical userSignature.
  unfold smartNodeSocket. rewrite (smartNodeSocketOn_started _ _ _ _ _ _ Hsel Hop).
  pose proof (engaged_run _ _ _ _ _ trace _
                (awaiting_engaged _ _ _ _ _ _
                   (started_awaiting network n (JStr (id op)) w Hwf))) as Hw.
  destruct Hw as ((p & Ha) & (s & Hs & Hfive) & (account & Hnode)).
  simpl. unfold socket_listeners. rewrite Hs, Hfive. simpl.
  unfold on_challenge. rewrite Ha.
  unfold node_operator, getNode. rewrite Hnode. simpl.
  unfold challenge_payload. rewrite Hsd, Hsig, Hbytes. simpl.
  unfold sign_payload. rewrite !(operator_prop_of _ _ _ _ Hop), Hkey.
  erewrite getSocket_existing by (first [exact Hnode | reflexivity]).
  reflexivity.
Qed.

Lemma every_challenge_is_answered_witness :
  let w1 := @run toy_platform (@smartNodeSocket toy_platform "testnet" 0%Q empty_world).2
              [Incoming 0 "authentication" challenge;
               Incoming 0 "authenticate" (JObj [("isValidSignature", JBool true)])] in
  (length ∘ emitted) <$> sockets w1 !! 0%nat = Some 1%nat
  ∧ (length ∘ emitted) <$>
      sockets (@step toy_platform w1 (Incoming 0 "authentication" challenge)) !! 0%nat
    = Some 2%nat.
Proof.
  intros w1. split; [vm_compute; reflexivity|].
  pose proof (@every_challenge_is_answered toy_platform "testnet" 0%Q empty_world
                testnet_sn1 (@operator_testnet toy_platform)
                [Incoming 0 "authentication" challenge;
                 Incoming 0 "authenticate" (JObj [("isValidSignature", JBool true)])]
                challenge (JObj [("signature", JArr [JNum 1; JNum 2; JNum 3])])
                (JArr [JNum 1; JNum 2; JNum 3]) [1; 2; 3] "testnet-key"
                wf_empty eq_refl eq_refl eq_refl eq_refl eq_refl eq_refl) as Hthm.
  change (length (sockets empty_world)) with 0%nat in Hthm.
  cbv zeta in Hthm. subst w1. rewrite Hthm. vm_compute. reflexivity.
Defined.

(** ** A settled handshake *)

Lemma step_auths_rel `{Platform} (w : World) (e : Event) :
  auths_rel (fun _ => True) (auths w) (auths (step w e)).
Proof.
  destruct e as [sid event arg|ms].
  - destruct (step_incoming w sid event arg) as (w0 & -> & Heff).
    eapply auths_rel_trans.
    + apply (Heff (fun _ => True) (fun _ => True)).
    + apply (effect_run_listeners (fun _ => True) (fun _ => True)); done.
  - cbn [step]. unfold fire_timers.
    apply (effect_fold_timeouts (fun _ => True) (fun _ => True)
             _ (with_timers _ (with_now _ w))). done.
Qed.

Lemma run_auths_rel `{Platform} (w : World) (trace : list Event) :
  auths_rel (fun _ => True) (auths w) (auths (run w trace)).
Proof.
  revert w. induction trace as [|e trace IH]; intros w; simpl; [apply auths_rel_refl|].
  eapply auths_rel_trans; [apply step_auths_rel|apply IH].
Qed.

(** X15.  The promise of [smartNodeSocket] is settled once and for all: the
    listeners stay on the socket, but whatever the transport delivers after
    the promise was fulfilled or rejected (a verdict to the contrary, a
    challenge that cannot be answered, a disconnect, any lapse of time),
    its outcome stays what it was. *)
Theorem handshake_outcome_is_final `{Platform} (a : nat) (p : AuthPromise) (w : World)
        (trace : list Event) :
  p ≠ AuthPending -> a_promise <$> auths w !! a = Some p ->
  a_promise <$> auths (run w trace) !! a = Some p.
Proof.
  intros Hp Ha.
  destruct (auths w !! a) as [au|] eqn:Hau; [|done].
  injection Ha as <-.
  pose proof (run_auths_rel w trace a) as Hrel. rewrite Hau in Hrel.
  destruct Hrel as (au' & Hau' & (_ & _ & Hkeep) & _).
  specialize (Hkeep Hp).
  by rewrite Hau', <- Hkeep.
Qed.

Lemma handshake_outcome_is_final_witness :
  a_promise <$>
    auths (@run toy_platform
             (@run toy_platform handshake_world
                [Incoming 0 "connect" JUndefined;
                 Incoming 0 "authentication" challenge;
                 Incoming 0 "authenticate" (JObj [("isValidSignature", JBool true)])])
             [Incoming 0 "authenticate" (JObj [("isValidSignature", JBool false)]);
              Incoming 0 "disconnect" (JStr "transport close");
              Elapse 60000]) !! 0%nat
  = Some (AuthResolved "account 0.0.2002 authenticated to node 0.0.467726." 0).
Proof.
  apply (@handshake_outcome_is_final toy_platform).
  - discriminate.
  - vm_compute. reflexivity.
Defined.

(** ** The address of the socket *)

Lemma substring_whole (s : string) (m : nat) :
  (String.length s <= m)%nat -> String.substring 0 m s = s.
Proof.
  revert m. induction s as [|ch s IH]; intros [|m] Hm; simpl in *; try done; try lia.
  f_equal. apply IH. lia.
Qed.

Lemma replace_absent (pat rep s : string) : occurs pat s = false -> replace pat rep s = s.
Proof.
  induction s as [|ch s IH]; intros Hocc.
  - apply orb_false_iff in Hocc as [Hpre _]. cbn [replace]. by rewrite Hpre.
  - apply orb_false_iff in Hocc as [Hpre Hrest]. cbn [replace]. rewrite Hpre.
    f_equal. by apply IH.
Qed.

Lemma replace_unfold (pat rep s : string) :
  replace pat rep s
  = if String.prefix pat s then rep +:+ String.substring (String.length pat) (String.length s) s
    else match s with
         | EmptyString => EmptyString
         | String ch rest => String ch (replace pat rep rest)
         end.
Proof. by destruct s. Qed.

Lemma prefix_app (pat rest : string) : String.prefix pat (pat +:+ rest) = true.
Proof.
  induction pat as [|ch pat IH]; simpl; [by destruct rest|].
  destruct (Ascii.ascii_dec ch ch); [exact IH|done].
Qed.

Lemma substring_app (pat rest : string) (m : nat) :
  (String.length rest <= m)%nat -> String.substring (String.length pat) m (pat +:+ rest) = rest.
Proof.
  intros Hm. induction pat as [|ch pat IH]; simpl; [|exact IH].
  by apply substring_whole.
Qed.

Lemma length_append (a b : string) :
  String.length (a +:+ b) = (String.length a + String.length b)%nat.
Proof.
  induction a as [|ch a IH]; [reflexivity|].
  change (String ch a +:+ b) with (String ch (a +:+ b)).
  cbn [String.length]. by rewrite IH.
Qed.

Lemma replace_prefix (pat rep rest : string) :
  replace pat rep (pat +:+ rest) = rep +:+ rest.
Proof.
  rewrite replace_unfold, prefix_app, substring_app; [done|].
  rewrite length_append. lia.
Qed.

Lemma occurs_unfold (pat : string) (ch : Ascii.ascii) (s : string) :
  occurs pat (String ch s) = String.prefix pat (String ch s) || occurs pat s.
Proof. reflexivity. Qed.

Lemma append_cons (ch : Ascii.ascii) (a b : string) : String ch a +:+ b = String ch (a +:+ b).
Proof. reflexivity. Qed.

Lemma append_nil (b : string) : EmptyString +:+ b = b.
Proof. reflexivity. Qed.

Lemma append_assoc (a b c : string) : (a +:+ b) +:+ c = a +:+ (b +:+ c).
Proof.
  induction a as [|ch a IH]; [by rewrite !append_nil|].
  by rewrite !append_cons, IH.
Qed.

Lemma http_not_in_wss (host : string) :
  occurs "http://" ("wss://" +:+ host) = occurs "http://" host.
Proof. rewrite !append_cons, append_nil. rewrite !occurs_unfold. reflexivity. Qed.

Lemma https_not_in_http (host : string) :
  occurs "https://" ("http://" +:+ host) = occurs "https://" host.
Proof. rewrite !append_cons, append_nil. rewrite !occurs_unfold. reflexivity. Qed.

Lemma init_opens (this : nat) (path : string) (w : World) (ns : SmartNodeSocket) (n : Node) :
  nodeSockets w !! this = Some ns -> node ns = Some n ->
  opens this path w
    (replace "http://" "ws://" (replace "https://" "wss://" (url n)) +:+ "/" +:+ path).
Proof.
  intros Hns Hn. exists ns. split; [exact Hns|].
  unfold init, io. rewrite Hns, Hn. cbn [fst snd]. store.
  split; [reflexivity|]. split; [reflexivity|].
  by rewrite list_lookup_alter_eq, Hns.
Qed.

(** X16.  [init] turns the scheme of the node's address into the WebSocket
    one and appends the path: an [https://] address is opened as [wss://], an
    [http://] address as [ws://], an address with neither scheme as it is.
    The replacements are not anchored at the start of the address, hence the
    condition on the rest of it. *)
Theorem init_converts_the_scheme (this : nat) (path : string) (w : World)
        (ns : SmartNodeSocket) (n : Node) :
  nodeSockets w !! this = Some ns -> node ns = Some n ->
  (∀ host, url n = "https://" +:+ host -> occurs "http://" host = false ->
           opens this path w ("wss://" +:+ host +:+ "/" +:+ path))
  ∧ (∀ host, url n = "http://" +:+ host -> occurs "https://" host = false ->
             opens this path w ("ws://" +:+ host +:+ "/" +:+ path))
  ∧ (occurs "https://" (url n) = false -> occurs "http://" (url n) = false ->
     opens this path w (url n +:+ "/" +:+ path)).
Proof.
  intros Hns Hn. pose proof (init_opens this path w ns n Hns Hn) as Hopen.
  split; [|split].
  - intros host Hurl Hhost. rewrite Hurl, replace_prefix in Hopen.
    rewrite replace_absent in Hopen by (by rewrite http_not_in_wss).
    by rewrite append_assoc in Hopen.
  - intros host Hurl Hhost. rewrite Hurl in Hopen.
    rewrite (replace_absent "https://") in Hopen by (by rewrite https_not_in_http).
    rewrite replace_prefix in Hopen.
    by rewrite append_assoc in Hopen.
  - intros Hs Hp. by rewrite (replace_absent "https://"), replace_absent in Hopen.
Qed.

Lemma init_converts_the_scheme_witness :
  opens 0 "gateway" (new_SmartNodeSocket (Some testnet_sn1) (JStr "0.0.2002") empty_world).2
        "wss://testnet-sn1.hsuite.network/gateway".
Proof.
  destruct (init_converts_the_scheme 0 "gateway"
              (new_SmartNodeSocket (Some testnet_sn1) (JStr "0.0.2002") empty_world).2
              (mkSmartNodeSocket (Some testnet_sn1) (JStr "0.0.2002") None) testnet_sn1)
    as (Hsecure & _ & _).
  - reflexivity.
  - reflexivity.
  - apply (Hsecure "testnet-sn1.hsuite.network"); reflexivity.
Defined.

(** ** The HTTP client and the socket *)

Lemma known_network `{Platform} (network : string) (random : Q) (n : Node) :
  selectNode nodes network random = Normal (Some n) -> is_Some (operator_of network).
Proof.
  unfold selectNode, catalog_get, nodes, own_entry, operator_of.
  repeat case_decide; subst; try done; by case_bool_decide.
Qed.

(** X17.  [smartNodeClient] and [smartNodeSocket] select their node by the
    same expression: on the same network and the same value of
    [Math.random()], either both promises are rejected with the same error
    and no socket is opened, or the client is created with the address of a
    node, with credentials, and the socket is opened for that very node. *)
Theorem client_and_socket_pick_alike `{Platform} (network : string) (random : Q) (w : World) :
  let w' := (smartNodeSocket network random w).2 in
  match smartNodeClient network random with
  | Throw e =>
      auths w' !! length (auths w) = Some (mkAuth network None (AuthRejected e))
      ∧ sockets w' = sockets w
  | Normal client =>
      withCredentials client = true
      ∧ ∃ n op, operator_of network = Some op
                ∧ baseURL client = url n
                ∧ w' = started_world network n (JStr (id op)) w
  end.
Proof.
  intros w'. subst w'. unfold smartNodeClient, smartNodeClientOn, smartNodeSocket.
  destruct (selectNode nodes network random) as [[n|]|e] eqn:Hsel.
  - split; [reflexivity|].
    destruct (known_network network random n Hsel) as [op Hop].
    exists n, op. split; [exact Hop|]. split; [reflexivity|].
    by apply smartNodeSocketOn_started.
  - destruct (smartNodeSocketOn_rejects nodes network random w _
                (or_intror (conj Hsel eq_refl))) as (Ha & Hs & _).
    by split.
  - destruct (smartNodeSocketOn_rejects nodes network random w e (or_introl Hsel))
      as (Ha & Hs & _).
    by split.
Qed.

Lemma selected_index (network : string) (random : Q) (l : list Node) :
  own_entry nodes network = Some l -> (0 < length l)%nat ->
  (0 <= random)%Q -> (random < 1)%Q ->
  ∃ i n, (i < length l)%nat ∧ l !! i = Some n
         ∧ selectNode nodes network random = Normal (Some n).
Proof.
  intros Hown Hlen Hlo Hhi.
  pose proof (random_index_range random (length l) Hlen Hlo Hhi) as Hrange.
  destruct (lookup_lt_is_Some_2 l (Z.to_nat (random_index random (length l)))
              ltac:(lia)) as [n Hn].
  exists (Z.to_nat (random_index random (length l))), n.
  split; [lia|]. split; [exact Hn|].
  by rewrite (selectNode_own _ _ _ _ Hown), Hn.
Qed.

(** X18.  The two selections are separate draws: on either network, whatever
    node the HTTP client was created for, there is a value of [Math.random()]
    for which [smartNodeSocket] opens its socket to a node with another
    address.  Nothing ties the socket of [main] to the node of its client. *)
Theorem client_and_socket_may_differ `{Platform} (network : string) (r1 : Q) (w : World) :
  network = "mainnet" ∨ network = "testnet" ->
  (0 <= r1)%Q -> (r1 < 1)%Q ->
  ∃ client r2 n op,
    smartNodeClient network r1 = Normal client
    ∧ (0 <= r2)%Q ∧ (r2 < 1)%Q
    ∧ operator_of network = Some op
    ∧ (smartNodeSocket network r2 w).2 = started_world network n (JStr (id op)) w
    ∧ url n ≠ baseURL client.
Proof.
  intros Hnet Hlo Hhi.
  assert (∃ l, own_entry nodes network = Some l ∧ (2 < length l)%nat ∧ (length l <= 8)%nat
               ∧ NoDup (url <$> l)
               ∧ (∃ n0, selectNode nodes network 0 = Normal (Some n0) ∧ l !! 0%nat = Some n0)
               ∧ (∃ n1, selectNode nodes network (1 # 2) = Normal (Some n1)
                        ∧ l !! (length l / 2)%nat = Some n1)) as (l & Hown & Hlen & Hlen' & Hnd & H0 & H1).
  { destruct Hnet as [-> | ->].
    - exists mainnet_nodes. split; [reflexivity|]. split; [simpl; lia|]. split; [simpl; lia|].
      split; [apply (bool_decide_unpack _); vm_compute; exact I|].
      split; eexists; split; vm_compute; reflexivity.
    - exists testnet_nodes. split; [reflexivity|]. split; [simpl; lia|]. split; [simpl; lia|].
      split; [apply (bool_decide_unpack _); vm_compute; exact I|].
      split; eexists; split; vm_compute; reflexivity. }
  destruct (selected_index network r1 l Hown ltac:(lia) Hlo Hhi) as (i & n & Hi & Hn & Hsel).
  destruct H0 as (n0 & Hsel0 & Hl0). destruct H1 as (n1 & Hsel1 & Hl1).
  destruct (known_network network r1 n Hsel) as [op Hop].
  exists (mkAxiosInstance (url n) true).
  assert (smartNodeClient network r1 = Normal (mkAxiosInstance (url n) true)) as Hclient.
  { unfold smartNodeClient, smartNodeClientOn. by rewrite Hsel. }
  destruct (decide (i = 0%nat)) as [->|Hne].
  - exists (1 # 2)%Q, n1, op. split; [exact Hclient|].
    split; [done|]. split; [done|]. split; [exact Hop|].
    split; [by apply smartNodeSocketOn_started|].
    simpl. intros Heq.
    assert ((length l / 2)%nat = 0%nat) as Hz.
    { eapply NoDup_lookup; [exact Hnd| |].
      - by rewrite list_lookup_fmap, Hl1.
      - by rewrite list_lookup_fmap, Hn, Heq. }
    apply Nat.div_small_iff in Hz; lia.
  - exists 0%Q, n0, op. split; [exact Hclient|].
    split; [done|]. split; [done|]. split; [exact Hop|].
    split; [by apply smartNodeSocketOn_started|].
    simpl. intros Heq. apply Hne.
    eapply NoDup_lookup; [exact Hnd| |].
    + by rewrite list_lookup_fmap, Hn.
    + rewrite list_lookup_fmap, Hl0. simpl. by rewrite Heq.
Qed.

Lemma client_and_socket_may_differ_witness :
  ∃ (client : AxiosInstance) (r2 : Q) (n : Node),
    smartNodeClient "testnet" 0 = Normal client
    ∧ (@smartNodeSocket toy_platform "testnet" r2 empty_world).2
      = started_world "testnet" n (JStr "0.0.2002") empty_world
    ∧ url n ≠ baseURL client.
Proof.
  destruct (@client_and_socket_may_differ toy_platform "testnet" 0%Q empty_world)
    as (client & r2 & n & op & Hclient & Hlo & Hhi & Hop & Hsocket & Hne).
  - by right.
  - done.
  - done.
  - exists client, r2, n. split; [exact Hclient|]. split; [|exact Hne].
    injection Hop as <-. exact Hsocket.
Defined.
